(** * CricLive backend: cache store, refresh strategies and normalizer

    A shallow embedding of the core of the CricLive backend
    ([backend/src/cache.js], [poller.js] in its two variants, [routes.js]
    and [cricbuzzScraper.js]) together with the properties its design
    document states about it.

    Conventions.
    - [Date.now()] is an integer number of milliseconds; every reading of
      the clock made by a function is an explicit argument of its model,
      in the order in which the source makes the readings.
    - A JavaScript [Map] or plain object keyed by strings is a [gmap string],
      a [Set] of strings a [gset string].
    - Strings are sequences of code units below 256 (Latin-1), on which
      the character classes and case mappings below are the JavaScript
      ones.
    - A [throw] is the [Err] constructor of [result]; [null] and
      [undefined] are [None]. *)

From Stdlib Require Import ZArith NArith Ascii String DecimalString DecimalPos.
From stdpp Require Import gmap strings list.

Local Open Scope Z_scope.

(** ** Outcomes of fallible code *)

Inductive result (A : Type) : Type :=
| Ok (a : A)
| Err (message : string).
Arguments Ok {A} a.
Arguments Err {A} message.

Definition is_err {A} (r : result A) : bool :=
  match r with Ok _ => false | Err _ => true end.

(** ** cache.js: the TTL cache store *)

Module Cache.

Section Store.
Context {V : Type}.

(** The object literal stored by [set]. *)
Record entry : Type := Entry {
  value : V;
  expiresAt : Z;
  cachedAt : Z
}.

(** [this.store], a [Map] from keys to entries. *)
Local Abbreviation t := (gmap string entry).

Definition empty : t := ∅.

(** [set(key, value, ttlSeconds)].  The object literal evaluates
    [Date.now()] twice: [now_e] is the reading used for [expiresAt],
    [now_c] the later one used for [cachedAt]. *)
Definition set (now_e now_c : Z) (key : string) (v : V) (ttlSeconds : Z)
           (store : t) : t :=
  <[key := {| value := v;
              expiresAt := now_e + ttlSeconds * 1000;
              cachedAt := now_c |}]> store.

(** [get(key)]: the store after the call and the returned entry
    ([None] is [null]). *)
Definition get (now : Z) (key : string) (store : t) : t * option entry :=
  match store !! key with
  | None => (store, None)
  | Some e =>
      if now >? expiresAt e then (base.delete key store, None)
      else (store, Some e)
  end.

(** [has(key)]. *)
Definition has (now : Z) (key : string) (store : t) : t * bool :=
  let '(store', r) := get now key store in
  (store', match r with Some _ => true | None => false end).

(** [delete(key)]. *)
Definition delete (key : string) (store : t) : t := base.delete key store.

(** [age(key)]: [Math.floor((Date.now() - entry.cachedAt) / 1000)]. *)
Definition age (now : Z) (key : string) (store : t) : option Z :=
  match store !! key with
  | None => None
  | Some e => Some ((now - cachedAt e) / 1000)
  end.

(** [flush()]. *)
Definition flush (store : t) : t := ∅.

(** [stats()]: [total] and [active]. *)
Definition stats (now : Z) (store : t) : nat * nat :=
  (size store,
   length (filter (λ kv, now < expiresAt kv.2) (map_to_list store))).

End Store.

Arguments entry V : clear implicits.
Arguments Entry {V} value expiresAt cachedAt.

Abbreviation t V := (gmap string (entry V)).

End Cache.

(** ** The JavaScript string primitives used by the scraper *)

Module JS.

Definition code (c : ascii) : N := N_of_ascii c.

Definition in_range (lo hi : N) (c : ascii) : bool :=
  ((lo <=? code c) && (code c <=? hi))%N.

Definition isUpper (c : ascii) : bool := in_range 65 90 c.
Definition isLower (c : ascii) : bool := in_range 97 122 c.

(** [\d], [\w], [\s] and the complement of [.] *)
Definition isDigit (c : ascii) : bool := in_range 48 57 c.
Definition isWord (c : ascii) : bool :=
  isUpper c || isLower c || isDigit c || (code c =? 95)%N.
Definition isSpace (c : ascii) : bool :=
  in_range 9 13 c || (code c =? 32)%N || (code c =? 160)%N.
Definition isLineTerminator (c : ascii) : bool :=
  (code c =? 10)%N || (code c =? 13)%N.

(** [toLowerCase] on one code unit: A-Z and the capital letters of the
    Latin-1 supplement (all of U+00C0..U+00DE but the multiplication sign). *)
Definition lowerChar (c : ascii) : ascii :=
  if isUpper c || (in_range 192 222 c && negb (code c =? 215)%N)
  then ascii_of_N (code c + 32) else c.

Fixpoint toLowerCase (s : string) : string :=
  match s with
  | EmptyString => EmptyString
  | String c s' => String (lowerChar c) (toLowerCase s')
  end.

(** The canonical form under which a regular expression with the [i] flag
    compares characters (the upper-case letter). *)
Definition canonicalize (c : ascii) : ascii :=
  if isLower c || (in_range 224 254 c && negb (code c =? 247)%N)
  then ascii_of_N (code c - 32) else c.

(** Truthiness of a string, and of a possibly [undefined] string. *)
Definition truthy (s : string) : bool :=
  match s with EmptyString => false | String _ _ => true end.

Definition truthy_opt (o : option string) : bool :=
  match o with Some s => truthy s | None => false end.

(** [o || ''] *)
Definition or_empty (o : option string) : string :=
  match o with Some s => s | None => EmptyString end.

(** [s.split(sep)] for a one-character separator. *)
Fixpoint split (sep : ascii) (s : string) : list string :=
  match s with
  | EmptyString => [EmptyString]
  | String c s' =>
      if Ascii.eqb c sep then EmptyString :: split sep s'
      else match split sep s' with
           | h :: t => String c h :: t
           | [] => [String c EmptyString]
           end
  end.

(** [s.slice(from, to)] for [0 <= from <= to]. *)
Definition slice (from to : nat) (s : string) : string :=
  String.substring from (to - from) s.

(** [s.indexOf(pat, from)], [None] standing for [-1]. *)
Definition indexOf (pat : string) (from : nat) (s : string) : option nat :=
  String.index from pat s.

(** [s.includes(pat)] *)
Definition includes (pat s : string) : bool :=
  match indexOf pat 0 s with Some _ => true | None => false end.

(** [String(n)] and [`${n}`] for a non-negative integer that a double
    holds exactly (below 2^53), which the code prints in full; larger
    numbers are rounded, and printed with an exponent from 10^21 on. *)
Definition String_of_N (n : N) : string :=
  NilEmpty.string_of_uint (N.to_uint n).

(** [+s] for [s] a run of decimal digits ([\d+]): the number denoted.
    The code holds it as a double, which is this number as long as it is
    below 2^53 and a rounding of it beyond (infinity for the longest
    runs). *)
Definition digitValue (c : ascii) : N := (code c - 48)%N.

Definition Number_of_digits (s : string) : N :=
  fold_left (λ acc c, (10 * acc + digitValue c)%N) (list_ascii_of_string s) 0%N.

(** [parts.filter(Boolean).join(sep)] on strings *)
Fixpoint join (sep : string) (parts : list string) : string :=
  match parts with
  | [] => EmptyString
  | [p] => p
  | p :: rest => p +:+ sep +:+ join sep rest
  end.

End JS.

(** ** Regular expressions

    The scraper reads its text fields with regular-expression literals.
    They are embedded as syntax trees and run by a backtracking matcher
    that follows the JavaScript matching order: leftmost start position
    first, greedy quantifiers longest first, lazy ones shortest first. *)

Module Regex.

Inductive t : Type :=
| Eps                          (* the empty pattern *)
| Chr (c : ascii)              (* a literal character *)
| Class (p : ascii → bool)     (* a character class *)
| Seq (r1 r2 : t)              (* r1 r2 *)
| Plus (r : t)                 (* r+ *)
| PlusLazy (r : t)             (* r+? *)
| Group (n : nat) (r : t)      (* the n-th capturing group *)
| Bol.                         (* ^ *)

(** A run of literal characters. *)
Fixpoint lit (s : string) : t :=
  match s with
  | EmptyString => Eps
  | String c EmptyString => Chr c
  | String c s' => Seq (Chr c) (lit s')
  end.

Abbreviation captures := (gmap nat (list ascii)).

Definition char_matches (ignoreCase : bool) (c x : ascii) : bool :=
  if ignoreCase then Ascii.eqb (JS.canonicalize c) (JS.canonicalize x)
  else Ascii.eqb c x.

(** The iterations of [r+] and [r+?].  [step] matches [r] once and [k] is
    what follows the quantifier.  An iteration that consumes nothing ends
    the repetition, and every other one consumes a character, so [fuel] =
    one more than the length of the input is never used up. *)
Section Iterate.
Context {R : Type}.
Variable step : nat → list ascii → captures →
                (nat → list ascii → captures → option R) → option R.
Variable k : nat → list ascii → captures → option R.

Fixpoint greedy (fuel i : nat) (s : list ascii) (caps : captures)
    : option R :=
  match fuel with
  | O => None
  | S fuel' =>
      step i s caps (λ i' s' caps',
        match (if (i <? i')%nat then greedy fuel' i' s' caps' else None) with
        | Some x => Some x
        | None => k i' s' caps'
        end)
  end.

Fixpoint lazy (fuel i : nat) (s : list ascii) (caps : captures)
    : option R :=
  match fuel with
  | O => None
  | S fuel' =>
      step i s caps (λ i' s' caps',
        match k i' s' caps' with
        | Some x => Some x
        | None => if (i <? i')%nat then lazy fuel' i' s' caps' else None
        end)
  end.

End Iterate.

(** [run ic r i s caps k]: match [r] against the input [s], which starts at
    offset [i] of the text, then continue with [k]; [None] makes the caller
    backtrack. *)
Fixpoint run {R : Type} (ignoreCase : bool) (r : t) (i : nat) (s : list ascii)
    (caps : captures) (k : nat → list ascii → captures → option R)
    : option R :=
  match r with
  | Eps => k i s caps
  | Chr c =>
      match s with
      | x :: s' => if char_matches ignoreCase c x then k (S i) s' caps else None
      | [] => None
      end
  | Class p =>
      match s with
      | x :: s' => if p x then k (S i) s' caps else None
      | [] => None
      end
  | Seq r1 r2 =>
      run ignoreCase r1 i s caps (λ i' s' caps', run ignoreCase r2 i' s' caps' k)
  | Plus r1 => greedy (run ignoreCase r1) k (S (length s)) i s caps
  | PlusLazy r1 => lazy (run ignoreCase r1) k (S (length s)) i s caps
  | Group n r1 =>
      run ignoreCase r1 i s caps (λ i' s' caps',
        k i' s' (<[n := take (i' - i) s]> caps'))
  | Bol => if (i =? 0)%nat then k i s caps else None
  end.

(** The leftmost start position at or after offset [i] from which the
    pattern matches: start, end and captures. *)
Fixpoint search (ignoreCase : bool) (r : t) (i : nat) (s : list ascii)
    : option (nat * nat * captures) :=
  match run ignoreCase r i s ∅ (λ j _ caps, Some (j, caps)) with
  | Some (j, caps) => Some (i, j, caps)
  | None =>
      match s with
      | [] => None
      | _ :: s' => search ignoreCase r (S i) s'
      end
  end.

(** The array returned by [exec] and [match]: the position of the match,
    the position after it, and the captured substrings. *)
Record match_array : Type := MatchArray {
  index : nat;
  lastIndex : nat;
  groups : captures
}.

(** [re.exec(text)] with [re.lastIndex = from] (for a literal without the
    [g] flag, [from] is 0). *)
Definition exec (ignoreCase : bool) (r : t) (from : nat) (text : string)
    : option match_array :=
  match search ignoreCase r from (drop from (list_ascii_of_string text)) with
  | Some (i, j, caps) => Some (MatchArray i j caps)
  | None => None
  end.

(** [text.match(re)] for a literal without the [g] flag. *)
Definition match_ (ignoreCase : bool) (r : t) (text : string)
    : option match_array :=
  exec ignoreCase r 0 text.

(** [(m || [])[n]] *)
Definition group (n : nat) (m : option match_array) : option string :=
  match m with
  | Some a => string_of_list_ascii <$> groups a !! n
  | None => None
  end.

(** What it means for a pattern to match the word [w] at offset [i] of the
    text, taking the captures [c0] to [c1]. *)
Inductive sem (ic : bool) : t → nat → list ascii → captures → captures → Prop :=
| sem_eps i c0 : sem ic Eps i [] c0 c0
| sem_chr c x i c0 : char_matches ic c x = true → sem ic (Chr c) i [x] c0 c0
| sem_class p x i c0 : p x = true → sem ic (Class p) i [x] c0 c0
| sem_seq r1 r2 i w1 w2 c0 c1 c2 :
    sem ic r1 i w1 c0 c1 → sem ic r2 (i + length w1)%nat w2 c1 c2 →
    sem ic (Seq r1 r2) i (w1 ++ w2) c0 c2
| sem_plus_last r i w c0 c1 : sem ic r i w c0 c1 → sem ic (Plus r) i w c0 c1
| sem_plus_more r i w1 w2 c0 c1 c2 :
    sem ic r i w1 c0 c1 → sem ic (Plus r) (i + length w1)%nat w2 c1 c2 →
    sem ic (Plus r) i (w1 ++ w2) c0 c2
| sem_lazy_last r i w c0 c1 :
    sem ic r i w c0 c1 → sem ic (PlusLazy r) i w c0 c1
| sem_lazy_more r i w1 w2 c0 c1 c2 :
    sem ic r i w1 c0 c1 → sem ic (PlusLazy r) (i + length w1)%nat w2 c1 c2 →
    sem ic (PlusLazy r) i (w1 ++ w2) c0 c2
| sem_group n r i w c0 c1 :
    sem ic r i w c0 c1 → sem ic (Group n r) i w c0 (<[n := w]> c1)
| sem_bol c0 : sem ic Bol 0 [] c0 c0.

End Regex.

(** ** The canonical match record served to clients *)

Module TeamInfo.
Record t : Type := Make {
  name : option string;
  shortname : option string;
  img : option string
}.
End TeamInfo.

Module InningsScore.
(** [r], [w] and [o] are JSON scalars handed on as they come. *)
Record t : Type := Make {
  inning : string;
  r : option string;
  w : option string;
  o : option string
}.
End InningsScore.

Module Match.
Record t : Type := Make {
  id : string;
  name : string;
  matchType : string;
  status : string;
  dateTimeGMT : string;
  matchStarted : bool;
  matchEnded : bool;
  teams : list string;
  teamInfo : list TeamInfo.t;
  score : list InningsScore.t
}.
End Match.

(** The value the refresh strategies cache under [currentMatches] and
    [upcomingMatches]: [{ data: [...] }]. *)
Record MatchList : Type := { data : list Match.t }.

(** ** cricbuzzScraper.js *)

Module Scraper.

(** *** Upstream requests

    What the external site answers to a request for a path, and the
    computations that issue such requests: a computation is run against
    the site and yields the paths it requested, in order, and its outcome. *)

Inductive response : Type :=
| NetworkFailure (message : string)      (* [fetch] rejects: timeout, reset *)
| HttpResponse (status : N) (body : string).

Definition upstream : Type := string → response.

Definition io (A : Type) : Type := upstream → list string * result A.

Definition ret {A} (a : A) : io A := λ _, ([], Ok a).

Definition throw {A} (message : string) : io A := λ _, ([], Err message).

Definition bind {A B} (m : io A) (f : A → io B) : io B :=
  λ up,
    match m up with
    | (log, Ok a) => let '(log', r) := f a up in (log ++ log', r)
    | (log, Err e) => (log, Err e)
    end.

Definition lift {A} (r : result A) : io A := λ _, ([], r).

Notation "'await' x ':=' m 'in' f" := (bind m (λ x, f))
  (at level 10, x name, m at level 100, f at level 200).

(** [res.ok] *)
Definition ok (status : N) : bool := ((200 <=? status) && (status <=? 299))%N.

(** [fetchPage(path)] *)
Definition fetchPage (path : string) : io string :=
  λ up,
    ([path],
     match up path with
     | NetworkFailure message => Err message
     | HttpResponse status body =>
         if ok status then Ok body
         else Err ("Cricbuzz HTTP " +:+ JS.String_of_N status +:+ " for " +:+ path)
     end).

(** *** JSON extraction from the RSC stream *)

Definition lbrace : ascii := "{"%char.
Definition rbrace : ascii := "}"%char.

(** The loop of [extractJsonAt]: [rest] is [html] from index [i] on. *)
Fixpoint extractJsonAt_loop (html : string) (rest : list ascii)
    (i depth start : Z) : option string :=
  match rest with
  | [] => None
  | c :: rest' =>
      if Ascii.eqb c lbrace then
        extractJsonAt_loop html rest' (i + 1) (depth + 1)
          (if depth =? 0 then i else start)
      else if Ascii.eqb c rbrace then
        if (depth - 1 =? 0) && negb (start =? -1)
        then Some (JS.slice (Z.to_nat start) (Z.to_nat (i + 1)) html)
        else extractJsonAt_loop html rest' (i + 1) (depth - 1) start
      else extractJsonAt_loop html rest' (i + 1) depth start
  end.

(** [extractJsonAt(html, startIdx)].  For a negative [startIdx] the
    iterations below index 0 read [undefined] and do nothing. *)
Definition extractJsonAt (html : string) (startIdx : Z) : option string :=
  extractJsonAt_loop html
    (drop (Z.to_nat startIdx) (list_ascii_of_string html))
    (Z.max 0 startIdx) 0 (-1).

Definition backslash : ascii := "\"%char.
Definition dquote : ascii := "034"%char.
Definition squote : ascii := "'"%char.

(** [raw.replace(/\\q/g, q)] for a quote character [q] *)
Fixpoint unescape (q : ascii) (raw : string) : string :=
  match raw with
  | EmptyString => EmptyString
  | String c rest =>
      match rest with
      | String c' rest' =>
          if Ascii.eqb c backslash && Ascii.eqb c' q
          then String q (unescape q rest')
          else String c (unescape q rest)
      | EmptyString => String c EmptyString
      end
  end.

(** *** Match state helpers *)

Definition LIVE_STATES : gset string :=
  {[ "in progress"; "innings break"; "strategic timeout"; "rain";
     "bad light"; "stumps"; "drinks"; "tea"; "lunch"; "in break" ]}.

Definition ENDED_STATES : gset string :=
  {[ "complete"; "result"; "abandoned"; "no result"; "cancelled" ]}.

Record state_flags : Type := { matchStarted : bool; matchEnded : bool }.

(** [parseState(state = '')]: [None] is an [undefined] argument.  The
    default stands in for [undefined] only: a [null] argument reaches
    [state.toLowerCase()] and throws, which the caller accounts for (see
    [normalizeMatch]). *)
Definition parseState (state : option string) : state_flags :=
  let s := JS.toLowerCase (default EmptyString state) in
  let matchEnded := bool_decide (s ∈ ENDED_STATES) in
  let matchStarted := matchEnded || bool_decide (s ∈ LIVE_STATES) in
  {| matchStarted := matchStarted; matchEnded := matchEnded |}.

(** *** Team image URL *)

Definition teamImg (imageId : option N) : option string :=
  match imageId with
  | None | Some 0%N => None
  | Some n =>
      Some ("https://static.cricbuzz.com/a/img/v1/75x75/i1/c"
            +:+ JS.String_of_N n +:+ "/team.jpg")
  end.

(** *** The embedded match list, as [JSON.parse] returns it

    An absent property is [None], and so is a [null] one wherever the
    code treats the two alike.  [state] is the one property for which it
    does not.  [matchId] is the external numeric id. *)

(** The [state] property of a match: absent, [null], or a text. *)
Inductive State : Type :=
| Absent
| Null
| Text (s : string).

(** The argument that [parseState] works with when it does not throw. *)
Definition stateText (st : State) : option string :=
  match st with
  | Text s => Some s
  | Absent | Null => None
  end.

(** The message of the [TypeError] that Node raises for
    [null.toLowerCase()]. *)
Definition nullStateError : string :=
  "Cannot read properties of null (reading 'toLowerCase')".

Record Team : Type := {
  teamName : option string;
  teamSName : option string;
  imageId : option N
}.

Record Innings : Type := {
  inningsId : option N;
  runs : option string;
  wickets : option string;
  overs : option string;
  r : option string;
  w : option string;
  o : option string
}.

(** [team1Score] and [team2Score]: an object whose entries are innings
    objects, possibly [null]. *)
Definition TeamScore : Type := list (string * option Innings).

Record MatchInfo : Type := {
  matchId : N;
  state : State;
  seriesName : option string;
  matchDesc : option string;
  matchFormat : option string;
  status : option string;
  startDate : option string;
  team1 : option Team;
  team2 : option Team;
  info_team1Score : option TeamScore;
  info_team2Score : option TeamScore
}.

Record MatchScore : Type := {
  team1Score : option TeamScore;
  team2Score : option TeamScore
}.

Record MatchEntry : Type := {
  matchInfo : option MatchInfo;
  matchScore : option MatchScore
}.

Record SeriesAdWrapper : Type := { matches : option (list MatchEntry) }.
Record SeriesBlock : Type := { seriesAdWrapper : option SeriesAdWrapper }.
Record TypeBlock : Type := { seriesMatches : option (list SeriesBlock) }.
Record MatchesList : Type := { typeMatches : option (list TypeBlock) }.

(** *** Build score array from matchScore object *)

(** [a ?? b] *)
Definition nullish {A} (a b : option A) : option A :=
  match a with Some _ => a | None => b end.

(** One pass of the loops over [Object.entries(tScore || {})]. *)
Definition inningsScores (tName : string) (tScore : option TeamScore)
    : list InningsScore.t :=
  omap (λ entry : string * option Innings,
          match entry.2 with
          | None => None
          | Some innObj =>
              let n := match inningsId innObj with
                       | None | Some 0%N => 1%N
                       | Some k => k
                       end in
              Some (InningsScore.Make
                      (tName +:+ " Inning " +:+ JS.String_of_N n)
                      (nullish (runs innObj) (r innObj))
                      (nullish (wickets innObj) (w innObj))
                      (nullish (overs innObj) (o innObj)))
          end)
       (default [] tScore).

Definition buildScores (matchInfo : MatchInfo) (matchScore : option MatchScore)
    : list InningsScore.t :=
  let t1Name := JS.or_empty (team1 matchInfo ≫= teamName) in
  let t2Name := JS.or_empty (team2 matchInfo ≫= teamName) in
  let t1Score := nullish (matchScore ≫= team1Score) (info_team1Score matchInfo) in
  let t2Score := nullish (matchScore ≫= team2Score) (info_team2Score matchInfo) in
  inningsScores t1Name t1Score ++ inningsScores t2Name t2Score.

(** *** Normalize a single matchInfo + matchScore *)

(** [parts.filter(Boolean)] on possibly missing strings *)
Definition filterBoolean (parts : list (option string)) : list string :=
  omap (λ p, match p with
             | Some s => if JS.truthy s then Some s else None
             | None => None
             end) parts.

Definition teamInfoOf (t : Team) : TeamInfo.t :=
  TeamInfo.Make (teamName t) (teamSName t) (teamImg (imageId t)).

Section Normalize.

(** [new Date(Number(startDate)).toISOString()], which throws a
    [RangeError] when the text is not a time value. *)
Variable toISOString : string → result string.

(** [parseState(matchInfo.state)] is the first statement of the function:
    with a [null] state it throws before anything else is read.  The
    separator of [name] is an en dash between two spaces, held here as its
    UTF-8 bytes. *)
Definition normalizeMatch (matchInfo : MatchInfo)
    (matchScore : option MatchScore) (slug : string) : result Match.t :=
  match state matchInfo with
  | Null => Err nullStateError
  | Absent | Text _ =>
  let flags := parseState (stateText (state matchInfo)) in
  let t1 := team1 matchInfo in
  let t2 := team2 matchInfo in
  let id_ := if JS.truthy slug
             then JS.String_of_N (matchId matchInfo) +:+ "~" +:+ slug
             else JS.String_of_N (matchId matchInfo) in
  let dateTimeGMT :=
    match startDate matchInfo with
    | Some d => if JS.truthy d then toISOString d else Ok EmptyString
    | None => Ok EmptyString
    end in
  match dateTimeGMT with
  | Err e => Err e
  | Ok date =>
      Ok (Match.Make
            id_
            (JS.join " – "
               (filterBoolean [seriesName matchInfo; matchDesc matchInfo]))
            (JS.toLowerCase (JS.or_empty (matchFormat matchInfo)))
            (JS.or_empty (status matchInfo))
            date
            (matchStarted flags)
            (matchEnded flags)
            (filterBoolean [t1 ≫= teamName; t2 ≫= teamName])
            (teamInfoOf <$> omap (λ t, t) [t1; t2])
            (buildScores matchInfo matchScore))
  end
  end.

End Normalize.

(** *** Fetch + parse the live-scores match list *)

(** [/href=Q\/live-cricket-scores\/(\d+)\/([^Q]+)Q/g], where [Q] stands
    for the double quote *)
Definition linkRe : Regex.t :=
  Regex.Seq (Regex.lit "href=")
 (Regex.Seq (Regex.Chr dquote)
 (Regex.Seq (Regex.lit "/live-cricket-scores/")
 (Regex.Seq (Regex.Group 1 (Regex.Plus (Regex.Class JS.isDigit)))
 (Regex.Seq (Regex.Chr "/")
 (Regex.Seq (Regex.Group 2
               (Regex.Plus (Regex.Class (λ c, negb (Ascii.eqb c dquote)))))
            (Regex.Chr dquote)))))).

(** The [while ((lm = linkRe.exec(html)) !== null)] loop; every match
    consumes a character, so [fuel] = the length of [html] is enough. *)
Fixpoint slugMapLoop (fuel lastIndex : nat) (html : string)
    (slugMap : gmap string string) : gmap string string :=
  match fuel with
  | O => slugMap
  | S fuel' =>
      match Regex.exec false linkRe lastIndex html with
      | None => slugMap
      | Some lm =>
          match Regex.group 1 (Some lm), Regex.group 2 (Some lm) with
          | Some id, Some slug =>
              slugMapLoop fuel' (Regex.lastIndex lm) html (<[id := slug]> slugMap)
          | _, _ => slugMap
          end
      end
  end.

Definition slugMapOf (html : string) : gmap string string :=
  slugMapLoop (String.length html) 0 html ∅.

(** The three nested loops, down to the entries that carry a [matchInfo]. *)
Definition flatten (data : MatchesList) : list (MatchInfo * option MatchScore) :=
  typeBlock ← default [] (typeMatches data);
  seriesBlock ← default [] (seriesMatches typeBlock);
  m ← default [] (seriesAdWrapper seriesBlock ≫= matches);
  match matchInfo m with
  | Some info => [(info, matchScore m)]
  | None => []
  end.

Section MatchList.

Variable toISOString : string → result string.

(** [JSON.parse] of the unescaped payload, with the shape the loops read. *)
Variable JSON_parse : string → result MatchesList.

Definition parseRscJson (raw : string) : result MatchesList :=
  JSON_parse (unescape squote (unescape dquote raw)).

(** [matches.push(normalizeMatch(...))] over the entries, in order. *)
Fixpoint normalizeAll (slugMap : gmap string string)
    (entries : list (MatchInfo * option MatchScore)) : result (list Match.t) :=
  match entries with
  | [] => Ok []
  | (info, sc) :: rest =>
      let slug := JS.or_empty (slugMap !! JS.String_of_N (matchId info)) in
      match normalizeMatch toISOString info sc slug with
      | Err e => Err e
      | Ok m =>
          match normalizeAll slugMap rest with
          | Err e => Err e
          | Ok ms => Ok (m :: ms)
          end
      end
  end.

Definition key : string := "currentMatchesList".

(** The part of [fetchMatchList] that follows the download. *)
Definition parseMatchList (html : string) : result (list Match.t) :=
  let slugMap := slugMapOf html in
  match JS.indexOf key 0 html with
  | None => Err "Could not find currentMatchesList in Cricbuzz page"
  | Some keyIdx =>
      let braceIdx :=
        match JS.indexOf "{" (keyIdx + String.length key) html with
        | Some i => Z.of_nat i
        | None => -1
        end in
      match extractJsonAt html braceIdx with
      | None => Err "Could not extract match list JSON"
      | Some raw =>
          match parseRscJson raw with
          | Err e => Err e
          | Ok data => normalizeAll slugMap (flatten data)
          end
      end
  end.

Definition fetchMatchList : io (list Match.t) :=
  await html := fetchPage "/cricket-match/live-scores" in
  lift (parseMatchList html).

(** *** Public API: the match lists *)

Definition isCurrent (m : Match.t) : bool :=
  Match.matchStarted m
  || JS.includes "preview" (JS.toLowerCase (Match.status m))
  || JS.includes "starts" (JS.toLowerCase (Match.status m)).

Definition getCurrentMatches : io MatchList :=
  await matches := fetchMatchList in
  let current := List.filter isCurrent matches in
  ret {| data := match current with [] => matches | _ :: _ => current end |}.

Definition getMatches : io MatchList :=
  await matches := fetchMatchList in
  ret {| data := matches |}.

End MatchList.

(** *** The Extras and Total lines of a scorecard *)

Module Extras.
Record t : Type := Make { b : N; lb : N; w : N; nb : N; p : N }.
End Extras.

Module Total.
Record t : Type := Make { r : N; w : N; o : option string }.
End Total.

Definition digits (n : nat) : Regex.t :=
  Regex.Group n (Regex.Plus (Regex.Class JS.isDigit)).

(** [/b (\d+)/], [/lb (\d+)/], [/w (\d+)/], [/nb (\d+)/], [/p (\d+)/] *)
Definition re_b : Regex.t := Regex.Seq (Regex.lit "b ") (digits 1).
Definition re_lb : Regex.t := Regex.Seq (Regex.lit "lb ") (digits 1).
Definition re_w : Regex.t := Regex.Seq (Regex.lit "w ") (digits 1).
Definition re_nb : Regex.t := Regex.Seq (Regex.lit "nb ") (digits 1).
Definition re_p : Regex.t := Regex.Seq (Regex.lit "p ") (digits 1).

(** [+g || 0] for a captured run of digits or [undefined]; also [+g] for
    the groups of a pattern that matched, which are never [undefined]. *)
Definition numOrZero (g : option string) : N :=
  match g with
  | Some d => JS.Number_of_digits d
  | None => 0%N
  end.

Definition parseExtras (text : string) : Extras.t :=
  let b := Regex.group 1 (Regex.match_ false re_b text) in
  let lb := Regex.group 1 (Regex.match_ false re_lb text) in
  let w := Regex.group 1 (Regex.match_ false re_w text) in
  let nb := Regex.group 1 (Regex.match_ false re_nb text) in
  let p := Regex.group 1 (Regex.match_ false re_p text) in
  Extras.Make (numOrZero b) (numOrZero lb) (numOrZero w) (numOrZero nb)
    (numOrZero p).

(** [/(\d+)[-/](\d+)/] *)
Definition re_score : Regex.t :=
  Regex.Seq (digits 1)
 (Regex.Seq (Regex.Class (λ c, Ascii.eqb c "-" || Ascii.eqb c "/"))
            (digits 2)).

(** [/\(([0-9.]+)\s+Ov/i] *)
Definition re_overs : Regex.t :=
  Regex.Seq (Regex.Chr "(")
 (Regex.Seq (Regex.Group 1
               (Regex.Plus (Regex.Class (λ c, JS.isDigit c || Ascii.eqb c "."))))
 (Regex.Seq (Regex.Plus (Regex.Class JS.isSpace))
            (Regex.lit "Ov"))).

Definition parseTotal (text : string) : option Total.t :=
  let scoreM := Regex.match_ false re_score text in
  let oversM := Regex.match_ true re_overs text in
  match scoreM with
  | None => None
  | Some _ =>
      Some (Total.Make
              (numOrZero (Regex.group 1 scoreM))
              (numOrZero (Regex.group 2 scoreM))
              (Regex.group 1 oversM))
  end.

(** *** Parse match info from the scorecard page *)

Module Info.
(** The object returned by [parseMatchInfoHtml].  [header] stands for the
    fields read from the innings headers and the SportsEvent schema
    ([teams], [teamInfo], [score], [matchType], [seriesName], [date],
    [dateTimeGMT]). *)
Record t (H : Type) : Type := Make {
  header : H;
  venue : string;
  status : string;
  tossWinner : string;
  tossChoice : string;
  umpires : string;
  matchReferee : string
}.
Arguments Make {H}.
Arguments header {H}.
Arguments venue {H}.
Arguments status {H}.
Arguments tossWinner {H}.
Arguments tossChoice {H}.
Arguments umpires {H}.
Arguments matchReferee {H}.
End Info.

(** [/^(.+?)\s+won the toss/i] *)
Definition re_tossWinner : Regex.t :=
  Regex.Seq Regex.Bol
 (Regex.Seq (Regex.Group 1
               (Regex.PlusLazy
                  (Regex.Class (λ c, negb (JS.isLineTerminator c)))))
 (Regex.Seq (Regex.Plus (Regex.Class JS.isSpace))
            (Regex.lit "won the toss"))).

(** [/opt to (\w+)/i] *)
Definition re_tossChoice : Regex.t :=
  Regex.Seq (Regex.lit "opt to ")
            (Regex.Group 1 (Regex.Plus (Regex.Class JS.isWord))).

(** The body of the [each] callback that fills [facts]. *)
Definition addFact (facts : gmap string string) (row : string * string)
    : gmap string string :=
  let '(label, value) := row in
  if JS.truthy label && JS.truthy value && negb (String.eqb label value)
  then <[label := value]> facts
  else facts.

Section Pages.

(** What the HTML library selects in a document, which is all the scraper
    sees of it: for each element of class [facts-row-grid], in document
    order, the trimmed text of its first bold descendant and of its last
    child. *)
Variable factsRows : string → list (string * string).

(** The header fields of the match-info object (see [Info.t]). *)
Variable Header : Type.
Variable parseHeader : string → Header.

Definition parseMatchInfoHtml (html : string) : Info.t Header :=
  let facts := foldl addFact ∅ (factsRows html) in
  let tossText := JS.or_empty (facts !! "Toss") in
  let tossWinnerM := Regex.match_ true re_tossWinner tossText in
  let tossChoiceM := Regex.match_ true re_tossChoice tossText in
  Info.Make
    (parseHeader html)
    (JS.or_empty (facts !! "Venue"))
    tossText
    (match tossWinnerM with
     | Some _ => JS.or_empty (Regex.group 1 tossWinnerM)
     | None => EmptyString
     end)
    (match tossChoiceM with
     | Some _ => JS.toLowerCase (JS.or_empty (Regex.group 1 tossChoiceM))
     | None => EmptyString
     end)
    (JS.join ", " (filterBoolean [facts !! "Umpires"; facts !! "3rd Umpire"]))
    (JS.or_empty (facts !! "Referee")).

(** The innings list built by [parseScorecardHtml]. *)
Variable Scorecard : Type.
Variable parseScorecardHtml : string → Scorecard.

(** *** Public API: the detail pages *)

(** [getScorecard(id)]; the result is the [scorecard] of [{ data: { scorecard } }]. *)
Definition getScorecard (id : string) : io Scorecard :=
  let parts := JS.split "~" id in
  let matchId := parts !! 0%nat in
  let slug := parts !! 1%nat in
  if negb (JS.truthy_opt matchId) then throw ("Invalid match id: " +:+ id)
  else
    let path :=
      if JS.truthy_opt slug
      then "/live-cricket-scorecard/" +:+ JS.or_empty matchId
           +:+ "/" +:+ JS.or_empty slug
      else "/live-cricket-scorecard/" +:+ JS.or_empty matchId in
    await html := fetchPage path in
    ret (parseScorecardHtml html).

(** [getMatchInfo(id)]; the result is the [{ id, ...info }] of [data]. *)
Definition getMatchInfo (id : string) : io (string * Info.t Header) :=
  let parts := JS.split "~" id in
  let matchId := parts !! 0%nat in
  let slug := parts !! 1%nat in
  if negb (JS.truthy_opt matchId) then throw ("Invalid match id: " +:+ id)
  else
    let path :=
      if JS.truthy_opt slug
      then "/live-cricket-scorecard/" +:+ JS.or_empty matchId
           +:+ "/" +:+ JS.or_empty slug
      else "/live-cricket-scorecard/" +:+ JS.or_empty matchId in
    await html := fetchPage path in
    ret (id, parseMatchInfoHtml html).

End Pages.

End Scraper.

(** ** The refresh strategies

    Both variants of [poller.js] are written against the API object they
    [require] ([getCurrentMatches] and [getMatches]) and the TTLs read
    from the environment.  A refresh is run against the state of the
    external site at that moment; it yields the new state of the module
    and of the cache, and the outcome with which its promise settles. *)

Record snapshot : Type := Snapshot {
  pollCount : N;                  (* [pollCount], or [fetchCount] *)
  lastSuccess : option Z;         (* a [Date], as its time value *)
  lastError : option string
}.

Record world : Type := World {
  poller : snapshot;
  cache : Cache.t MatchList
}.

Definition initial : world := World (Snapshot 0 None None) Cache.empty.

(** *** poller.js, scheduled variant *)

Module Poller.
Section WithApi.

Variable getCurrentMatches : Scraper.io MatchList.
Variable getMatches : Scraper.io MatchList.
Variable LIVE_TTL : Z.
Variable UPCOMING_TTL : Z.
Variable POLL_SECS : Z.

(** [now_e] and [now_c] are the clock readings of [cache.set], [now_s] the
    one of [new Date()]; they are read on the success path only. *)
Definition pollCurrentMatches (up : Scraper.upstream) (now_e now_c now_s : Z)
    (w : world) : world * result unit :=
  let st := poller w in
  let pollCount' := (pollCount st + 1)%N in
  match (getCurrentMatches up).2 with
  | Ok data =>
      (World (Snapshot pollCount' (Some now_s) (lastError st))
             (Cache.set now_e now_c "currentMatches" data LIVE_TTL (cache w)),
       Ok tt)
  | Err message =>
      (World (Snapshot pollCount' (lastSuccess st) (Some message)) (cache w),
       Ok tt)
  end.

Definition pollUpcomingMatches (up : Scraper.upstream) (now_e now_c : Z)
    (w : world) : world * result unit :=
  match (getMatches up).2 with
  | Ok data =>
      (World (poller w)
             (Cache.set now_e now_c "upcomingMatches" data UPCOMING_TTL (cache w)),
       Ok tt)
  | Err message => (w, Ok tt)
  end.

(** The period of the live poll, in seconds: [Math.max(POLL_SECS, 10)]. *)
Definition livePeriod : Z := Z.max POLL_SECS 10.

(** One firing of a scheduled task, or of the start-up refresh. *)
Inductive tick : Type :=
| Live (up : Scraper.upstream) (now_e now_c now_s : Z)
| Upcoming (up : Scraper.upstream) (now_e now_c : Z).

Definition fire (w : world) (t : tick) : world :=
  match t with
  | Live up now_e now_c now_s => (pollCurrentMatches up now_e now_c now_s w).1
  | Upcoming up now_e now_c => (pollUpcomingMatches up now_e now_c w).1
  end.

(** The refreshes of a run of the process, in the order in which they
    complete. *)
Definition run (ticks : list tick) (w : world) : world := foldl fire w ticks.

(** [start()]: one refresh of each key at once; the scheduled tasks fire
    from then on. *)
Definition start (up : Scraper.upstream) (now_e now_c now_s now_e' now_c' : Z)
    (w : world) : world :=
  run [Live up now_e now_c now_s; Upcoming up now_e' now_c'] w.

Definition status (w : world) : snapshot := poller w.

End WithApi.
End Poller.

(** *** poller.js, on-demand variant *)

Module OnDemand.
Section WithApi.

Variable getCurrentMatches : Scraper.io MatchList.
Variable getMatches : Scraper.io MatchList.
Variable LIVE_TTL : Z.
Variable UPCOMING_TTL : Z.

Definition fetchCurrentMatches (up : Scraper.upstream) (now_e now_c now_s : Z)
    (w : world) : world * result unit :=
  let st := poller w in
  let fetchCount := (pollCount st + 1)%N in
  match (getCurrentMatches up).2 with
  | Ok data =>
      (World (Snapshot fetchCount (Some now_s) (lastError st))
             (Cache.set now_e now_c "currentMatches" data LIVE_TTL (cache w)),
       Ok tt)
  | Err message =>
      (World (Snapshot fetchCount (lastSuccess st) (Some message)) (cache w),
       Err message)
  end.

Definition fetchUpcomingMatches (up : Scraper.upstream) (now_e now_c : Z)
    (w : world) : world * result unit :=
  match (getMatches up).2 with
  | Ok data =>
      (World (poller w)
             (Cache.set now_e now_c "upcomingMatches" data UPCOMING_TTL (cache w)),
       Ok tt)
  | Err message => (w, Err message)
  end.

(** [promise.catch(() => {})] *)
Definition catch (p : world * result unit) : world * result unit :=
  (p.1, Ok tt).

(** [start()]: the state once both warm-up fetches have settled, and the
    outcomes of the two promises it leaves behind. *)
Definition start (up : Scraper.upstream) (now_e now_c now_s now_e' now_c' : Z)
    (w : world) : world * list (result unit) :=
  let '(w1, r1) := catch (fetchCurrentMatches up now_e now_c now_s w) in
  let '(w2, r2) := catch (fetchUpcomingMatches up now_e' now_c' w1) in
  (w2, [r1; r2]).

Definition status (w : world) : snapshot := poller w.

End WithApi.
End OnDemand.

(** ** routes.js: the combined match list *)

Module Routes.

(** The [Merge & deduplicate by id] loop over
    [[...currentData, ...upcomingData]]. *)
Definition mergeStep (acc : gset string * list Match.t) (m : Match.t)
    : gset string * list Match.t :=
  let '(seen, merged) := acc in
  if bool_decide (Match.id m ∈ seen) then acc
  else ({[Match.id m]} ∪ seen, merged ++ [m]).

Definition merge (currentData upcomingData : list Match.t) : list Match.t :=
  (foldl mergeStep (∅, []) (currentData ++ upcomingData)).2.

Inductive reply : Type :=
| Unavailable (message : string)                      (* status 503 *)
| SendCached (data : list Match.t) (age : option Z).  (* [sendCached] *)

(** [current?.value?.data || []] *)
Definition dataOf (e : option (Cache.entry MatchList)) : list Match.t :=
  match e with
  | Some entry => data (Cache.value entry)
  | None => []
  end.

(** [router.get('/matches', ...)]; [now1], [now2] and [now3] are the clock
    readings of the two [cache.get] and of [cache.age]. *)
Definition getMatches (now1 now2 now3 : Z) (store : Cache.t MatchList)
    : Cache.t MatchList * reply :=
  let '(store1, current) := Cache.get now1 "currentMatches" store in
  let '(store2, upcoming) := Cache.get now2 "upcomingMatches" store1 in
  match current, upcoming with
  | None, None =>
      (store2,
       Unavailable "Match data not yet available — server is warming up, try again in a few seconds.")
  | _, _ =>
      let merged := merge (dataOf current) (dataOf upcoming) in
      let age := match current with
                 | Some _ => Cache.age now3 "currentMatches" store2
                 | None => None
                 end in
      (store2, SendCached merged age)
  end.

End Routes.

(** ** routes.js: the other handlers *)

Module Handlers.

(** What [sendCached(res, key, data, age)] sends: the [data] of the body
    and the headers [X-Cache-Age] ([age ?? 0]) and [X-Cache-Hit]
    ([age !== null]). *)
Record sent (A : Type) : Type := Sent {
  body : A;
  xCacheAge : Z;
  xCacheHit : bool
}.
Arguments Sent {A} body xCacheAge xCacheHit.
Arguments body {A}.
Arguments xCacheAge {A}.
Arguments xCacheHit {A}.

Definition sendCached {A} (data : A) (age : option Z) : sent A :=
  Sent data (default 0 age) (match age with Some _ => true | None => false end).

Inductive reply (A : Type) : Type :=
| Success (s : sent A)
| Failure (code : N) (message : string).   (* [res.status(code).json(...)] *)
Arguments Success {A} s.
Arguments Failure {A} code message.

(** [router.get('/matches/live', ...)]; [now1] and [now2] are the clock
    readings of [cache.get] and [cache.age]. *)
Definition isLive (m : Match.t) : bool :=
  Match.matchStarted m && negb (Match.matchEnded m).

Definition matchesLive (now1 now2 : Z) (store : Cache.t MatchList)
    : Cache.t MatchList * reply (list Match.t) :=
  let '(store1, current) := Cache.get now1 "currentMatches" store in
  match current with
  | None => (store1, Failure 503 "Not ready yet")
  | Some entry =>
      let live := List.filter isLive (data (Cache.value entry)) in
      (store1, Success (sendCached live (Cache.age now2 "currentMatches" store1)))
  end.

(** The object sent by the score handler. *)
Record score_view : Type := ScoreView {
  score : list InningsScore.t;
  status : string;
  matchStarted : bool;
  matchEnded : bool
}.

(** [router.get('/match/:id/score', ...)]; [now1], [now2] and [now3] are
    the clock readings of the two [cache.get] and of [cache.age]. *)
Definition matchScore (id : string) (now1 now2 now3 : Z)
    (store : Cache.t MatchList) : Cache.t MatchList * reply score_view :=
  let '(store1, current) := Cache.get now1 "currentMatches" store in
  let '(store2, upcoming) := Cache.get now2 "upcomingMatches" store1 in
  let all := Routes.dataOf current ++ Routes.dataOf upcoming in
  match List.find (λ m, String.eqb (Match.id m) id) all with
  | None => (store2, Failure 404 "Match not found in cache")
  | Some m =>
      (store2,
       Success (sendCached
                  (ScoreView (Match.score m) (Match.status m)
                     (Match.matchStarted m) (Match.matchEnded m))
                  (Cache.age now3 "currentMatches" store2)))
  end.

(** The two detail handlers.  The cache holds values of any kind [V];
    [ofScorecard] and [ofInfo] stand for the [data.data] that is stored and
    sent.  A handler that finds nothing in the cache awaits the download:
    [meanwhile] is what the other tasks do to the store during that time.
    [now1] and [now2] are the clock readings of [cache.get] and
    [cache.age], [now_e] and [now_c] those of [cache.set].  The result is
    the store, the paths requested from the site and the reply. *)
Section Detail.
Context {V S I : Type}.
Variable ofScorecard : S → V.
Variable ofInfo : I → V.
Variable getScorecard : string → Scraper.io S.
Variable getMatchInfo : string → Scraper.io I.
Variable SCORECARD_TTL : Z.
Variable MATCH_INFO_TTL : Z.

(** [router.get('/match/:id/scorecard', ...)] *)
Definition matchScorecard (id : string) (up : Scraper.upstream)
    (now1 now2 now_e now_c : Z) (meanwhile : Cache.t V → Cache.t V)
    (store : Cache.t V) : Cache.t V * list string * reply V :=
  let cacheKey := "scorecard:" +:+ id in
  let '(store1, cached) := Cache.get now1 cacheKey store in
  match cached with
  | Some entry =>
      (store1, [],
       Success (sendCached (Cache.value entry) (Cache.age now2 cacheKey store1)))
  | None =>
      match getScorecard id up with
      | (log, Ok data) =>
          (Cache.set now_e now_c cacheKey (ofScorecard data) SCORECARD_TTL
             (meanwhile store1),
           log, Success (sendCached (ofScorecard data) (Some 0)))
      | (log, Err message) => (meanwhile store1, log, Failure 500 message)
      end
  end.

(** [router.get('/match/:id/info', ...)] *)
Definition matchInfo (id : string) (up : Scraper.upstream)
    (now1 now2 now_e now_c : Z) (meanwhile : Cache.t V → Cache.t V)
    (store : Cache.t V) : Cache.t V * list string * reply V :=
  let cacheKey := "matchinfo:" +:+ id in
  let '(store1, cached) := Cache.get now1 cacheKey store in
  match cached with
  | Some entry =>
      (store1, [],
       Success (sendCached (Cache.value entry) (Cache.age now2 cacheKey store1)))
  | None =>
      match getMatchInfo id up with
      | (log, Ok data) =>
          (Cache.set now_e now_c cacheKey (ofInfo data) MATCH_INFO_TTL
             (meanwhile store1),
           log, Success (sendCached (ofInfo data) (Some 0)))
      | (log, Err message) => (meanwhile store1, log, Failure 500 message)
      end
  end.

End Detail.

End Handlers.

(** ** Vocabulary of the properties *)

(** What a refresh that fails must leave behind: the cache as it was, so
    that every entry that has not expired is still returned by [get]. *)
Definition cache_untouched (w w' : world) : Prop :=
  cache w' = cache w
  ∧ ∀ now key e, cache w !! key = Some e → now ≤ Cache.expiresAt e →
      (Cache.get now key (cache w')).2 = Some e.

Definition failure_recorded (message : string) (w w' : world) : Prop :=
  lastError (poller w') = Some message
  ∧ lastSuccess (poller w') = lastSuccess (poller w).

(** The first record of a list that carries a given id. *)
Definition first_with (x : string) (l : list Match.t) : option Match.t :=
  List.find (λ m, bool_decide (Match.id m = x)) l.

(** A record of which only the id matters. *)
Definition only_id (x : string) : Match.t :=
  Match.Make x EmptyString EmptyString EmptyString EmptyString false false
    [] [] [].

(** A sample entry of the embedded match list. *)
Definition sampleInfo : Scraper.MatchInfo :=
  {| Scraper.matchId := 12345;
     Scraper.state := Scraper.Text "In Progress";
     Scraper.seriesName := Some "India tour of Australia";
     Scraper.matchDesc := Some "1st ODI";
     Scraper.matchFormat := Some "ODI";
     Scraper.status := Some "Day 1";
     Scraper.startDate := None;
     Scraper.team1 := None;
     Scraper.team2 := None;
     Scraper.info_team1Score := None;
     Scraper.info_team2Score := None |}.

(** Brace counting: an opening brace weighs 1, a closing brace -1, and
    every other character nothing, quoted or not. *)
Definition brace_weight (c : ascii) : Z :=
  if Ascii.eqb c Scraper.lbrace then 1
  else if Ascii.eqb c Scraper.rbrace then -1
  else 0.

Definition balance (l : list ascii) : Z :=
  foldr (λ c n, brace_weight c + n) 0 l.

Definition no_braces (s : string) : Prop :=
  Forall (λ c, brace_weight c = 0) (list_ascii_of_string s).

(** Every non-empty prefix of [s] leaves a brace open: [s] is empty, or
    starts with an opening brace that nothing in [s] closes. *)
Definition inside (s : string) : Prop :=
  ∀ k, (0 < k ≤ String.length s)%nat →
       0 < balance (take k (list_ascii_of_string s)).

(** [obj] runs from an opening brace to the closing brace that brings the
    count back to zero for the first time. *)
Definition balanced_object (obj : string) : Prop :=
  ∃ inner, obj = inner +:+ "}" ∧ inner ≠ EmptyString ∧ inside inner
           ∧ balance (list_ascii_of_string inner) = 1.

(** An object with a closing brace in a quoted string: the text
    [{Qa}Q:1}], with [Q] the double quote. *)
Definition quoted_brace : string :=
  "{" +:+ String Scraper.dquote ("a}" +:+ String Scraper.dquote ":1}").

(** Two texts that differ by the case of their letters at most. *)
Definition same_ignoring_case (a b : string) : Prop :=
  Forall2 (λ x y, JS.canonicalize x = JS.canonicalize y)
          (list_ascii_of_string a) (list_ascii_of_string b).

(** A text all of whose characters are in a class. *)
Definition all_chars (p : ascii → bool) (s : string) : Prop :=
  Forall (λ c, p c = true) (list_ascii_of_string s).

(** A document whose facts table holds one row, the toss sentence. *)
Definition tossRow (sentence : string) : string → list (string * string) :=
  λ _, [("Toss", sentence)].

(** ** routes.js, on-demand variant: the combined match list *)

Module OnDemandRoutes.
Section WithApi.

Variable getCurrentMatches : Scraper.io MatchList.
Variable getMatches : Scraper.io MatchList.
Variable LIVE_TTL : Z.
Variable UPCOMING_TTL : Z.

(** The clock readings of one request, in the order of the source: the
    two [cache.get] at the start; [cache.set] (two readings) and
    [new Date()] of the fetch of the current matches; [cache.set] of the
    fetch of the upcoming matches; the two [cache.get] after the fetches;
    [cache.age]. *)
Record readings : Type := Readings {
  get1 : Z; get2 : Z;
  set_e : Z; set_c : Z; date_s : Z;
  set_e' : Z; set_c' : Z;
  get3 : Z; get4 : Z;
  age5 : Z
}.

(** [router.get('/matches', ...)].  The two fetches are started together
    and awaited with [Promise.all]; they write different keys and only the
    first one writes the status, so they are taken in the order in which
    they are pushed. *)
Definition matches (up : Scraper.upstream) (t : readings) (w : world)
    : world * Routes.reply :=
  let '(store1, current) := Cache.get (get1 t) "currentMatches" (cache w) in
  let '(store2, upcoming) := Cache.get (get2 t) "upcomingMatches" store1 in
  let w0 := World (poller w) store2 in
  let w1 :=
    match current with
    | None =>
        (OnDemand.catch
           (OnDemand.fetchCurrentMatches getCurrentMatches LIVE_TTL up
              (set_e t) (set_c t) (date_s t) w0)).1
    | Some _ => w0
    end in
  let w2 :=
    match upcoming with
    | None =>
        (OnDemand.catch
           (OnDemand.fetchUpcomingMatches getMatches UPCOMING_TTL up
              (set_e' t) (set_c' t) w1)).1
    | Some _ => w1
    end in
  let '(store4, current', upcoming') :=
    match current, upcoming with
    | Some _, Some _ => (cache w2, current, upcoming)
    | _, _ =>
        let '(store3, c) := Cache.get (get3 t) "currentMatches" (cache w2) in
        let '(store4, u) := Cache.get (get4 t) "upcomingMatches" store3 in
        (store4, c, u)
    end in
  let w3 := World (poller w2) store4 in
  match current', upcoming' with
  | None, None =>
      (w3,
       Routes.Unavailable "Match data unavailable — the data source may be temporarily down.")
  | _, _ =>
      let merged := Routes.merge (Routes.dataOf current') (Routes.dataOf upcoming') in
      let age := match current' with
                 | Some _ => Cache.age (age5 t) "currentMatches" store4
                 | None => None
                 end in
      (w3, Routes.SendCached merged age)
  end.

End WithApi.
End OnDemandRoutes.

(** A row of the facts table that the scraper records: label and value
    are not blank and differ. *)
Definition valid_row (row : string * string) : bool :=
  JS.truthy row.1 && JS.truthy row.2 && negb (String.eqb row.1 row.2).

(** The value of the last recorded row with the given label. *)
Definition last_fact (label : string) (rows : list (string * string))
    : option string :=
  snd <$> List.find (λ row, String.eqb row.1 label && valid_row row)
                    (rev rows).

(** [pat] occurs in [s]. *)
Definition occurs (pat s : string) : Prop :=
  ∃ pre post, s = pre +:+ pat +:+ post.

(** The text of a link to the live-scores page of a match:
    [href=Q/live-cricket-scores/<id>/<slug>Q], with [Q] the double quote. *)
Definition link_text (id slug : string) : string :=
  "href=" +:+ String Scraper.dquote
    ("/live-cricket-scores/" +:+ id +:+ "/" +:+ slug
     +:+ String Scraper.dquote EmptyString).

(** [s] begins with a character of the class [p]. *)
Definition begins_with (p : ascii → bool) (s : string) : bool :=
  match s with
  | String c _ => p c
  | EmptyString => false
  end.

(** [lab] reads as [label]: it is [label] itself or, when the letter case
    is ignored, [label] up to the case of its letters. *)
Definition reads_as (ignoreCase : bool) (label lab : string) : Prop :=
  if ignoreCase then same_ignoring_case label lab else lab = label.

(** Right after [pre], the text holds [label] followed by a character of
    the class [p]. *)
Definition label_after (ignoreCase : bool) (label : string)
    (p : ascii → bool) (text pre : string) : Prop :=
  ∃ lab post,
    text = pre +:+ lab +:+ post ∧ reads_as ignoreCase label lab
    ∧ begins_with p post = true.

(** [run] is the whole run of characters of the class [p] that follows
    [label] at the first place where the text holds [label] followed by
    such a character. *)
Definition first_run_after (ignoreCase : bool) (label : string)
    (p : ascii → bool) (text run : string) : Prop :=
  ∃ pre lab post,
    text = pre +:+ lab +:+ run +:+ post ∧ reads_as ignoreCase label lab
    ∧ run ≠ EmptyString ∧ all_chars p run ∧ begins_with p post = false
    ∧ ∀ pre', label_after ignoreCase label p text pre' →
              (String.length pre ≤ String.length pre')%nat.

(** The text starts with [winner], white space and [won the toss], in
    any letter case. *)
Definition names_winner (text winner : string) : Prop :=
  ∃ blank won post,
    text = winner +:+ blank +:+ won +:+ post
    ∧ winner ≠ EmptyString
    ∧ all_chars (λ c, negb (JS.isLineTerminator c)) winner
    ∧ blank ≠ EmptyString ∧ all_chars JS.isSpace blank
    ∧ same_ignoring_case "won the toss" won.

(** The shortest such start of the text. *)
Definition shortest_winner (text winner : string) : Prop :=
  names_winner text winner
  ∧ ∀ winner', names_winner text winner' →
               (String.length winner ≤ String.length winner')%nat.

(** Right after [pre], the text holds the digits [runs], a dash or a
    slash, and the digits [wickets]. *)
Definition score_after (text pre runs wickets : string) : Prop :=
  ∃ sep post,
    text = pre +:+ runs +:+ String sep wickets +:+ post
    ∧ (sep = "-"%char ∨ sep = "/"%char)
    ∧ runs ≠ EmptyString ∧ all_chars JS.isDigit runs
    ∧ wickets ≠ EmptyString ∧ all_chars JS.isDigit wickets.

(** The first such place of the text, with the whole run of digits behind
    the separator. *)
Definition first_score (text runs wickets : string) : Prop :=
  ∃ pre sep post,
    text = pre +:+ runs +:+ String sep wickets +:+ post
    ∧ (sep = "-"%char ∨ sep = "/"%char)
    ∧ runs ≠ EmptyString ∧ all_chars JS.isDigit runs
    ∧ wickets ≠ EmptyString ∧ all_chars JS.isDigit wickets
    ∧ begins_with JS.isDigit post = false
    ∧ ∀ pre' runs' wickets', score_after text pre' runs' wickets' →
                             (String.length pre ≤ String.length pre')%nat.

(** Right after [pre], the text holds an opening parenthesis, the digits
    and dots [overs], white space and [Ov], in any letter case. *)
Definition overs_after (text pre overs : string) : Prop :=
  ∃ blank ov post,
    text = pre +:+ "(" +:+ overs +:+ blank +:+ ov +:+ post
    ∧ overs ≠ EmptyString
    ∧ all_chars (λ c, JS.isDigit c || Ascii.eqb c ".") overs
    ∧ blank ≠ EmptyString ∧ all_chars JS.isSpace blank
    ∧ same_ignoring_case "Ov" ov.

(** The first such place of the text. *)
Definition first_overs (text overs : string) : Prop :=
  ∃ pre,
    overs_after text pre overs
    ∧ ∀ pre' overs', overs_after text pre' overs' →
                     (String.length pre ≤ String.length pre')%nat.

(** The numbers that a double holds exactly: the code reads a run of
    digits as a double. *)
Definition exact_number (n : N) : Prop := (n < 2 ^ 53)%N.

(* ===================================================================== *)
(** * Properties *)
(* ===================================================================== *)

(** ** The cache store *)

Section CacheFacts.
Context {V : Type}.
Implicit Types (store : Cache.t V) (key : string) (v : V).

Lemma get_miss now key store :
  store !! key = None → Cache.get now key store = (store, None).
Proof. intros H. unfold Cache.get. by rewrite H. Qed.

Lemma get_fresh now key store e :
  store !! key = Some e → now ≤ Cache.expiresAt e →
  Cache.get now key store = (store, Some e).
Proof.
  intros H Hle. unfold Cache.get. rewrite H.
  destruct (Z.gtb_spec now (Cache.expiresAt e)); [lia | done].
Qed.

Lemma get_expired now key store e :
  store !! key = Some e → Cache.expiresAt e < now →
  Cache.get now key store = (base.delete key store, None).
Proof.
  intros H Hlt. unfold Cache.get. rewrite H.
  destruct (Z.gtb_spec now (Cache.expiresAt e)); [done | lia].
Qed.

Lemma lookup_set now_e now_c key v ttl store :
  Cache.set now_e now_c key v ttl store !! key =
  Some (Cache.Entry v (now_e + ttl * 1000) now_c).
Proof. unfold Cache.set. apply lookup_insert_eq. Qed.

Lemma lookup_set_ne now_e now_c key key' v ttl store :
  key ≠ key' →
  Cache.set now_e now_c key v ttl store !! key' = store !! key'.
Proof. intros. unfold Cache.set. by apply lookup_insert_ne. Qed.

(** C1. For [ttl > 0], a [get] made no later than [ttl] seconds after
    [set(k, v, ttl)] (in particular at the very instant of the [set])
    returns the entry holding [v] and leaves the store alone; a [get]
    made once more than [ttl] seconds have elapsed returns [null] and
    evicts the entry; a [get] of a key that is not in the store returns
    [null]; and every [null] is one of these two misses, [get] having no
    failing outcome. *)
Theorem C1_set_get_ttl key v ttl now_e now_c store :
  0 < ttl →
  let store1 := Cache.set now_e now_c key v ttl store in
  (∀ now, now ≤ now_e + ttl * 1000 →
     Cache.get now key store1 =
     (store1, Some (Cache.Entry v (now_e + ttl * 1000) now_c)))
  ∧ (Cache.value <$> (Cache.get now_e key store1).2 = Some v)
  ∧ (∀ now, now_e + ttl * 1000 < now →
     (Cache.get now key store1).2 = None
     ∧ (Cache.get now key store1).1 !! key = None
     ∧ (Cache.get now key store1).1 = base.delete key store1)
  ∧ (∀ now key' store', store' !! key' = None →
     Cache.get now key' store' = (store', None))
  ∧ (∀ now key' store', (Cache.get now key' store').2 = None →
     store' !! key' = None
     ∨ ∃ e, store' !! key' = Some e ∧ Cache.expiresAt e < now
            ∧ (Cache.get now key' store').1 !! key' = None).
Proof.
  intros Httl store1.
  assert (Hl : store1 !! key = Some (Cache.Entry v (now_e + ttl * 1000) now_c))
    by apply lookup_set.
  split; [| split; [| split; [| split]]].
  - intros now Hnow. by apply (get_fresh now key store1 _ Hl).
  - rewrite (get_fresh now_e key store1 _ Hl); [done | simpl; lia].
  - intros now Hnow.
    rewrite (get_expired now key store1 _ Hl) by (simpl; lia).
    simpl. split; [done |]. split; [apply lookup_delete_eq | done].
  - intros now key' store' H. by apply get_miss.
  - intros now key' store'. unfold Cache.get.
    destruct (store' !! key') as [e|] eqn:He; [| by left].
    destruct (Z.gtb_spec now (Cache.expiresAt e)); [| done].
    intros _. right. exists e. split; [done |]. split; [lia |].
    simpl. apply lookup_delete_eq.
Qed.

End CacheFacts.

Lemma C1_set_get_ttl_witness :
  let store1 := Cache.set 1000 1000 "currentMatches" 7%nat 30 Cache.empty in
  Cache.get 1000 "currentMatches" store1
    = (store1, Some (Cache.Entry 7%nat 31000 1000))
  ∧ Cache.get 31000 "currentMatches" store1
    = (store1, Some (Cache.Entry 7%nat 31000 1000))
  ∧ (Cache.get 31001 "currentMatches" store1).2 = None
  ∧ (Cache.get 31001 "currentMatches" store1).1 !! "currentMatches" = None.
Proof.
  pose proof (C1_set_get_ttl "currentMatches" 7%nat 30 1000 1000 Cache.empty
                ltac:(lia)) as (Hfresh & _ & Hexp & _).
  split; [apply Hfresh; lia |].
  split; [apply Hfresh; lia |].
  destruct (Hexp 31001 ltac:(lia)) as (H1 & H2 & _).
  split; [exact H1 | exact H2].
Defined.




Section AgeFacts.
Context {V : Type}.
Implicit Types (store : Cache.t V) (key : string) (e : Cache.entry V).

Lemma age_resident now key store e :
  store !! key = Some e →
  Cache.age now key store = Some ((now - Cache.cachedAt e) / 1000).
Proof. intros H. unfold Cache.age. by rewrite H. Qed.

Lemma age_absent now key store :
  store !! key = None → Cache.age now key store = None.
Proof. intros H. unfold Cache.age. by rewrite H. Qed.

(** C8 (as amended). [age(k)] is the whole number of seconds
    [now - cachedAt] for every resident entry, expired or not, and absent
    for a key that is not in the store; it is absent for an expired entry
    only from the moment a [get(k)] made after the expiry has evicted it. *)
Theorem C8_age_resident_or_evicted now key store :
  (∀ e, store !! key = Some e →
     Cache.age now key store = Some ((now - Cache.cachedAt e) / 1000))
  ∧ (store !! key = None → Cache.age now key store = None)
  ∧ (∀ e t, store !! key = Some e → Cache.expiresAt e < t →
       (Cache.get t key store).2 = None
       ∧ Cache.age now key (Cache.get t key store).1 = None).
Proof.
  split; [| split].
  - intros e H. by apply age_resident.
  - apply age_absent.
  - intros e t H Ht. rewrite (get_expired t key store e H Ht). simpl.
    split; [done |]. apply age_absent, lookup_delete_eq.
Qed.

End AgeFacts.

Lemma C8_age_resident_or_evicted_witness :
  let store := Cache.set 0 0 "scorecard:1" 7%nat 1 Cache.empty in
  Cache.age 5000 "scorecard:1" store = Some 5
  ∧ Cache.age 5000 "matchinfo:1" store = None
  ∧ (Cache.get 1001 "scorecard:1" store).2 = None
  ∧ Cache.age 5000 "scorecard:1" (Cache.get 1001 "scorecard:1" store).1 = None.
Proof.
  intros store.
  assert (Hl : store !! "scorecard:1" = Some (Cache.Entry 7%nat 1000 0))
    by apply lookup_set.
  assert (Hn : store !! "matchinfo:1" = None)
    by (unfold store; rewrite lookup_set_ne; done).
  destruct (C8_age_resident_or_evicted 5000 "scorecard:1" store)
    as (Hres & _ & Hev).
  destruct (C8_age_resident_or_evicted 5000 "matchinfo:1" store)
    as (_ & Habs & _).
  split; [exact (Hres _ Hl) |].
  split; [exact (Habs Hn) |].
  exact (Hev _ 1001 Hl ltac:(simpl; lia)).
Defined.

(** C8, as stated, fails: an entry that has expired but has not been read
    since still reports its age. *)
Lemma C8_age_ignores_expiry :
  ¬ (∀ (now : Z) (key : string) (store : Cache.t nat) (e : Cache.entry nat),
       store !! key = Some e → now > Cache.expiresAt e →
       Cache.age now key store = None).
Proof.
  intros H.
  specialize (H 5000 "scorecard:1"
                (Cache.set 0 0 "scorecard:1" 7%nat 1 Cache.empty)
                (Cache.Entry 7%nat 1000 0) (lookup_set _ _ _ _ _ _)
                ltac:(simpl; lia)).
  rewrite (age_resident _ _ _ _ (lookup_set _ _ _ _ _ _)) in H.
  discriminate H.
Qed.

(** ** The refresh strategies *)

(** A download that fails (the transport rejects, or the status is not a
    success) makes both list operations of the scraper fail, whatever the
    parsers are. *)
Lemma fetchPage_failure path up :
  (∃ message, up path = Scraper.NetworkFailure message)
  ∨ (∃ status body, up path = Scraper.HttpResponse status body
                    ∧ Scraper.ok status = false) →
  is_err (Scraper.fetchPage path up).2 = true.
Proof.
  unfold Scraper.fetchPage. simpl.
  intros [[message ->] | (st & body & -> & Hok)]; [done |]. by rewrite Hok.
Qed.

Lemma scraper_lists_fail toISOString JSON_parse up :
  is_err (Scraper.fetchPage "/cricket-match/live-scores" up).2 = true →
  is_err (Scraper.getCurrentMatches toISOString JSON_parse up).2 = true
  ∧ is_err (Scraper.getMatches toISOString JSON_parse up).2 = true.
Proof.
  unfold Scraper.getCurrentMatches, Scraper.getMatches, Scraper.fetchMatchList,
    Scraper.bind.
  destruct (Scraper.fetchPage _ up) as [log [html | e]]; simpl; [done |].
  by intros _.
Qed.

Section RefreshFacts.

Variable getCurrentMatches : Scraper.io MatchList.
Variable getMatches : Scraper.io MatchList.
Variable LIVE_TTL : Z.
Variable UPCOMING_TTL : Z.

(** C2 (as amended). A refresh of [currentMatches] whose fetch fails
    leaves every cache entry as it was, records the failure message in the
    status snapshot and leaves the time of the last success alone, in both
    strategies; a refresh of [upcomingMatches] whose fetch fails leaves the
    cache and the whole snapshot as they were, the snapshot following the
    [currentMatches] refresh only.  No failure is fatal: the scheduled
    refreshes settle normally, and the rejection of an on-demand refresh
    is taken up by the [catch] of its caller. *)
Theorem C2_failed_refresh_keeps_cache up now_e now_c now_s w :
  (∀ message, (getCurrentMatches up).2 = Err message →
     let p := Poller.pollCurrentMatches getCurrentMatches LIVE_TTL
                up now_e now_c now_s w in
     let f := OnDemand.fetchCurrentMatches getCurrentMatches LIVE_TTL
                up now_e now_c now_s w in
     cache_untouched w p.1 ∧ failure_recorded message w p.1 ∧ p.2 = Ok tt
     ∧ cache_untouched w f.1 ∧ failure_recorded message w f.1
     ∧ f.2 = Err message ∧ (OnDemand.catch f).2 = Ok tt)
  ∧ (∀ message, (getMatches up).2 = Err message →
     Poller.pollUpcomingMatches getMatches UPCOMING_TTL up now_e now_c w
       = (w, Ok tt)
     ∧ OnDemand.fetchUpcomingMatches getMatches UPCOMING_TTL up now_e now_c w
       = (w, Err message)
     ∧ (OnDemand.catch
          (OnDemand.fetchUpcomingMatches getMatches UPCOMING_TTL
             up now_e now_c w)).2 = Ok tt).
Proof.
  split.
  - intros message Hfail.
    unfold Poller.pollCurrentMatches, OnDemand.fetchCurrentMatches.
    rewrite Hfail. simpl.
    unfold cache_untouched, failure_recorded. simpl.
    assert (∀ now key e, cache w !! key = Some e → now ≤ Cache.expiresAt e →
              (Cache.get now key (cache w)).2 = Some e) as Hread
      by (intros now key e He Hle; by rewrite (get_fresh now key _ e He Hle)).
    done.
  - intros message Hfail.
    unfold Poller.pollUpcomingMatches, OnDemand.fetchUpcomingMatches.
    rewrite Hfail. done.
Qed.

(** Over any number of scheduled refreshes that all fail, the cache and
    the time of the last success stay as they were. *)
Lemma run_all_failing (ticks : list Poller.tick) : ∀ w,
  Forall (λ t, match t with
               | Poller.Live up _ _ _ => is_err (getCurrentMatches up).2 = true
               | Poller.Upcoming up _ _ => is_err (getMatches up).2 = true
               end) ticks →
  let w' := Poller.run getCurrentMatches getMatches LIVE_TTL UPCOMING_TTL
              ticks w in
  cache w' = cache w ∧ lastSuccess (poller w') = lastSuccess (poller w).
Proof.
  induction ticks as [| t ticks IH]; intros w Hall; [done |].
  inversion Hall as [| ? ? Ht Hrest]; subst. simpl.
  destruct (IH (Poller.fire getCurrentMatches getMatches LIVE_TTL UPCOMING_TTL
                  w t) Hrest) as [Hc Hs].
  unfold Poller.run in *. rewrite Hc, Hs.
  destruct t as [up ne nc ns | up ne nc]; simpl;
    unfold Poller.pollCurrentMatches, Poller.pollUpcomingMatches;
    [destruct (getCurrentMatches up).2 | destruct (getMatches up).2]; done.
Qed.

End RefreshFacts.

Lemma C2_failed_refresh_keeps_cache_witness :
  let api := Scraper.getCurrentMatches (λ _, Ok EmptyString)
               (λ _, Err "unused") in
  let api' := Scraper.getMatches (λ _, Ok EmptyString) (λ _, Err "unused") in
  let up := λ _ : string, Scraper.NetworkFailure "network timeout" in
  let w := World (Snapshot 3 (Some 1000) None)
             (Cache.set 1000 1000 "currentMatches" {| data := [] |} 30
                Cache.empty) in
  let p := Poller.pollCurrentMatches api 30 up 40000 40000 40000 w in
  let f := OnDemand.fetchCurrentMatches api 30 up 40000 40000 40000 w in
  cache p.1 = cache w
  ∧ lastError (poller p.1) = Some "network timeout"
  ∧ lastSuccess (poller p.1) = Some 1000
  ∧ p.2 = Ok tt
  ∧ cache f.1 = cache w
  ∧ lastError (poller f.1) = Some "network timeout"
  ∧ (OnDemand.catch f).2 = Ok tt
  ∧ Poller.pollUpcomingMatches api' 300 up 40000 40000 w = (w, Ok tt).
Proof.
  intros api api' up w p f.
  destruct (C2_failed_refresh_keeps_cache api api' 30 300 up
              40000 40000 40000 w) as [Hcur Hup].
  destruct (Hcur "network timeout" eq_refl)
    as ((Hc & _) & (He & Hs) & Hok & (Hc' & _) & (He' & _) & _ & Hcatch).
  destruct (Hup "network timeout" eq_refl) as (Hu & _).
  exact (conj Hc (conj He (conj Hs (conj Hok (conj Hc' (conj He'
           (conj Hcatch Hu))))))).
Defined.

(** C2, as stated, fails for the refresh of [upcomingMatches]: its failure
    leaves no trace in the status snapshot. *)
Lemma C2_upcoming_failure_not_recorded :
  ¬ (∀ (getMatches : Scraper.io MatchList) (UPCOMING_TTL : Z)
       (up : Scraper.upstream) (now_e now_c : Z) (w : world) (message : string),
       (getMatches up).2 = Err message →
       lastError (poller (Poller.pollUpcomingMatches getMatches UPCOMING_TTL
                            up now_e now_c w).1) = Some message).
Proof.
  intros H.
  specialize (H (Scraper.throw "network timeout") 300
                (λ _, Scraper.NetworkFailure "network timeout") 0 0 initial
                "network timeout" eq_refl).
  discriminate H.
Qed.

(** ** The combined match list *)

Lemma first_with_app x l1 l2 :
  first_with x (l1 ++ l2) =
  match first_with x l1 with
  | Some m => Some m
  | None => first_with x l2
  end.
Proof.
  unfold first_with. induction l1 as [| m l1 IH]; simpl; [done |].
  by destruct (bool_decide (Match.id m = x)).
Qed.

Lemma first_with_Some_iff x l :
  is_Some (first_with x l) ↔ x ∈ Match.id <$> l.
Proof.
  unfold first_with. induction l as [| m l IH]; simpl.
  - split; [intros [? ?]; done | intros H; inversion H].
  - rewrite elem_of_cons. case_bool_decide as Hm.
    + split; [by left | by eauto].
    + rewrite IH. split; [by right | intros [-> | ?]; done].
Qed.

(** The invariant of the merge loop. *)
Lemma merge_loop_spec l : ∀ seen merged,
  (∀ x, x ∈ seen ↔ x ∈ Match.id <$> merged) →
  NoDup (Match.id <$> merged) →
  let r := foldl Routes.mergeStep (seen, merged) l in
  NoDup (Match.id <$> r.2)
  ∧ (∃ l', r.2 = merged ++ l' ∧ sublist l' l)
  ∧ (∀ x, first_with x r.2 = first_with x (merged ++ l)).
Proof.
  induction l as [| m l IH]; intros seen merged Hseen Hnd; simpl.
  - split; [done |]. split.
    + exists []. by rewrite app_nil_r.
    + intros x. by rewrite app_nil_r.
  - case_bool_decide as Hin.
    + destruct (IH seen merged Hseen Hnd) as (Hnd' & (l' & Hl' & Hsub) & Hfirst).
      split; [done |]. split.
      * exists l'. split; [done |]. by apply sublist_cons.
      * intros x. rewrite Hfirst, !first_with_app.
        destruct (first_with x merged) as [m' |] eqn:Hx; [done |].
        unfold first_with at 2. simpl. case_bool_decide as Hmx; [| done].
        apply Hseen, first_with_Some_iff in Hin. rewrite Hmx in Hin.
        rewrite Hx in Hin. by destruct Hin.
    + destruct (IH ({[Match.id m]} ∪ seen) (merged ++ [m]))
        as (Hnd' & (l' & Hl' & Hsub) & Hfirst).
      * intros x. rewrite fmap_app, elem_of_app, elem_of_union, Hseen. simpl.
        rewrite elem_of_singleton, list_elem_of_singleton. tauto.
      * rewrite fmap_app. apply NoDup_app. split; [done |]. split.
        -- intros x Hx. simpl. rewrite list_elem_of_singleton. intros ->.
           by apply Hin, Hseen.
        -- simpl. apply NoDup_singleton.
      * split; [done |]. split.
        -- exists (m :: l'). rewrite Hl', <- app_assoc. split; [done |].
           by apply sublist_skip.
        -- intros x. by rewrite Hfirst, <- app_assoc.
Qed.

(** C3. The merge of the current and upcoming lists has no two records
    with the same id, keeps the records in the order of the current list
    followed by the upcoming list, and holds for every id the first record
    that carries it, so that a record of the current list wins over an
    upcoming one with its id; the lists [1; 2] and [2; 3] merge into
    [1; 2; 3]. *)
Theorem C3_merge_dedup_first_wins (currentData upcomingData : list Match.t) :
  let merged := Routes.merge currentData upcomingData in
  NoDup (Match.id <$> merged)
  ∧ sublist merged (currentData ++ upcomingData)
  ∧ (∀ x, first_with x merged = first_with x (currentData ++ upcomingData))
  ∧ (∀ x m, first_with x currentData = Some m → first_with x merged = Some m)
  ∧ (∀ x, x ∈ Match.id <$> merged
          ↔ x ∈ Match.id <$> currentData ∨ x ∈ Match.id <$> upcomingData)
  ∧ Routes.merge [only_id "1"; only_id "2"] [only_id "2"; only_id "3"]
    = [only_id "1"; only_id "2"; only_id "3"].
Proof.
  intros merged. unfold merged, Routes.merge.
  destruct (merge_loop_spec (currentData ++ upcomingData) ∅ [])
    as (Hnd & (l' & Hl' & Hsub) & Hfirst).
  { intros x. simpl. rewrite elem_of_empty, elem_of_nil. tauto. }
  { simpl. apply NoDup_nil_2. }
  simpl in *. split; [done |]. split; [by rewrite Hl' |].
  split; [done |]. split; [| split].
  - intros x m Hm. by rewrite Hfirst, first_with_app, Hm.
  - intros x. rewrite <- first_with_Some_iff, Hfirst, first_with_Some_iff.
    by rewrite fmap_app, elem_of_app.
  - by vm_compute.
Qed.

Lemma C3_merge_dedup_first_wins_witness :
  let live := Match.Make "2" EmptyString "t20" "Live" EmptyString true false
                [] [] [] in
  let later := Match.Make "2" EmptyString "t20" "Upcoming" EmptyString
                 false false [] [] [] in
  first_with "2" (Routes.merge [only_id "1"; live] [later; only_id "3"])
  = Some live.
Proof.
  intros live later.
  destruct (C3_merge_dedup_first_wins [only_id "1"; live] [later; only_id "3"])
    as (_ & _ & _ & Hwin & _).
  apply Hwin. reflexivity.
Defined.

(** ** The normalizer: match state *)

Lemma ended_states_spec s :
  s ∈ Scraper.ENDED_STATES ↔
  s ∈ ["complete"; "result"; "abandoned"; "no result"; "cancelled"].
Proof.
  unfold Scraper.ENDED_STATES.
  rewrite !elem_of_union, !elem_of_singleton, !elem_of_cons, elem_of_nil.
  tauto.
Qed.

Lemma live_states_spec s :
  s ∈ Scraper.LIVE_STATES ↔
  s ∈ ["in progress"; "innings break"; "strategic timeout"; "rain";
       "bad light"; "stumps"; "drinks"; "tea"; "lunch"; "in break"].
Proof.
  unfold Scraper.LIVE_STATES.
  rewrite !elem_of_union, !elem_of_singleton, !elem_of_cons, elem_of_nil.
  tauto.
Qed.

(** C4. For every state string, [matchEnded] holds exactly when the
    lower-cased state is one of the five ended words, [matchStarted]
    exactly when it is one of these or one of the ten live words, any
    other state gives neither, and [matchEnded] implies [matchStarted]. *)
Theorem C4_parseState_vocabularies (state : string) :
  let ended := ["complete"; "result"; "abandoned"; "no result"; "cancelled"] in
  let live := ["in progress"; "innings break"; "strategic timeout"; "rain";
               "bad light"; "stumps"; "drinks"; "tea"; "lunch"; "in break"] in
  let s := JS.toLowerCase state in
  let flags := Scraper.parseState (Some state) in
  (Scraper.matchEnded flags = true ↔ s ∈ ended)
  ∧ (Scraper.matchStarted flags = true ↔ s ∈ ended ∨ s ∈ live)
  ∧ (s ∉ ended → s ∉ live →
     Scraper.matchStarted flags = false ∧ Scraper.matchEnded flags = false)
  ∧ (Scraper.matchEnded flags = true → Scraper.matchStarted flags = true).
Proof.
  intros ended live s flags.
  assert (He : Scraper.matchEnded flags = true ↔ s ∈ ended).
  { unfold flags, Scraper.parseState. simpl.
    rewrite bool_decide_eq_true. apply ended_states_spec. }
  assert (Hs : Scraper.matchStarted flags = true ↔ s ∈ ended ∨ s ∈ live).
  { unfold flags, Scraper.parseState. simpl.
    rewrite orb_true_iff, !bool_decide_eq_true.
    by rewrite ended_states_spec, live_states_spec. }
  split; [done |]. split; [done |]. split.
  - intros Hne Hnl. split.
    + apply not_true_is_false. rewrite Hs. tauto.
    + apply not_true_is_false. rewrite He. tauto.
  - rewrite He, Hs. tauto.
Qed.

Lemma C4_parseState_vocabularies_witness :
  Scraper.matchStarted (Scraper.parseState (Some "Complete")) = true
  ∧ Scraper.matchStarted (Scraper.parseState (Some "Scheduled")) = false
  ∧ Scraper.matchEnded (Scraper.parseState (Some "Scheduled")) = false.
Proof.
  split.
  - apply (C4_parseState_vocabularies "Complete"). reflexivity.
  - apply (C4_parseState_vocabularies "Scheduled");
      refine (bool_decide_unpack _ _); by vm_compute.
Defined.

(** The fixtures of the design document, and the default argument. *)
Lemma parseState_fixtures :
  Scraper.parseState (Some "In Progress")
    = {| Scraper.matchStarted := true; Scraper.matchEnded := false |}
  ∧ Scraper.parseState (Some "Complete")
    = {| Scraper.matchStarted := true; Scraper.matchEnded := true |}
  ∧ Scraper.parseState (Some "Scheduled")
    = {| Scraper.matchStarted := false; Scraper.matchEnded := false |}
  ∧ Scraper.parseState None
    = {| Scraper.matchStarted := false; Scraper.matchEnded := false |}.
Proof. by vm_compute. Qed.

(** ** The normalizer: composite ids *)

Lemma string_of_uint_digits (d : Decimal.uint) :
  Forall (λ c, JS.isDigit c = true)
         (list_ascii_of_string (NilEmpty.string_of_uint d)).
Proof. induction d; simpl; constructor; done. Qed.

Lemma String_of_N_digits (n : N) :
  Forall (λ c, JS.isDigit c = true) (list_ascii_of_string (JS.String_of_N n)).
Proof. apply string_of_uint_digits. Qed.

Lemma String_of_N_no_tilde (n : N) :
  "~"%char ∉ list_ascii_of_string (JS.String_of_N n).
Proof.
  intros Hin. pose proof (String_of_N_digits n) as Hd.
  rewrite Forall_forall in Hd. by specialize (Hd _ Hin).
Qed.

Lemma String_of_N_nonempty (n : N) : JS.String_of_N n ≠ EmptyString.
Proof.
  unfold JS.String_of_N. destruct n as [| p]; [done |].
  simpl. generalize (DecimalPos.Unsigned.to_uint_nonnil p).
  by destruct (Pos.to_uint p).
Qed.

Lemma truthy_false s : JS.truthy s = false ↔ s = EmptyString.
Proof. by destruct s. Qed.

Lemma truthy_true s : JS.truthy s = true ↔ s ≠ EmptyString.
Proof. by destruct s. Qed.

Lemma normalizeMatch_id toISOString matchInfo matchScore slug m :
  Scraper.normalizeMatch toISOString matchInfo matchScore slug = Ok m →
  Match.id m =
  if JS.truthy slug
  then JS.String_of_N (Scraper.matchId matchInfo) +:+ "~" +:+ slug
  else JS.String_of_N (Scraper.matchId matchInfo).
Proof.
  unfold Scraper.normalizeMatch.
  destruct (Scraper.state matchInfo); [| done |];
    (destruct (match Scraper.startDate matchInfo with
               | Some d => _ | None => _ end) as [date | e]; [| done]);
    by intros [= <-].
Qed.

(** C5. The id of every normalized match record is the decimal numeric id,
    a tilde and the slug; for an empty slug it is the bare numeric id,
    which is not empty and holds no tilde. *)
Theorem C5_composite_id toISOString matchInfo matchScore slug m :
  Scraper.normalizeMatch toISOString matchInfo matchScore slug = Ok m →
  let numericId := JS.String_of_N (Scraper.matchId matchInfo) in
  (slug ≠ EmptyString → Match.id m = numericId +:+ "~" +:+ slug)
  ∧ (slug = EmptyString →
     Match.id m = numericId
     ∧ ("~"%char ∉ list_ascii_of_string (Match.id m))
     ∧ Match.id m ≠ EmptyString).
Proof.
  intros Hm numericId. apply normalizeMatch_id in Hm. split.
  - intros Hs. apply truthy_true in Hs. by rewrite Hs in Hm.
  - intros ->. simpl in Hm. rewrite Hm. split; [done |].
    split; [apply String_of_N_no_tilde | apply String_of_N_nonempty].
Qed.

Lemma C5_composite_id_witness :
  Match.id <$> match Scraper.normalizeMatch (λ _, Err "Invalid time value")
                       sampleInfo None "ind-vs-aus-1st-odi" with
               | Ok m => Some m
               | Err _ => None
               end = Some "12345~ind-vs-aus-1st-odi"
  ∧ Match.id <$> match Scraper.normalizeMatch (λ _, Err "Invalid time value")
                         sampleInfo None EmptyString with
                 | Ok m => Some m
                 | Err _ => None
                 end = Some "12345".
Proof.
  split.
  - destruct (Scraper.normalizeMatch _ sampleInfo None "ind-vs-aus-1st-odi")
      as [m | e] eqn:Hm; [| by vm_compute in Hm].
    destruct (C5_composite_id _ _ _ _ _ Hm) as [Hid _].
    simpl. f_equal. by rewrite Hid.
  - destruct (Scraper.normalizeMatch _ sampleInfo None EmptyString)
      as [m | e] eqn:Hm; [| by vm_compute in Hm].
    destruct (C5_composite_id _ _ _ _ _ Hm) as [_ Hid].
    simpl. f_equal. by destruct Hid as [-> _].
Defined.

(** In the match list every record gets the slug that the navigation
    links give for its numeric id, and no slug when they give none. *)
Lemma normalizeAll_ids toISOString slugMap entries : ∀ ms,
  Scraper.normalizeAll toISOString slugMap entries = Ok ms →
  Forall2 (λ (entry : Scraper.MatchInfo * option Scraper.MatchScore) m,
             let numericId := JS.String_of_N (Scraper.matchId entry.1) in
             Match.id m = match slugMap !! numericId with
                          | Some (String c slug) =>
                              numericId +:+ "~" +:+ String c slug
                          | _ => numericId
                          end)
          entries ms.
Proof.
  induction entries as [| [info sc] entries IH]; intros ms; simpl.
  - intros [= <-]. constructor.
  - destruct (Scraper.normalizeMatch _ info sc _) as [m | e] eqn:Hm; [| done].
    destruct (Scraper.normalizeAll _ slugMap entries) as [ms' | e]; [| done].
    intros [= <-]. constructor; [| by apply IH].
    apply normalizeMatch_id in Hm. simpl. rewrite Hm.
    by destruct (slugMap !! _) as [[| c slug] |].
Qed.

(** ** The detail pages: request paths *)

Lemma split_no_sep sep s :
  sep ∉ list_ascii_of_string s → JS.split sep s = [s].
Proof.
  induction s as [| c s IH]; simpl; [done |].
  intros Hnot. rewrite not_elem_of_cons in Hnot. destruct Hnot as [Hc Hs].
  destruct (Ascii.eqb_spec c sep) as [-> | _]; [done |].
  by rewrite (IH Hs).
Qed.

Lemma split_app_sep sep s rest :
  sep ∉ list_ascii_of_string s →
  JS.split sep (s +:+ String sep rest) = s :: JS.split sep rest.
Proof.
  induction s as [| c s IH]; simpl.
  - intros _. by rewrite Ascii.eqb_refl.
  - intros Hnot. rewrite not_elem_of_cons in Hnot. destruct Hnot as [Hc Hs].
    destruct (Ascii.eqb_spec c sep) as [-> | _]; [done |].
    by rewrite (IH Hs).
Qed.

Section DetailPages.

Variable factsRows : string → list (string * string).
Variable Header : Type.
Variable parseHeader : string → Header.
Variable Scorecard : Type.
Variable parseScorecardHtml : string → Scorecard.

Local Abbreviation getScorecard :=
  (Scraper.getScorecard Scorecard parseScorecardHtml).
Local Abbreviation getMatchInfo :=
  (Scraper.getMatchInfo factsRows Header parseHeader).

(** C10. An id whose part before the first tilde is empty (the empty id,
    or an id that starts with a tilde) makes [getScorecard] and
    [getMatchInfo] fail with the invalid-match-id error before any request
    is made; an id made of a non-empty first part and no slug (no tilde,
    or a tilde with nothing behind it) makes them request the scorecard
    path of the bare first part, and nothing else. *)
Theorem C10_invalid_id_and_bare_path (id : string) (up : Scraper.upstream) :
  (id = EmptyString ∨ (∃ rest, id = "~" +:+ rest) →
     getScorecard id up = ([], Err ("Invalid match id: " +:+ id))
     ∧ getMatchInfo id up = ([], Err ("Invalid match id: " +:+ id)))
  ∧ (∀ matchId, matchId ≠ EmptyString →
       "~"%char ∉ list_ascii_of_string matchId →
       id = matchId ∨ id = matchId +:+ "~" →
       (getScorecard id up).1 = ["/live-cricket-scorecard/" +:+ matchId]
       ∧ (getMatchInfo id up).1 = ["/live-cricket-scorecard/" +:+ matchId]).
Proof.
  split.
  - intros [-> | [rest ->]]; by vm_compute.
  - intros matchId Hne Htilde Hid.
    assert (Hparts : JS.split "~" id !! 0%nat = Some matchId
                     ∧ JS.truthy_opt (JS.split "~" id !! 1%nat) = false).
    { destruct Hid as [-> | ->].
      - by rewrite (split_no_sep _ _ Htilde).
      - by rewrite (split_app_sep _ _ _ Htilde). }
    destruct Hparts as [H0 H1].
    apply truthy_true in Hne.
    unfold Scraper.getScorecard, Scraper.getMatchInfo.
    rewrite H0, H1. simpl. rewrite Hne. simpl.
    unfold Scraper.bind, Scraper.fetchPage. simpl.
    split.
    + by destruct (up _) as [? | st body]; [| destruct (Scraper.ok st)].
    + by destruct (up _) as [? | st body]; [| destruct (Scraper.ok st)].
Qed.

(** The composite id gives back the path of the page: numeric id, then
    slug. *)
Lemma composite_id_path (n : N) (slug : string) (up : Scraper.upstream) :
  slug ≠ EmptyString → "~"%char ∉ list_ascii_of_string slug →
  (getScorecard (JS.String_of_N n +:+ "~" +:+ slug) up).1
  = ["/live-cricket-scorecard/" +:+ JS.String_of_N n +:+ "/" +:+ slug].
Proof.
  intros Hne Htilde. unfold Scraper.getScorecard.
  change ("~" +:+ slug) with (String "~" slug).
  rewrite (split_app_sep _ _ _ (String_of_N_no_tilde n)).
  rewrite (split_no_sep _ _ Htilde). simpl.
  pose proof (String_of_N_nonempty n) as Hn.
  apply truthy_true in Hn, Hne. rewrite Hn, Hne. simpl.
  unfold Scraper.bind, Scraper.fetchPage. simpl.
  by destruct (up _) as [? | st body]; [| destruct (Scraper.ok st)].
Qed.

End DetailPages.

Lemma C10_invalid_id_and_bare_path_witness :
  let up := λ _ : string, Scraper.HttpResponse 200 "<html></html>" in
  Scraper.getScorecard nat String.length "~ind-vs-aus" up
    = ([], Err "Invalid match id: ~ind-vs-aus")
  ∧ (Scraper.getScorecard nat String.length "12345~" up).1
    = ["/live-cricket-scorecard/12345"]
  ∧ (Scraper.getMatchInfo (λ _, []) nat String.length "12345" up).1
    = ["/live-cricket-scorecard/12345"].
Proof.
  intros up.
  destruct (C10_invalid_id_and_bare_path (λ _, []) nat String.length
              nat String.length "~ind-vs-aus" up) as [Hbad _].
  destruct (C10_invalid_id_and_bare_path (λ _, []) nat String.length
              nat String.length "12345~" up) as [_ Hslash].
  destruct (C10_invalid_id_and_bare_path (λ _, []) nat String.length
              nat String.length "12345" up) as [_ Hbare].
  split; [apply Hbad; right; by exists "ind-vs-aus" |].
  split.
  - apply (Hslash "12345"); [done | | by right].
    refine (bool_decide_unpack _ _); by vm_compute.
  - apply (Hbare "12345"); [done | | by left].
    refine (bool_decide_unpack _ _); by vm_compute.
Defined.

(** ** The Extras and Total lines *)

(** The fixtures of the design document. *)
Lemma parseExtras_fixture :
  Scraper.parseExtras "Extras 9 (b 0, lb 1, w 8, nb 0, p 0)"
  = Scraper.Extras.Make 0 1 8 0 0.
Proof. by vm_compute. Qed.

Lemma parseTotal_fixture :
  Scraper.parseTotal "Total 79-3 (18 Overs, RR: 4.39)"
  = Some (Scraper.Total.Make 79 3 (Some "18")).
Proof. by vm_compute. Qed.

(** The overs group is optional, and a line without runs-wickets gives
    nothing. *)
Lemma parseTotal_overs_optional :
  Scraper.parseTotal "Total 79-3" = Some (Scraper.Total.Make 79 3 None)
  ∧ Scraper.parseTotal "Total 250 (49.3 Overs)" = None
  ∧ Scraper.parseTotal EmptyString = None.
Proof. by vm_compute. Qed.

Lemma parseTotal_absent_iff text :
  Scraper.parseTotal text = None ↔
  Regex.match_ false Scraper.re_score text = None.
Proof.
  unfold Scraper.parseTotal.
  by destruct (Regex.match_ false Scraper.re_score text).
Qed.

(** Labels that are not in the line default to zero when no other label
    ends with them. *)
Lemma parseExtras_defaults :
  Scraper.parseExtras EmptyString = Scraper.Extras.Make 0 0 0 0 0
  ∧ Scraper.parseExtras "Extras 4 (b 1, w 3)" = Scraper.Extras.Make 1 0 3 0 0.
Proof. by vm_compute. Qed.

(** C7. On an Extras line without the byes label, [parseExtras] does not
    give byes the default zero: the pattern for [b] finds the [b] that
    ends [lb] (or [nb]) and reports the leg-byes (or no-balls) as byes. *)
Theorem C7_extras_byes_read_from_leg_byes :
  Scraper.parseExtras "Extras 9 (lb 1, w 8, nb 0, p 0)"
  = Scraper.Extras.Make 1 1 8 0 0
  ∧ Scraper.parseExtras "Extras 7 (w 2, nb 5)"
  = Scraper.Extras.Make 5 0 2 5 0.
Proof. by vm_compute. Qed.

(** ** JSON extraction *)

Lemma list_ascii_app (a b : string) :
  list_ascii_of_string (a +:+ b)
  = list_ascii_of_string a ++ list_ascii_of_string b.
Proof. induction a as [| c a IH]; simpl; [done | by rewrite IH]. Qed.

Lemma string_of_list_ascii_app (a b : list ascii) :
  string_of_list_ascii (a ++ b)
  = string_of_list_ascii a +:+ string_of_list_ascii b.
Proof.
  induction a as [| x a IH]; [done |].
  simpl. rewrite IH. reflexivity.
Qed.

Lemma length_list_ascii (a : string) :
  length (list_ascii_of_string a) = String.length a.
Proof. induction a as [| c a IH]; simpl; [done | by rewrite IH]. Qed.

Lemma length_append (a b : string) :
  String.length (a +:+ b) = (String.length a + String.length b)%nat.
Proof.
  by rewrite <- !length_list_ascii, list_ascii_app, length_app.
Qed.

Lemma append_assoc (a b c : string) : (a +:+ b) +:+ c = a +:+ b +:+ c.
Proof.
  induction a as [| x a IH]; [done |].
  change ((String x a +:+ b) +:+ c) with (String x ((a +:+ b) +:+ c)).
  by rewrite IH.
Qed.

Lemma substring_prefix (b c : string) :
  String.substring 0 (String.length b) (b +:+ c) = b.
Proof.
  induction b as [| x b IH]; [by destruct c |].
  change (String x b +:+ c) with (String x (b +:+ c)). simpl.
  by rewrite IH.
Qed.

Lemma substring_middle (a b c : string) :
  String.substring (String.length a) (String.length b) (a +:+ b +:+ c) = b.
Proof.
  induction a as [| x a IH]; [exact (substring_prefix b c) |].
  change (String x a +:+ b +:+ c) with (String x (a +:+ b +:+ c)). by simpl.
Qed.

Lemma balance_app l1 l2 : balance (l1 ++ l2) = balance l1 + balance l2.
Proof. induction l1 as [| c l1 IH]; simpl; [done | rewrite IH; lia]. Qed.

Lemma brace_weight_lbrace c :
  0 < brace_weight c → c = Scraper.lbrace.
Proof.
  unfold brace_weight.
  destruct (Ascii.eqb_spec c Scraper.lbrace); [done |].
  destruct (Ascii.eqb c Scraper.rbrace); lia.
Qed.

Section ExtractLoop.
Variable html : string.

(** Outside an object, characters that are not braces are skipped. *)
Lemma loop_skip junk : ∀ rest i depth start,
  Forall (λ c, brace_weight c = 0) junk →
  Scraper.extractJsonAt_loop html (junk ++ rest) i depth start
  = Scraper.extractJsonAt_loop html rest (i + Z.of_nat (length junk)) depth start.
Proof.
  induction junk as [| c junk IH]; intros rest i depth start Hj; simpl.
  - f_equal. lia.
  - inversion Hj as [| ? ? Hc Hj']; subst. unfold brace_weight in Hc.
    destruct (Ascii.eqb c Scraper.lbrace); [lia |].
    destruct (Ascii.eqb c Scraper.rbrace); [lia |].
    rewrite (IH _ _ _ _ Hj'). f_equal. lia.
Qed.

(** Inside an object, the loop runs on for as long as the count stays
    positive, and keeps the start it recorded. *)
Lemma loop_inside l : ∀ rest i depth start,
  0 < depth →
  (∀ k, (0 < k ≤ length l)%nat → 0 < depth + balance (take k l)) →
  Scraper.extractJsonAt_loop html (l ++ rest) i depth start
  = Scraper.extractJsonAt_loop html rest (i + Z.of_nat (length l))
      (depth + balance l) start.
Proof.
  induction l as [| c l IH]; intros rest i depth start Hd Hpos; simpl.
  - f_equal; lia.
  - assert (Hc : 0 < depth + brace_weight c).
    { specialize (Hpos 1%nat ltac:(simpl; lia)). simpl in Hpos. lia. }
    assert (Hrest : ∀ k, (0 < k ≤ length l)%nat →
              0 < depth + brace_weight c + balance (take k l)).
    { intros k Hk. specialize (Hpos (S k) ltac:(simpl; lia)).
      simpl in Hpos. lia. }
    unfold brace_weight in *.
    destruct (Ascii.eqb c Scraper.lbrace).
    + destruct (Z.eqb_spec depth 0) as [? | _]; [lia |].
      rewrite (IH _ _ _ _ Hc Hrest). f_equal; lia.
    + destruct (Ascii.eqb c Scraper.rbrace).
      * destruct (Z.eqb_spec (depth - 1) 0) as [? | _]; [lia |]. simpl.
        replace (depth - 1) with (depth + -1) by lia.
        rewrite (IH _ _ _ _ Hc Hrest). f_equal; lia.
      * replace depth with (depth + 0) at 1 by lia.
        rewrite (IH _ _ _ _ Hc Hrest). f_equal; lia.
Qed.

(** From outside, a text whose non-empty prefixes all leave a brace open
    takes the loop inside, with its first character as the start. *)
Lemma loop_enter inner : ∀ rest i,
  inner ≠ [] →
  (∀ k, (0 < k ≤ length inner)%nat → 0 < balance (take k inner)) →
  Scraper.extractJsonAt_loop html (inner ++ rest) i 0 (-1)
  = Scraper.extractJsonAt_loop html rest (i + Z.of_nat (length inner))
      (balance inner) i.
Proof.
  intros rest i Hne Hpos. destruct inner as [| c l]; [done |].
  assert (Hc : c = Scraper.lbrace).
  { apply brace_weight_lbrace.
    specialize (Hpos 1%nat ltac:(simpl; lia)). simpl in Hpos. lia. }
  subst c. simpl. change (0 + 1) with 1.
  rewrite (loop_inside l rest (i + 1) 1 i ltac:(lia)).
  - f_equal; unfold brace_weight; simpl; lia.
  - intros k Hk. specialize (Hpos (S k) ltac:(simpl; lia)).
    simpl in Hpos. unfold brace_weight in Hpos. simpl in Hpos. lia.
Qed.

End ExtractLoop.

Lemma brace_weight_rbrace c : brace_weight c < 0 → c = Scraper.rbrace.
Proof.
  unfold brace_weight.
  destruct (Ascii.eqb c Scraper.lbrace); [lia |].
  destruct (Ascii.eqb_spec c Scraper.rbrace); [done | lia].
Qed.

Lemma brace_weight_bounds c : -1 ≤ brace_weight c ≤ 1.
Proof.
  unfold brace_weight.
  destruct (Ascii.eqb c Scraper.lbrace); [lia |].
  destruct (Ascii.eqb c Scraper.rbrace); lia.
Qed.

(** From inside an object, either the count stays positive to the end of
    the text or there is a first closing brace that brings it to zero. *)
Lemma depth_outcomes l : ∀ depth,
  0 < depth →
  (∀ k, (0 < k ≤ length l)%nat → 0 < depth + balance (take k l))
  ∨ ∃ l1 l2,
      l = l1 ++ Scraper.rbrace :: l2
      ∧ (∀ k, (0 < k ≤ length l1)%nat → 0 < depth + balance (take k l1))
      ∧ depth + balance l1 = 1.
Proof.
  induction l as [| c l IH]; intros depth Hd.
  - left. intros k Hk. simpl in Hk. lia.
  - pose proof (brace_weight_bounds c) as Hb.
    destruct (Z.eq_dec (depth + brace_weight c) 0) as [Hz | Hnz].
    + right. exists [], l. simpl.
      rewrite (brace_weight_rbrace c) by lia.
      split; [done |]. split; [intros k Hk; lia | lia].
    + destruct (IH (depth + brace_weight c) ltac:(lia))
        as [Hall | (l1 & l2 & -> & Hall & Hone)].
      * left. intros [| k] Hk; [lia |]. simpl.
        destruct k as [| k]; [rewrite take_0; simpl; lia |].
        specialize (Hall (S k) ltac:(simpl in Hk; lia)). lia.
      * right. exists (c :: l1), l2. split; [done |]. split.
        -- intros [| k] Hk; [lia |]. simpl.
           destruct k as [| k]; [rewrite take_0; simpl; lia |].
           specialize (Hall (S k) ltac:(simpl in Hk; lia)). lia.
        -- simpl. lia.
Qed.

Lemma inside_lbrace (l : list ascii) :
  (∀ k, (0 < k ≤ length l)%nat → 0 < 1 + balance (take k l)) →
  inside (String Scraper.lbrace (string_of_list_ascii l)).
Proof.
  intros Hall [| k] Hk; [lia |].
  simpl. rewrite list_ascii_of_string_of_list_ascii.
  change (brace_weight Scraper.lbrace) with 1.
  destruct k as [| k]; [rewrite take_0; simpl; lia |].
  apply Hall. simpl in Hk.
  rewrite <- length_list_ascii, list_ascii_of_string_of_list_ascii in Hk. lia.
Qed.

(** A text that starts with an opening brace is either left open to its
    end or starts with exactly one balanced object. *)
Lemma object_or_open (r : string) :
  inside ("{" +:+ r)
  ∨ ∃ obj post, "{" +:+ r = obj +:+ post ∧ balanced_object obj.
Proof.
  rewrite <- (string_of_list_ascii_of_string r).
  destruct (depth_outcomes (list_ascii_of_string r) 1 ltac:(lia))
    as [Hall | (l1 & l2 & Hr & Hall & Hone)].
  - left. by apply inside_lbrace.
  - right. rewrite Hr.
    exists (String Scraper.lbrace (string_of_list_ascii l1) +:+ "}"),
      (string_of_list_ascii l2).
    split.
    + rewrite string_of_list_ascii_app. simpl.
      change ("{" +:+ ?x) with (String Scraper.lbrace x).
      by rewrite append_assoc.
    + exists (String Scraper.lbrace (string_of_list_ascii l1)).
      split; [done |]. split; [done |]. split; [by apply inside_lbrace |].
      simpl. rewrite list_ascii_of_string_of_list_ascii.
      change (brace_weight Scraper.lbrace) with 1. lia.
Qed.

Lemma extractJsonAt_from (pre rest : string) :
  Scraper.extractJsonAt (pre +:+ rest) (Z.of_nat (String.length pre))
  = Scraper.extractJsonAt_loop (pre +:+ rest) (list_ascii_of_string rest)
      (Z.of_nat (String.length pre)) 0 (-1).
Proof.
  unfold Scraper.extractJsonAt.
  rewrite Nat2Z.id, list_ascii_app, <- length_list_ascii, drop_app_length.
  f_equal. lia.
Qed.

(** C6 (as amended). When no closing brace stands between the start index
    and the first opening brace at or after it, [extractJsonAt] returns
    the text from that opening brace through the first closing brace at
    which the count of opening minus closing braces is back to zero, and
    nothing when the count never comes back to zero or there is no opening
    brace.  Every brace counts, nested or not, inside a quoted string or
    not.  A negative start index is as good as 0. *)
Theorem C6_extractJsonAt_balanced (pre junk : string) :
  no_braces junk →
  (∀ obj post, balanced_object obj →
     Scraper.extractJsonAt (pre +:+ junk +:+ obj +:+ post)
       (Z.of_nat (String.length pre)) = Some obj)
  ∧ (∀ rest, inside rest →
     Scraper.extractJsonAt (pre +:+ junk +:+ rest)
       (Z.of_nat (String.length pre)) = None)
  ∧ (∀ r, inside ("{" +:+ r)
          ∨ ∃ obj post, "{" +:+ r = obj +:+ post ∧ balanced_object obj)
  ∧ (∀ html startIdx, startIdx < 0 →
     Scraper.extractJsonAt html startIdx = Scraper.extractJsonAt html 0).
Proof.
  intros Hjunk. split; [| split; [| split; [exact object_or_open |]]].
  - intros obj post (inner & -> & Hne & Hin & Hbal).
    rewrite extractJsonAt_from, !list_ascii_app.
    rewrite loop_skip by exact Hjunk.
    rewrite <- app_assoc.
    rewrite loop_enter.
    + rewrite Hbal. simpl. rewrite !length_list_ascii.
      destruct (Z.eqb_spec (Z.of_nat (String.length pre)
                            + Z.of_nat (String.length junk)) (-1))
        as [? | _]; [lia |].
      simpl. f_equal. unfold JS.slice.
      rewrite <- (append_assoc pre junk).
      replace (Z.to_nat (Z.of_nat (String.length pre)
                         + Z.of_nat (String.length junk)))
        with (String.length (pre +:+ junk))
        by (rewrite length_append; lia).
      replace (Z.to_nat _ - String.length (pre +:+ junk))%nat
        with (String.length (inner +:+ "}"))
        by (rewrite !length_append; simpl; lia).
      apply substring_middle.
    + by destruct inner.
    + intros k Hk. apply Hin. by rewrite <- length_list_ascii.
  - intros rest Hin.
    rewrite extractJsonAt_from, !list_ascii_app.
    rewrite loop_skip by exact Hjunk.
    destruct rest as [| c rest]; [done |].
    rewrite <- (app_nil_r (list_ascii_of_string (String c rest))).
    rewrite loop_enter; [done | done |].
    intros k Hk. apply Hin. by rewrite <- length_list_ascii.
  - intros html startIdx Hneg. unfold Scraper.extractJsonAt.
    by replace (Z.to_nat startIdx) with 0%nat by lia;
       replace (Z.max 0 startIdx) with 0 by lia.
Qed.

Lemma C6_extractJsonAt_balanced_witness :
  Scraper.extractJsonAt "List:{a:{b:1},c:2},d}" 4 = Some "{a:{b:1},c:2}"
  ∧ Scraper.extractJsonAt "List:{a:{b:1" 4 = None
  ∧ Scraper.extractJsonAt "{a}" (-1) = Scraper.extractJsonAt "{a}" 0.
Proof.
  assert (Hjunk : no_braces ":") by (repeat constructor).
  destruct (C6_extractJsonAt_balanced "List" ":" Hjunk)
    as (Hobj & Hnone & _ & Hneg).
  split; [| split].
  - apply (Hobj "{a:{b:1},c:2}" ",d}").
    exists "{a:{b:1},c:2". split; [done |]. split; [done |]. split; [| done].
    intros k Hk. simpl in Hk.
    do 13 (destruct k as [| k]; [by vm_compute + lia |]). lia.
  - apply (Hnone "{a:{b:1").
    intros k Hk. simpl in Hk.
    do 9 (destruct k as [| k]; [by vm_compute + lia |]). lia.
  - apply Hneg. lia.
Defined.

(** C6, as stated, fails: a closing brace inside a quoted string ends the
    object (of [{Qa}Q:1}] only [{Qa}] is returned), and a closing brace
    before the first opening brace makes the scan miss the object that
    follows. *)
Lemma C6_quoted_and_stray_braces :
  Scraper.extractJsonAt quoted_brace 0
    = Some ("{" +:+ String Scraper.dquote "a}")
  ∧ Scraper.extractJsonAt quoted_brace 0 ≠ Some quoted_brace
  ∧ Scraper.extractJsonAt "}{}" 0 = None.
Proof. by vm_compute. Qed.

(** ** Regular expressions: what a match tells about the text *)

Section IterateSound.
Context {R : Type}.
Variable ic : bool.
Variable r : Regex.t.
Variable step : nat → list ascii → Regex.captures →
                (nat → list ascii → Regex.captures → option R) → option R.
Variable k : nat → list ascii → Regex.captures → option R.

Hypothesis step_sound : ∀ i s c0 k' x,
  step i s c0 k' = Some x →
  ∃ w s' c1, s = w ++ s' ∧ Regex.sem ic r i w c0 c1
             ∧ k' (i + length w)%nat s' c1 = Some x.

Lemma greedy_sound fuel : ∀ i s c0 x,
  Regex.greedy step k fuel i s c0 = Some x →
  ∃ w s' c1, s = w ++ s' ∧ Regex.sem ic (Regex.Plus r) i w c0 c1
             ∧ k (i + length w)%nat s' c1 = Some x.
Proof.
  induction fuel as [| fuel IH]; intros i s c0 x; simpl; [done |].
  intros H. apply step_sound in H as (w & s' & c1 & -> & Hw & H).
  destruct (i <? i + length w)%nat;
    [destruct (Regex.greedy step k fuel _ s' c1) as [y |] eqn:Hmore |].
  - injection H as ->.
    apply IH in Hmore as (w2 & s2 & c2 & -> & Hw2 & Hk).
    exists (w ++ w2), s2, c2.
    rewrite length_app, Nat.add_assoc, <- app_assoc.
    split; [done |]. split; [| done]. by eapply Regex.sem_plus_more.
  - exists w, s', c1. split; [done |]. split; [| done].
    by apply Regex.sem_plus_last.
  - exists w, s', c1. split; [done |]. split; [| done].
    by apply Regex.sem_plus_last.
Qed.

Lemma lazy_sound fuel : ∀ i s c0 x,
  Regex.lazy step k fuel i s c0 = Some x →
  ∃ w s' c1, s = w ++ s' ∧ Regex.sem ic (Regex.PlusLazy r) i w c0 c1
             ∧ k (i + length w)%nat s' c1 = Some x.
Proof.
  induction fuel as [| fuel IH]; intros i s c0 x; simpl; [done |].
  intros H. apply step_sound in H as (w & s' & c1 & -> & Hw & H).
  destruct (k (i + length w)%nat s' c1) as [y |] eqn:Hk.
  - injection H as ->. exists w, s', c1. split; [done |]. split; [| done].
    by apply Regex.sem_lazy_last.
  - destruct (i <? i + length w)%nat; [| done].
    apply IH in H as (w2 & s2 & c2 & -> & Hw2 & Hk2).
    exists (w ++ w2), s2, c2.
    rewrite length_app, Nat.add_assoc, <- app_assoc.
    split; [done |]. split; [| done]. by eapply Regex.sem_lazy_more.
Qed.

End IterateSound.

(** Whatever the matcher accepts is a match. *)
Lemma run_sound {R : Type} ic r : ∀ i s c0 (k : _ → _ → _ → option R) x,
  Regex.run ic r i s c0 k = Some x →
  ∃ w s' c1, s = w ++ s' ∧ Regex.sem ic r i w c0 c1
             ∧ k (i + length w)%nat s' c1 = Some x.
Proof.
  induction r as [| c | p | r1 IH1 r2 IH2 | r1 IH1 | r1 IH1 | n r1 IH1 |];
    intros i s c0 k x; cbn [Regex.run].
  - intros H. exists [], s, c0. rewrite Nat.add_0_r.
    split; [done |]. split; [constructor | done].
  - destruct s as [| y s]; [done |].
    destruct (Regex.char_matches ic c y) eqn:Hc; [| done].
    intros H. exists [y], s, c0. simpl. rewrite Nat.add_1_r.
    split; [done |]. split; [by constructor | done].
  - destruct s as [| y s]; [done |].
    destruct (p y) eqn:Hp; [| done].
    intros H. exists [y], s, c0. simpl. rewrite Nat.add_1_r.
    split; [done |]. split; [by constructor | done].
  - intros H. apply IH1 in H as (w1 & s1 & c1 & -> & Hw1 & H).
    apply IH2 in H as (w2 & s2 & c2 & -> & Hw2 & H).
    exists (w1 ++ w2), s2, c2.
    rewrite length_app, Nat.add_assoc, <- app_assoc.
    split; [done |]. split; [by econstructor | done].
  - apply greedy_sound. intros. by apply IH1.
  - apply lazy_sound. intros. by apply IH1.
  - intros H. apply IH1 in H as (w & s' & c1 & -> & Hw & H).
    exists w, s', (<[n := w]> c1).
    split; [done |]. split; [by constructor |].
    replace (i + length w - i)%nat with (length w) in H by lia.
    by rewrite take_app_length in H.
  - destruct (Nat.eqb_spec i 0) as [-> | ?]; [| done].
    intros H. exists [], s, c0.
    split; [done |]. split; [constructor | done].
Qed.

(** A successful search splits the input around a match. *)
Lemma search_sound ic r s : ∀ i start stop caps,
  Regex.search ic r i s = Some (start, stop, caps) →
  ∃ before w after,
    s = before ++ w ++ after ∧ start = (i + length before)%nat
    ∧ stop = (start + length w)%nat
    ∧ Regex.sem ic r start w ∅ caps.
Proof.
  induction s as [| y s IH]; intros i start stop caps; simpl.
  - destruct (Regex.run ic r i [] ∅ _) as [[j c] |] eqn:Hrun; [| done].
    intros [= <- <- <-].
    apply run_sound in Hrun as (w & s' & c1 & Hs & Hw & [= <- <-]).
    exists [], w, s'. simpl. rewrite Nat.add_0_r. done.
  - destruct (Regex.run ic r i (y :: s) ∅ _) as [[j c] |] eqn:Hrun.
    + intros [= <- <- <-].
      apply run_sound in Hrun as (w & s' & c1 & Hs & Hw & [= <- <-]).
      exists [], w, s'. simpl. rewrite Nat.add_0_r. done.
    + intros H. apply IH in H as (before & w & after & -> & -> & -> & Hw).
      exists (y :: before), w, after. simpl.
      replace (i + S (length before))%nat with (S i + length before)%nat by lia.
      done.
Qed.

Lemma sem_lit ic str : ∀ i w c0 c1,
  Regex.sem ic (Regex.lit str) i w c0 c1 →
  c1 = c0
  ∧ Forall2 (λ c x, Regex.char_matches ic c x = true)
            (list_ascii_of_string str) w.
Proof.
  induction str as [| c str IH]; intros i w c0 c1 H.
  - inversion H; subst. by split.
  - destruct str as [| c' str].
    + inversion H; subst. split; [done |]. by repeat constructor.
    + simpl in H. inversion H as [| | | ? ? ? w1 w2 ? cm ? H1 H2 | | | | | |]; subst.
      inversion H1; subst.
      apply IH in H2 as [-> H2]. split; [done |]. simpl. by constructor.
Qed.

Lemma sem_plus_class ic p i w c0 c1 :
  Regex.sem ic (Regex.Plus (Regex.Class p)) i w c0 c1 →
  c1 = c0 ∧ w ≠ [] ∧ Forall (λ x, p x = true) w.
Proof.
  remember (Regex.Plus (Regex.Class p)) as r eqn:Hr.
  induction 1 as [| | | | r' i w c0 c1 H1 _
                  | r' i w1 w2 c0 c1 c2 H1 _ H2 IH | | | |];
    try discriminate Hr; injection Hr as ->.
  - inversion H1; subst. split; [done |]. split; [done |]. by repeat constructor.
  - inversion H1; subst. destruct (IH eq_refl) as (-> & _ & Hall).
    split; [done |]. split; [done |]. simpl. by constructor.
Qed.

Lemma sem_lazy_class ic p i w c0 c1 :
  Regex.sem ic (Regex.PlusLazy (Regex.Class p)) i w c0 c1 →
  c1 = c0 ∧ w ≠ [] ∧ Forall (λ x, p x = true) w.
Proof.
  remember (Regex.PlusLazy (Regex.Class p)) as r eqn:Hr.
  induction 1 as [| | | | | | r' i w c0 c1 H1 _
                  | r' i w1 w2 c0 c1 c2 H1 _ H2 IH | |];
    try discriminate Hr; injection Hr as ->.
  - inversion H1; subst. split; [done |]. split; [done |]. by repeat constructor.
  - inversion H1; subst. destruct (IH eq_refl) as (-> & _ & Hall).
    split; [done |]. split; [done |]. simpl. by constructor.
Qed.

Lemma match_sound ic r text a :
  Regex.match_ ic r text = Some a →
  ∃ before w after,
    text = string_of_list_ascii before +:+ string_of_list_ascii w
           +:+ string_of_list_ascii after
    ∧ Regex.index a = length before
    ∧ Regex.sem ic r (Regex.index a) w ∅ (Regex.groups a).
Proof.
  unfold Regex.match_, Regex.exec. rewrite drop_0.
  destruct (Regex.search ic r 0 _) as [[[i j] caps] |] eqn:Hs; [| done].
  intros [= <-]. simpl.
  apply search_sound in Hs as (before & w & after & Htext & -> & -> & Hw).
  exists before, w, after. split; [| done].
  rewrite <- !string_of_list_ascii_app, <- Htext.
  by rewrite string_of_list_ascii_of_string.
Qed.

Lemma char_matches_ignoring_case l w :
  Forall2 (λ c x, Regex.char_matches true c x = true) l w →
  Forall2 (λ x y, JS.canonicalize x = JS.canonicalize y) l w.
Proof.
  intros H. eapply Forall2_impl; [exact H |].
  intros c x Hc. simpl in Hc. by apply Ascii.eqb_eq in Hc.
Qed.

Lemma sem_seq_inv ic r1 r2 i w c0 c2 :
  Regex.sem ic (Regex.Seq r1 r2) i w c0 c2 →
  ∃ w1 w2 c1, w = w1 ++ w2 ∧ Regex.sem ic r1 i w1 c0 c1
              ∧ Regex.sem ic r2 (i + length w1)%nat w2 c1 c2.
Proof. inversion 1; subst. eauto 10. Qed.

Lemma sem_group_inv ic n r i w c0 c2 :
  Regex.sem ic (Regex.Group n r) i w c0 c2 →
  ∃ c1, c2 = <[n := w]> c1 ∧ Regex.sem ic r i w c0 c1.
Proof. inversion 1; subst. eauto. Qed.

Lemma sem_bol_inv ic i w c0 c1 :
  Regex.sem ic Regex.Bol i w c0 c1 → i = 0%nat ∧ w = [] ∧ c1 = c0.
Proof. by inversion 1. Qed.

Lemma string_of_list_ascii_nonempty (w : list ascii) :
  w ≠ [] → string_of_list_ascii w ≠ EmptyString.
Proof. by destruct w. Qed.

Lemma length_string_of_list_ascii (l : list ascii) :
  String.length (string_of_list_ascii l) = length l.
Proof.
  by rewrite <- length_list_ascii, list_ascii_of_string_of_list_ascii.
Qed.

(** The state of the scan after the characters [seen], the first [n0] of
    which lie before the start index: outside an object no start is
    recorded; inside, the start is where the open text [inner] begins. *)
Lemma char_matches_exact l w :
  Forall2 (λ c x, Regex.char_matches false c x = true) l w → w = l.
Proof.
  induction 1 as [| c x l w Hc _ IH]; [done |].
  simpl in Hc. apply Ascii.eqb_eq in Hc. by subst.
Qed.

(** ** The matching order: longest first, shortest first, leftmost *)

Lemma greedy_class_spec {R : Type} ic p
    (k : nat → list ascii → Regex.captures → option R) caps :
  ∀ s fuel i, (length s < fuel)%nat →
  match Regex.greedy (Regex.run ic (Regex.Class p)) k fuel i s caps with
  | Some r =>
      ∃ w rest,
        s = w ++ rest ∧ w ≠ [] ∧ Forall (λ x, p x = true) w
        ∧ k (i + length w)%nat rest caps = Some r
        ∧ ∀ w' rest', s = w' ++ rest' → Forall (λ x, p x = true) w' →
                      (length w < length w')%nat →
                      k (i + length w')%nat rest' caps = None
  | None =>
      ∀ w rest, s = w ++ rest → w ≠ [] → Forall (λ x, p x = true) w →
                k (i + length w)%nat rest caps = None
  end.
Proof.
  induction s as [| x s IH]; intros fuel i Hf;
    (destruct fuel as [| fuel]; [simpl in Hf; lia |]).
  - cbn. intros w rest Heq Hne. by destruct w.
  - cbn [Regex.greedy Regex.run]. destruct (p x) eqn:Hx.
    + rewrite (proj2 (Nat.ltb_lt i (S i))) by lia.
      specialize (IH fuel (S i) ltac:(simpl in Hf; lia)).
      destruct (Regex.greedy _ k fuel (S i) s caps) as [y |].
      * destruct IH as (w & rest & -> & Hne & Hall & Hk & Hmax).
        exists (x :: w), rest. split; [done |]. split; [done |].
        split; [by constructor |]. split.
        { replace (i + length (x :: w))%nat with (S i + length w)%nat
            by (simpl; lia). done. }
        intros w' rest' Heq Hall' Hlen.
        destruct w' as [| x' w']; [simpl in Hlen; lia |].
        injection Heq as <- Heq. inversion Hall'; subst.
        replace (i + length (x :: w'))%nat with (S i + length w')%nat
          by (simpl; lia).
        apply Hmax; [done | done | simpl in Hlen; lia].
      * destruct (k (S i) s caps) as [r |] eqn:Hk.
        -- exists [x], s. split; [done |]. split; [done |].
           split; [by repeat constructor |]. split.
           { by rewrite Nat.add_1_r. }
           intros w' rest' Heq Hall' Hlen.
           destruct w' as [| x' w']; [simpl in Hlen; lia |].
           injection Heq as <- Heq. inversion Hall'; subst.
           replace (i + length (x :: w'))%nat with (S i + length w')%nat
             by (simpl; lia).
           apply IH; [done | | done]. destruct w'; [simpl in Hlen; lia | done].
        -- intros w rest Heq Hne Hall.
           destruct w as [| x' w]; [done |].
           injection Heq as <- Heq. inversion Hall; subst.
           destruct w as [| x'' w].
           { simpl in *. subst. by rewrite Nat.add_1_r. }
           replace (i + length (x :: x'' :: w))%nat
             with (S i + length (x'' :: w))%nat by (simpl; lia).
           by apply IH.
    + intros w rest Heq Hne Hall. destruct w as [| x' w]; [done |].
      injection Heq as <- Heq. inversion Hall; subst. congruence.
Qed.

Lemma lazy_class_spec {R : Type} ic p
    (k : nat → list ascii → Regex.captures → option R) caps :
  ∀ s fuel i, (length s < fuel)%nat →
  match Regex.lazy (Regex.run ic (Regex.Class p)) k fuel i s caps with
  | Some r =>
      ∃ w rest,
        s = w ++ rest ∧ w ≠ [] ∧ Forall (λ x, p x = true) w
        ∧ k (i + length w)%nat rest caps = Some r
        ∧ ∀ w' rest', s = w' ++ rest' → w' ≠ [] →
                      (length w' < length w)%nat →
                      k (i + length w')%nat rest' caps = None
  | None =>
      ∀ w rest, s = w ++ rest → w ≠ [] → Forall (λ x, p x = true) w →
                k (i + length w)%nat rest caps = None
  end.
Proof.
  induction s as [| x s IH]; intros fuel i Hf;
    (destruct fuel as [| fuel]; [simpl in Hf; lia |]).
  - cbn. intros w rest Heq Hne. by destruct w.
  - cbn [Regex.lazy Regex.run]. destruct (p x) eqn:Hx.
    + rewrite (proj2 (Nat.ltb_lt i (S i))) by lia.
      specialize (IH fuel (S i) ltac:(simpl in Hf; lia)).
      destruct (k (S i) s caps) as [r |] eqn:Hk.
      * exists [x], s. split; [done |]. split; [done |].
        split; [by repeat constructor |]. split.
        { by rewrite Nat.add_1_r. }
        intros w' rest' Heq Hne Hlen. destruct w'; [done | simpl in Hlen; lia].
      * destruct (Regex.lazy _ k fuel (S i) s caps) as [y |].
        -- destruct IH as (w & rest & -> & Hne & Hall & Hk' & Hmin).
           exists (x :: w), rest. split; [done |]. split; [done |].
           split; [by constructor |]. split.
           { replace (i + length (x :: w))%nat with (S i + length w)%nat
               by (simpl; lia). done. }
           intros w' rest' Heq Hne' Hlen.
           destruct w' as [| x' w']; [done |].
           injection Heq as <- Heq.
           destruct w' as [| x'' w'].
           { simpl in *. subst. by rewrite Nat.add_1_r. }
           replace (i + length (x :: x'' :: w'))%nat
             with (S i + length (x'' :: w'))%nat by (simpl; lia).
           apply Hmin; [done | done | simpl in *; lia].
        -- intros w rest Heq Hne Hall.
           destruct w as [| x' w]; [done |].
           injection Heq as <- Heq. inversion Hall; subst.
           destruct w as [| x'' w].
           { simpl in *. subst. by rewrite Nat.add_1_r. }
           replace (i + length (x :: x'' :: w))%nat
             with (S i + length (x'' :: w))%nat by (simpl; lia).
           by apply IH.
    + intros w rest Heq Hne Hall. destruct w as [| x' w]; [done |].
      injection Heq as <- Heq. inversion Hall; subst. congruence.
Qed.

Lemma run_lit_spec {R : Type} ic str
    (k : nat → list ascii → Regex.captures → option R) :
  ∀ i s caps,
  match Regex.run ic (Regex.lit str) i s caps k with
  | Some r =>
      ∃ lab rest,
        s = lab ++ rest
        ∧ Forall2 (λ c x, Regex.char_matches ic c x = true)
                  (list_ascii_of_string str) lab
        ∧ k (i + length lab)%nat rest caps = Some r
  | None =>
      ∀ lab rest,
        s = lab ++ rest →
        Forall2 (λ c x, Regex.char_matches ic c x = true)
                (list_ascii_of_string str) lab →
        k (i + length lab)%nat rest caps = None
  end.
Proof.
  induction str as [| c str IH]; intros i s caps.
  - cbn. destruct (k i s caps) as [r |] eqn:Hk.
    + exists [], s. split; [done |]. split; [constructor |].
      by rewrite Nat.add_0_r.
    + intros lab rest -> Hlab. inversion Hlab; subst.
      by rewrite Nat.add_0_r.
  - assert (Hstep :
      Regex.run ic (Regex.lit (String c str)) i s caps k
      = match s with
        | x :: s' =>
            if Regex.char_matches ic c x
            then Regex.run ic (Regex.lit str) (S i) s' caps k
            else None
        | [] => None
        end).
    { destruct str; [| done]. cbn. destruct s as [| x s']; [done |].
      by destruct (Regex.char_matches ic c x). }
    rewrite Hstep. destruct s as [| x s'].
    + intros lab rest Heq Hlab. inversion Hlab; subst. done.
    + destruct (Regex.char_matches ic c x) eqn:Hc.
      * specialize (IH (S i) s' caps).
        destruct (Regex.run ic (Regex.lit str) (S i) s' caps k) as [r |].
        -- destruct IH as (lab & rest & -> & Hlab & Hk).
           exists (x :: lab), rest. split; [done |].
           split; [by constructor |].
           replace (i + length (x :: lab))%nat with (S i + length lab)%nat
             by (simpl; lia). done.
        -- intros lab rest Heq Hlab.
           inversion Hlab as [| ? x' ? lab' Hc' Hlab']; subst.
           injection Heq as <- Heq.
           replace (i + length (x :: lab'))%nat with (S i + length lab')%nat
             by (simpl; lia).
           by apply IH.
      * intros lab rest Heq Hlab.
        inversion Hlab as [| ? x' ? lab' Hc' Hlab']; subst.
        injection Heq as <- Heq. congruence.
Qed.

(** A capturing group around a greedy run of a class. *)
Lemma group_greedy_spec {R : Type} ic n p
    (k : nat → list ascii → Regex.captures → option R) i s caps :
  match Regex.run ic (Regex.Group n (Regex.Plus (Regex.Class p))) i s caps k
  with
  | Some r =>
      ∃ w rest,
        s = w ++ rest ∧ w ≠ [] ∧ Forall (λ x, p x = true) w
        ∧ k (i + length w)%nat rest (<[n := w]> caps) = Some r
        ∧ ∀ w' rest', s = w' ++ rest' → Forall (λ x, p x = true) w' →
                      (length w < length w')%nat →
                      k (i + length w')%nat rest' (<[n := w']> caps) = None
  | None =>
      ∀ w rest, s = w ++ rest → w ≠ [] → Forall (λ x, p x = true) w →
                k (i + length w)%nat rest (<[n := w]> caps) = None
  end.
Proof.
  cbn [Regex.run].
  pose proof (greedy_class_spec ic p
                (λ i' s' caps', k i' s' (<[n := take (i' - i) s]> caps'))
                caps s (S (length s)) i ltac:(lia)) as H.
  assert (Htake : ∀ w rest, s = w ++ rest →
            take (i + length w - i) s = w).
  { intros w rest ->. replace (i + length w - i)%nat with (length w) by lia.
    by rewrite take_app_length. }
  destruct (Regex.greedy _ _ (S (length s)) i s caps) as [r |].
  - destruct H as (w & rest & Hs & Hne & Hall & Hk & Hmax).
    exists w, rest. rewrite (Htake w rest Hs) in Hk.
    repeat (split; [done |]).
    intros w' rest' Hs' Hall' Hlen.
    specialize (Hmax w' rest' Hs' Hall' Hlen). by rewrite (Htake w' rest' Hs') in Hmax.
  - intros w rest Hs Hne Hall. specialize (H w rest Hs Hne Hall).
    by rewrite (Htake w rest Hs) in H.
Qed.

(** With nothing behind it, the group takes the whole run. *)
Lemma group_whole_run ic n p i s caps :
  match Regex.run ic (Regex.Group n (Regex.Plus (Regex.Class p))) i s caps
          (λ j _ c, Some (j, c))
  with
  | Some (j, c) =>
      ∃ w rest,
        s = w ++ rest ∧ w ≠ [] ∧ Forall (λ x, p x = true) w
        ∧ (∀ x rest', rest = x :: rest' → p x = false)
        ∧ j = (i + length w)%nat ∧ c = <[n := w]> caps
  | None => ∀ x rest, s = x :: rest → p x = false
  end.
Proof.
  pose proof (group_greedy_spec ic n p (λ j _ c, Some (j, c)) i s caps) as H.
  destruct (Regex.run ic _ i s caps _) as [[j c] |].
  - destruct H as (w & rest & -> & Hne & Hall & [= <- <-] & Hmax).
    exists w, rest. repeat (split; [done |]). split; [| done].
    intros x rest' ->. destruct (p x) eqn:Hx; [| done].
    specialize (Hmax (w ++ [x]) rest').
    rewrite <- app_assoc in Hmax. specialize (Hmax eq_refl).
    discriminate Hmax.
    + apply Forall_app. split; [done |]. by repeat constructor.
    + rewrite length_app. simpl. lia.
  - intros x rest ->. destruct (p x) eqn:Hx; [| done].
    specialize (H [x] rest eq_refl). discriminate H; [done |].
    by repeat constructor.
Qed.

(** A capturing group around a lazy run of a class. *)
Lemma group_lazy_spec {R : Type} ic n p
    (k : nat → list ascii → Regex.captures → option R) i s caps :
  match Regex.run ic (Regex.Group n (Regex.PlusLazy (Regex.Class p))) i s caps k
  with
  | Some r =>
      ∃ w rest,
        s = w ++ rest ∧ w ≠ [] ∧ Forall (λ x, p x = true) w
        ∧ k (i + length w)%nat rest (<[n := w]> caps) = Some r
        ∧ ∀ w' rest', s = w' ++ rest' → w' ≠ [] →
                      (length w' < length w)%nat →
                      k (i + length w')%nat rest' (<[n := w']> caps) = None
  | None =>
      ∀ w rest, s = w ++ rest → w ≠ [] → Forall (λ x, p x = true) w →
                k (i + length w)%nat rest (<[n := w]> caps) = None
  end.
Proof.
  cbn [Regex.run].
  pose proof (lazy_class_spec ic p
                (λ i' s' caps', k i' s' (<[n := take (i' - i) s]> caps'))
                caps s (S (length s)) i ltac:(lia)) as H.
  assert (Htake : ∀ w rest, s = w ++ rest →
            take (i + length w - i) s = w).
  { intros w rest ->. replace (i + length w - i)%nat with (length w) by lia.
    by rewrite take_app_length. }
  destruct (Regex.lazy _ _ (S (length s)) i s caps) as [r |].
  - destruct H as (w & rest & Hs & Hne & Hall & Hk & Hmin).
    exists w, rest. rewrite (Htake w rest Hs) in Hk.
    repeat (split; [done |]).
    intros w' rest' Hs' Hne' Hlen.
    specialize (Hmin w' rest' Hs' Hne' Hlen). by rewrite (Htake w' rest' Hs') in Hmin.
  - intros w rest Hs Hne Hall. specialize (H w rest Hs Hne Hall).
    by rewrite (Htake w rest Hs) in H.
Qed.

(** A run of a class and then a literal, with nothing behind. *)
Lemma class_lit_spec ic p str i s caps :
  match Regex.run ic (Regex.Seq (Regex.Plus (Regex.Class p)) (Regex.lit str))
          i s caps (λ j _ c, Some (j, c))
  with
  | Some (j, c) =>
      ∃ blank lab rest,
        s = blank ++ lab ++ rest ∧ blank ≠ []
        ∧ Forall (λ x, p x = true) blank
        ∧ Forall2 (λ c x, Regex.char_matches ic c x = true)
                  (list_ascii_of_string str) lab
        ∧ c = caps
  | None =>
      ∀ blank lab rest,
        s = blank ++ lab ++ rest → blank ≠ [] →
        Forall (λ x, p x = true) blank →
        Forall2 (λ c x, Regex.char_matches ic c x = true)
                (list_ascii_of_string str) lab →
        False
  end.
Proof.
  cbn [Regex.run].
  pose proof (greedy_class_spec ic p
                (λ i' s' caps',
                   Regex.run ic (Regex.lit str) i' s' caps'
                     (λ j _ c, Some (j, c)))
                caps s (S (length s)) i ltac:(lia)) as H.
  destruct (Regex.greedy _ _ (S (length s)) i s caps) as [[j c] |].
  - destruct H as (blank & rest0 & -> & Hne & Hall & Hk & _).
    pose proof (run_lit_spec ic str (λ j _ c, Some (j, c))
                  (i + length blank) rest0 caps) as Hlit.
    rewrite Hk in Hlit. destruct Hlit as (lab & rest & -> & Hlab & [= <- <-]).
    by exists blank, lab, rest.
  - intros blank lab rest -> Hne Hall Hlab.
    specialize (H blank (lab ++ rest) eq_refl Hne Hall).
    pose proof (run_lit_spec ic str (λ j _ c, Some (j, c))
                  (i + length blank) (lab ++ rest) caps) as Hlit.
    rewrite H in Hlit. specialize (Hlit lab rest eq_refl Hlab). done.
Qed.

(** The search of a match starts at the leftmost offset at which the
    pattern matches. *)
Lemma search_spec ic r : ∀ s i,
  match Regex.search ic r i s with
  | Some (start, stop, caps) =>
      ∃ n, (n ≤ length s)%nat ∧ start = (i + n)%nat
           ∧ Regex.run ic r (i + n) (drop n s) ∅ (λ j _ c, Some (j, c))
             = Some (stop, caps)
           ∧ ∀ m, (m < n)%nat →
                  Regex.run ic r (i + m) (drop m s) ∅ (λ j _ c, Some (j, c))
                  = None
  | None =>
      ∀ m, (m ≤ length s)%nat →
           Regex.run ic r (i + m) (drop m s) ∅ (λ j _ c, Some (j, c)) = None
  end.
Proof.
  induction s as [| x s IH]; intros i; cbn [Regex.search].
  - destruct (Regex.run ic r i [] ∅ _) as [[j c] |] eqn:Hrun.
    + exists 0%nat. rewrite Nat.add_0_r. simpl.
      split; [done |]. split; [done |]. split; [done |]. intros m Hm. lia.
    + intros m Hm. simpl in Hm. assert (m = 0%nat) as -> by lia.
      by rewrite Nat.add_0_r.
  - destruct (Regex.run ic r i (x :: s) ∅ _) as [[j c] |] eqn:Hrun.
    + exists 0%nat. rewrite Nat.add_0_r. simpl.
      split; [lia |]. split; [done |]. split; [done |]. intros m Hm. lia.
    + specialize (IH (S i)).
      destruct (Regex.search ic r (S i) s) as [[[start stop] caps] |].
      * destruct IH as (n & Hn & -> & Hrun' & Hmin).
        exists (S n). split; [simpl; lia |]. split; [lia |]. split.
        { replace (i + S n)%nat with (S i + n)%nat by lia. done. }
        intros m Hm. destruct m as [| m].
        { by rewrite Nat.add_0_r. }
        replace (i + S m)%nat with (S i + m)%nat by lia.
        apply Hmin. lia.
      * intros m Hm. destruct m as [| m].
        { by rewrite Nat.add_0_r. }
        replace (i + S m)%nat with (S i + m)%nat by lia.
        apply IH. simpl in Hm. lia.
Qed.

(** The same for [text.match(re)], in terms of the text. *)
Lemma match_leftmost ic r text :
  match Regex.match_ ic r text with
  | Some a =>
      ∃ pre rest,
        text = pre +:+ rest
        ∧ Regex.run ic r (String.length pre) (list_ascii_of_string rest) ∅
            (λ j _ c, Some (j, c))
          = Some (Regex.lastIndex a, Regex.groups a)
        ∧ ∀ pre' rest',
            text = pre' +:+ rest' →
            (String.length pre' < String.length pre)%nat →
            Regex.run ic r (String.length pre') (list_ascii_of_string rest') ∅
              (λ j _ c, Some (j, c))
            = None
  | None =>
      ∀ pre rest,
        text = pre +:+ rest →
        Regex.run ic r (String.length pre) (list_ascii_of_string rest) ∅
          (λ j _ c, Some (j, c))
        = None
  end.
Proof.
  unfold Regex.match_, Regex.exec. rewrite drop_0.
  pose proof (search_spec ic r (list_ascii_of_string text) 0) as H.
  assert (Hsplit : ∀ pre rest, text = pre +:+ rest →
            drop (String.length pre) (list_ascii_of_string text)
            = list_ascii_of_string rest
            ∧ (String.length pre ≤ length (list_ascii_of_string text))%nat).
  { intros pre rest ->. rewrite list_ascii_app, <- length_list_ascii.
    rewrite drop_app_length, length_app. split; [done | lia]. }
  destruct (Regex.search ic r 0 _) as [[[start stop] caps] |].
  - destruct H as (n & Hn & -> & Hrun & Hmin). simpl in *.
    exists (string_of_list_ascii (take n (list_ascii_of_string text))),
      (string_of_list_ascii (drop n (list_ascii_of_string text))).
    rewrite length_string_of_list_ascii, list_ascii_of_string_of_list_ascii,
      length_take, Nat.min_l by done.
    split.
    { by rewrite <- string_of_list_ascii_app, take_drop,
        string_of_list_ascii_of_string. }
    split; [done |].
    intros pre' rest' Htext Hlen.
    destruct (Hsplit pre' rest' Htext) as [<- _]. by apply Hmin.
  - intros pre rest Htext. destruct (Hsplit pre rest Htext) as [<- Hle].
    by apply (H (String.length pre)).
Qed.

(** ** A label followed by a run of a class *)

Lemma reads_as_chars ic label lab :
  reads_as ic label lab
  ↔ Forall2 (λ c x, Regex.char_matches ic c x = true)
            (list_ascii_of_string label) (list_ascii_of_string lab).
Proof.
  destruct ic; simpl.
  - unfold same_ignoring_case. split; intros H.
    + eapply Forall2_impl; [exact H |]. intros c x Hc. simpl.
      by apply Ascii.eqb_eq.
    + by apply char_matches_ignoring_case.
  - split.
    + intros ->. induction (list_ascii_of_string label) as [| c l IH];
        constructor; [apply Ascii.eqb_refl | done].
    + intros H. apply char_matches_exact in H.
      rewrite <- (string_of_list_ascii_of_string lab), H.
      apply string_of_list_ascii_of_string.
Qed.

Lemma begins_with_true p post :
  begins_with p post = true →
  ∃ x post', post = String x post' ∧ p x = true.
Proof. destruct post as [| x post']; [done |]. intros H. by exists x, post'. Qed.

Lemma begins_with_false p rest :
  (∀ x rest', rest = x :: rest' → p x = false) →
  begins_with p (string_of_list_ascii rest) = false.
Proof. destruct rest as [| x rest']; [done |]. intros H. simpl. by eapply H. Qed.

Lemma label_run_spec ic label n p i s :
  match Regex.run ic
          (Regex.Seq (Regex.lit label)
                     (Regex.Group n (Regex.Plus (Regex.Class p))))
          i s ∅ (λ j _ c, Some (j, c))
  with
  | Some (j, caps) =>
      ∃ lab w rest,
        s = lab ++ w ++ rest
        ∧ Forall2 (λ c x, Regex.char_matches ic c x = true)
                  (list_ascii_of_string label) lab
        ∧ w ≠ [] ∧ Forall (λ x, p x = true) w
        ∧ (∀ x rest', rest = x :: rest' → p x = false)
        ∧ caps = <[n := w]> ∅
  | None =>
      ∀ lab x rest,
        s = lab ++ x :: rest →
        Forall2 (λ c x, Regex.char_matches ic c x = true)
                (list_ascii_of_string label) lab →
        p x = false
  end.
Proof.
  cbn [Regex.run].
  pose proof (run_lit_spec ic label
                (λ i' s' caps',
                   Regex.run ic (Regex.Group n (Regex.Plus (Regex.Class p)))
                     i' s' caps' (λ j _ c, Some (j, c)))
                i s ∅) as H.
  destruct (Regex.run ic (Regex.lit label) i s ∅ _) as [[j caps] |].
  - destruct H as (lab & rest0 & -> & Hlab & Hk).
    pose proof (group_whole_run ic n p (i + length lab) rest0 ∅) as Hg.
    rewrite Hk in Hg.
    destruct Hg as (w & rest & -> & Hne & Hall & Hend & _ & ->).
    by exists lab, w, rest.
  - intros lab x rest -> Hlab. specialize (H lab (x :: rest) eq_refl Hlab).
    pose proof (group_whole_run ic n p (i + length lab) (x :: rest) ∅) as Hg.
    rewrite H in Hg. by eapply Hg.
Qed.

(** What [text.match] finds for a pattern made of a label and a captured
    run of a class: the whole run behind the first place where the label
    is followed by a character of the class. *)
Lemma label_match_spec ic label n p text :
  match Regex.match_ ic
          (Regex.Seq (Regex.lit label)
                     (Regex.Group n (Regex.Plus (Regex.Class p)))) text
  with
  | Some a =>
      ∃ run, first_run_after ic label p text run
             ∧ Regex.group n (Some a) = Some run
  | None => ∀ pre, ¬ label_after ic label p text pre
  end.
Proof.
  pose proof (match_leftmost ic
                (Regex.Seq (Regex.lit label)
                   (Regex.Group n (Regex.Plus (Regex.Class p)))) text) as H.
  assert (Hnone : ∀ pre rest,
            text = pre +:+ rest →
            Regex.run ic
              (Regex.Seq (Regex.lit label)
                 (Regex.Group n (Regex.Plus (Regex.Class p))))
              (String.length pre) (list_ascii_of_string rest) ∅
              (λ j _ c, Some (j, c)) = None →
            ¬ label_after ic label p text pre).
  { intros pre rest Htext Hrun (lab & post & Htext' & Hlab & Hpost).
    apply begins_with_true in Hpost as (x & post' & -> & Hx).
    pose proof (label_run_spec ic label n p (String.length pre)
                  (list_ascii_of_string rest)) as Hspec.
    rewrite Hrun in Hspec.
    assert (rest = lab +:+ String x post') as ->.
    { rewrite Htext in Htext'.
      apply (f_equal list_ascii_of_string) in Htext'.
      rewrite !list_ascii_app in Htext'. apply app_inv_head in Htext'.
      rewrite <- list_ascii_app in Htext'.
      apply (f_equal string_of_list_ascii) in Htext'.
      by rewrite !string_of_list_ascii_of_string in Htext'. }
    rewrite list_ascii_app in Hspec.
    specialize (Hspec (list_ascii_of_string lab) x
                  (list_ascii_of_string post') eq_refl).
    apply reads_as_chars in Hlab. specialize (Hspec Hlab). congruence. }
  destruct (Regex.match_ ic _ text) as [a |].
  - destruct H as (pre & rest & Htext & Hrun & Hmin).
    pose proof (label_run_spec ic label n p (String.length pre)
                  (list_ascii_of_string rest)) as Hspec.
    rewrite Hrun in Hspec.
    destruct Hspec as (lab & w & post & Hrest & Hlab & Hne & Hall & Hend & Hcaps).
    exists (string_of_list_ascii w). split.
    + exists pre, (string_of_list_ascii lab), (string_of_list_ascii post).
      split.
      { rewrite Htext. f_equal.
        rewrite <- !string_of_list_ascii_app, <- Hrest.
        by rewrite string_of_list_ascii_of_string. }
      split.
      { apply reads_as_chars. by rewrite list_ascii_of_string_of_list_ascii. }
      split; [by apply string_of_list_ascii_nonempty |].
      split; [unfold all_chars; by rewrite list_ascii_of_string_of_list_ascii |].
      split; [by apply begins_with_false |].
      intros pre' Hafter.
      destruct (decide (String.length pre ≤ String.length pre')%nat)
        as [Hle | Hgt]; [done |].
      exfalso.
      assert (∃ rest', text = pre' +:+ rest') as [rest' Htext'].
      { destruct Hafter as (lab' & post' & -> & _). by eexists. }
      apply (Hnone pre' rest' Htext'); [| done].
      apply Hmin; [done | lia].
    + simpl. by rewrite Hcaps, lookup_insert_eq.
  - intros pre Hafter.
    assert (∃ rest, text = pre +:+ rest) as [rest Htext].
    { destruct Hafter as (lab' & post' & -> & _). by eexists. }
    by apply (Hnone pre rest Htext (H pre rest Htext)).
Qed.

Lemma append_inv_head (pre a b : string) : pre +:+ a = pre +:+ b → a = b.
Proof.
  induction pre as [| c pre IH]; [done |].
  change (String c pre +:+ ?x) with (String c (pre +:+ x)).
  intros [= H]. by apply IH.
Qed.

Lemma chars_nonempty (s : string) :
  s ≠ EmptyString → list_ascii_of_string s ≠ [].
Proof. by destruct s. Qed.

(** ** The toss winner *)

Lemma winner_run_spec i s :
  match Regex.run true Scraper.re_tossWinner i s ∅ (λ j _ c, Some (j, c)) with
  | Some (j, caps) =>
      i = 0%nat
      ∧ ∃ w blank won rest,
          s = w ++ blank ++ won ++ rest
          ∧ w ≠ [] ∧ Forall (λ x, negb (JS.isLineTerminator x) = true) w
          ∧ blank ≠ [] ∧ Forall (λ x, JS.isSpace x = true) blank
          ∧ Forall2 (λ c x, Regex.char_matches true c x = true)
                    (list_ascii_of_string "won the toss") won
          ∧ caps = <[1%nat := w]> ∅
          ∧ ∀ w' blank' won' rest',
              s = w' ++ blank' ++ won' ++ rest' → w' ≠ [] → blank' ≠ [] →
              Forall (λ x, JS.isSpace x = true) blank' →
              Forall2 (λ c x, Regex.char_matches true c x = true)
                      (list_ascii_of_string "won the toss") won' →
              (length w ≤ length w')%nat
  | None =>
      i = 0%nat →
      ∀ w blank won rest,
        s = w ++ blank ++ won ++ rest
        → w ≠ [] → Forall (λ x, negb (JS.isLineTerminator x) = true) w
        → blank ≠ [] → Forall (λ x, JS.isSpace x = true) blank
        → Forall2 (λ c x, Regex.char_matches true c x = true)
                  (list_ascii_of_string "won the toss") won
        → False
  end.
Proof.
  set (tail := λ (i' : nat) (s' : list ascii) (caps' : Regex.captures),
         Regex.run true
           (Regex.Seq (Regex.Plus (Regex.Class JS.isSpace))
                      (Regex.lit "won the toss"))
           i' s' caps' (λ j _ c, Some (j, c))).
  assert (Heq :
    Regex.run true Scraper.re_tossWinner i s ∅ (λ j _ c, Some (j, c))
    = if (i =? 0)%nat
      then Regex.run true
             (Regex.Group 1
                (Regex.PlusLazy
                   (Regex.Class (λ c, negb (JS.isLineTerminator c)))))
             i s ∅ tail
      else None) by reflexivity.
  rewrite Heq. clear Heq.
  destruct (Nat.eqb_spec i 0) as [-> | Hi]; [| done].
  pose proof (group_lazy_spec true 1 (λ c, negb (JS.isLineTerminator c))
                tail 0 s ∅) as H.
  destruct (Regex.run true _ 0 s ∅ tail) as [[j caps] |].
  - destruct H as (w & rest0 & -> & Hne & Hall & Hk & Hmin).
    split; [done |].
    pose proof (class_lit_spec true JS.isSpace "won the toss"
                  (0 + length w) rest0 (<[1%nat := w]> ∅)) as Ht.
    unfold tail in Hk. rewrite Hk in Ht.
    destruct Ht as (blank & won & rest & -> & Hb & Hball & Hwon & ->).
    exists w, blank, won, rest. repeat (split; [done |]).
    intros w' blank' won' rest' Hs Hne' Hb' Hball' Hwon'.
    destruct (decide (length w ≤ length w')%nat) as [Hle | Hgt]; [done |].
    exfalso.
    specialize (Hmin w' (blank' ++ won' ++ rest') Hs Hne' ltac:(lia)).
    pose proof (class_lit_spec true JS.isSpace "won the toss"
                  (0 + length w') (blank' ++ won' ++ rest')
                  (<[1%nat := w']> ∅)) as Ht'.
    unfold tail in Hmin. rewrite Hmin in Ht'.
    by apply (Ht' blank' won' rest').
  - intros _ w blank won rest -> Hne Hall Hb Hball Hwon.
    specialize (H w (blank ++ won ++ rest) eq_refl Hne Hall).
    pose proof (class_lit_spec true JS.isSpace "won the toss"
                  (0 + length w) (blank ++ won ++ rest)
                  (<[1%nat := w]> ∅)) as Ht.
    unfold tail in H. rewrite H in Ht.
    by apply (Ht blank won rest).
Qed.

Lemma names_winner_chars text winner :
  names_winner text winner →
  ∃ blank won rest,
    list_ascii_of_string text
    = list_ascii_of_string winner ++ blank ++ won ++ rest
    ∧ list_ascii_of_string winner ≠ []
    ∧ Forall (λ x, negb (JS.isLineTerminator x) = true)
             (list_ascii_of_string winner)
    ∧ blank ≠ [] ∧ Forall (λ x, JS.isSpace x = true) blank
    ∧ Forall2 (λ c x, Regex.char_matches true c x = true)
              (list_ascii_of_string "won the toss") won.
Proof.
  intros (blank & won & post & -> & Hne & Hall & Hb & Hball & Hwon).
  exists (list_ascii_of_string blank), (list_ascii_of_string won),
    (list_ascii_of_string post).
  rewrite !list_ascii_app. split; [done |].
  split; [by apply chars_nonempty |]. split; [done |].
  split; [by apply chars_nonempty |]. split; [done |].
  by apply (reads_as_chars true).
Qed.

(** What the pattern of the toss winner finds: the shortest start of the
    text that is followed by white space and [won the toss]. *)
Lemma tossWinner_match_spec text :
  match Regex.match_ true Scraper.re_tossWinner text with
  | Some a =>
      ∃ winner, shortest_winner text winner
                ∧ Regex.group 1 (Some a) = Some winner
  | None => ∀ winner, ¬ names_winner text winner
  end.
Proof.
  pose proof (match_leftmost true Scraper.re_tossWinner text) as H.
  destruct (Regex.match_ true Scraper.re_tossWinner text) as [a |].
  - destruct H as (pre & rest & Htext & Hrun & _).
    pose proof (winner_run_spec (String.length pre)
                  (list_ascii_of_string rest)) as Hspec.
    rewrite Hrun in Hspec.
    destruct Hspec as (Hpre & w & blank & won & post & Hrest & Hne & Hall
                       & Hb & Hball & Hwon & Hcaps & Hmin).
    destruct pre; [| done].
    change (EmptyString +:+ rest) with rest in Htext. subst rest.
    exists (string_of_list_ascii w). split; [split |].
    + exists (string_of_list_ascii blank), (string_of_list_ascii won),
        (string_of_list_ascii post).
      split.
      { rewrite <- !string_of_list_ascii_app, <- Hrest.
        by rewrite string_of_list_ascii_of_string. }
      unfold all_chars. rewrite !list_ascii_of_string_of_list_ascii.
      split; [by apply string_of_list_ascii_nonempty |]. split; [done |].
      split; [by apply string_of_list_ascii_nonempty |]. split; [done |].
      apply (reads_as_chars true).
      by rewrite list_ascii_of_string_of_list_ascii.
    + intros winner' Hw'.
      apply names_winner_chars in Hw'
        as (blank' & won' & rest' & Hs & Hne' & _ & Hb' & Hball' & Hwon').
      rewrite length_string_of_list_ascii, <- length_list_ascii.
      by apply (Hmin _ blank' won' rest').
    + simpl. by rewrite Hcaps, lookup_insert_eq.
  - intros winner Hw.
    apply names_winner_chars in Hw
      as (blank & won & rest & Hs & Hne & Hall & Hb & Hball & Hwon).
    specialize (H EmptyString text eq_refl).
    pose proof (winner_run_spec 0 (list_ascii_of_string text)) as Hspec.
    change (String.length EmptyString) with 0%nat in H. rewrite H in Hspec.
    by apply (Hspec eq_refl (list_ascii_of_string winner) blank won rest).
Qed.

(** ** Match info: the toss *)

Lemma tossChoice_sound text a :
  Regex.match_ true Scraper.re_tossChoice text = Some a →
  ∃ pre optTo word post,
    text = pre +:+ optTo +:+ word +:+ post
    ∧ same_ignoring_case "opt to " optTo
    ∧ word ≠ EmptyString ∧ all_chars JS.isWord word
    ∧ Regex.group 1 (Some a) = Some word.
Proof.
  intros H. apply match_sound in H as (before & w & after & -> & _ & H).
  unfold Scraper.re_tossChoice in H.
  apply sem_seq_inv in H as (w1 & w2 & c1 & -> & Hlit & Hgroup).
  apply sem_lit in Hlit as [-> Hlit].
  apply sem_group_inv in Hgroup as (c2 & Hcaps & Hword).
  apply sem_plus_class in Hword as (-> & Hne & Hword).
  exists (string_of_list_ascii before), (string_of_list_ascii w1),
    (string_of_list_ascii w2), (string_of_list_ascii after).
  split; [by rewrite string_of_list_ascii_app, append_assoc |].
  unfold same_ignoring_case, all_chars.
  rewrite !list_ascii_of_string_of_list_ascii.
  split; [by apply char_matches_ignoring_case |].
  split; [by apply string_of_list_ascii_nonempty |].
  split; [done |].
  simpl. rewrite Hcaps. by rewrite lookup_insert_eq.
Qed.

Lemma tossWinner_sound text a :
  Regex.match_ true Scraper.re_tossWinner text = Some a →
  ∃ winner blank won post,
    text = winner +:+ blank +:+ won +:+ post
    ∧ winner ≠ EmptyString
    ∧ all_chars (λ c, negb (JS.isLineTerminator c)) winner
    ∧ blank ≠ EmptyString ∧ all_chars JS.isSpace blank
    ∧ same_ignoring_case "won the toss" won
    ∧ Regex.group 1 (Some a) = Some winner.
Proof.
  intros H. apply match_sound in H as (before & w & after & -> & Hidx & H).
  unfold Scraper.re_tossWinner in H.
  apply sem_seq_inv in H as (w0 & w' & c0 & -> & Hbol & H).
  apply sem_bol_inv in Hbol as (Hz & -> & ->).
  assert (before = []) as -> by (destruct before; [done | simpl in *; lia]).
  apply sem_seq_inv in H as (w1 & w'' & c1 & -> & Hgroup & H).
  apply sem_group_inv in Hgroup as (c2 & -> & Hwinner).
  apply sem_lazy_class in Hwinner as (-> & Hne1 & Hwinner).
  apply sem_seq_inv in H as (w2 & w3 & c3 & -> & Hblank & Hlit).
  apply sem_plus_class in Hblank as (-> & Hne2 & Hblank).
  apply sem_lit in Hlit as [Hcaps Hlit].
  exists (string_of_list_ascii w1), (string_of_list_ascii w2),
    (string_of_list_ascii w3), (string_of_list_ascii after).
  split.
  { simpl. by rewrite !string_of_list_ascii_app, !append_assoc. }
  unfold same_ignoring_case, all_chars.
  rewrite !list_ascii_of_string_of_list_ascii.
  split; [by apply string_of_list_ascii_nonempty |].
  split; [done |].
  split; [by apply string_of_list_ascii_nonempty |].
  split; [done |].
  split; [by apply char_matches_ignoring_case |].
  simpl. rewrite Hcaps. by rewrite lookup_insert_eq.
Qed.

Section TossFacts.

Variable factsRows : string → list (string * string).
Variable Header : Type.
Variable parseHeader : string → Header.

Local Abbreviation parseMatchInfoHtml :=
  (Scraper.parseMatchInfoHtml factsRows Header parseHeader).

(** C9 (as amended). For every document, [tossChoice] is the lower-cased
    whole word that follows [opt to], in any letter case, at the first
    place of the toss sentence where [opt to] is followed by a word
    character, whatever that word is, and it is absent (the empty string)
    exactly when the sentence has no such place; [tossWinner] is the
    shortest start of the sentence that is followed by white space and
    [won the toss], and it is absent exactly when the sentence has no such
    start.  The two fields are read by two patterns of their own, and both
    are absent when there is no toss sentence. *)
Theorem C9_toss_fields_from_patterns (html : string) :
  let info := parseMatchInfoHtml html in
  let tossText := Scraper.Info.status info in
  (Scraper.Info.tossChoice info = EmptyString
   ∨ ∃ pre optTo word post,
       tossText = pre +:+ optTo +:+ word +:+ post
       ∧ same_ignoring_case "opt to " optTo
       ∧ word ≠ EmptyString ∧ all_chars JS.isWord word
       ∧ Scraper.Info.tossChoice info = JS.toLowerCase word)
  ∧ (Scraper.Info.tossWinner info = EmptyString
     ∨ ∃ blank won post,
         tossText = Scraper.Info.tossWinner info +:+ blank +:+ won +:+ post
         ∧ all_chars (λ c, negb (JS.isLineTerminator c))
                     (Scraper.Info.tossWinner info)
         ∧ blank ≠ EmptyString ∧ all_chars JS.isSpace blank
         ∧ same_ignoring_case "won the toss" won)
  ∧ (tossText = EmptyString →
     Scraper.Info.tossChoice info = EmptyString
     ∧ Scraper.Info.tossWinner info = EmptyString)
  ∧ ((∀ pre, ¬ label_after true "opt to " JS.isWord tossText pre)
     ∧ Scraper.Info.tossChoice info = EmptyString
     ∨ ∃ word,
         first_run_after true "opt to " JS.isWord tossText word
         ∧ Scraper.Info.tossChoice info = JS.toLowerCase word
         ∧ Scraper.Info.tossChoice info ≠ EmptyString)
  ∧ ((∀ winner, ¬ names_winner tossText winner)
     ∧ Scraper.Info.tossWinner info = EmptyString
     ∨ shortest_winner tossText (Scraper.Info.tossWinner info)).
Proof.
  unfold Scraper.parseMatchInfoHtml. simpl.
  generalize (JS.or_empty (foldl Scraper.addFact ∅ (factsRows html) !! "Toss")).
  intros tossText. split; [| split; [| split; [| split]]].
  - destruct (Regex.match_ true Scraper.re_tossChoice tossText) as [a |] eqn:Hm;
      [| by left].
    right. apply tossChoice_sound in Hm
      as (pre & optTo & word & post & Htext & Hopt & Hne & Hword & Hg).
    exists pre, optTo, word, post. by rewrite Hg.
  - destruct (Regex.match_ true Scraper.re_tossWinner tossText) as [a |] eqn:Hm;
      [| by left].
    right. apply tossWinner_sound in Hm
      as (winner & blank & won & post & Htext & Hne & Hline & Hne' & Hblank
          & Hwon & Hg).
    exists blank, won, post. by rewrite Hg.
  - by intros ->.
  - pose proof (label_match_spec true "opt to " 1 JS.isWord tossText) as H.
    fold Scraper.re_tossChoice in H.
    destruct (Regex.match_ true Scraper.re_tossChoice tossText) as [a |].
    + right. destruct H as (word & Hfirst & Hg). exists word.
      split; [done |]. rewrite Hg. split; [done |].
      destruct Hfirst as (_ & _ & _ & _ & _ & Hne & _). by destruct word.
    + by left.
  - pose proof (tossWinner_match_spec tossText) as H.
    destruct (Regex.match_ true Scraper.re_tossWinner tossText) as [a |].
    + right. destruct H as (winner & Hshort & Hg). by rewrite Hg.
    + by left.
Qed.

End TossFacts.

Lemma C9_toss_fields_from_patterns_witness :
  let sentence := "India won the toss and opt to Bowl" in
  let info := Scraper.parseMatchInfoHtml (tossRow sentence)
                nat String.length "<html></html>" in
  let blank := Scraper.parseMatchInfoHtml (λ _, [("Venue", "Eden Gardens")])
                 nat String.length "<html></html>" in
  (∃ word, first_run_after true "opt to " JS.isWord sentence word
           ∧ Scraper.Info.tossChoice info = JS.toLowerCase word
           ∧ Scraper.Info.tossChoice info ≠ EmptyString)
  ∧ shortest_winner sentence (Scraper.Info.tossWinner info)
  ∧ Scraper.Info.tossChoice blank = EmptyString
  ∧ Scraper.Info.tossWinner blank = EmptyString.
Proof.
  intros sentence info blank.
  destruct (C9_toss_fields_from_patterns (tossRow sentence) nat String.length
              "<html></html>") as (_ & _ & _ & Hchoice & Hwinner).
  destruct (C9_toss_fields_from_patterns (λ _, [("Venue", "Eden Gardens")])
              nat String.length "<html></html>") as (_ & _ & Hblank & _).
  split; [| split].
  - destruct Hchoice as [[Hno _] | H]; [| exact H].
    exfalso. apply (Hno "India won the toss and ").
    exists "opt to ", "Bowl". split; [reflexivity |].
    split; [| reflexivity]. repeat constructor.
  - destruct Hwinner as [[Hno _] | H]; [| exact H].
    exfalso. apply (Hno "India").
    exists " ", "won the toss", " and opt to Bowl".
    split; [reflexivity |]. split; [done |]. split; [repeat constructor |].
    split; [done |]. split; repeat constructor.
  - by apply Hblank.
Defined.

(** The toss sentence as the site words it. *)
Lemma toss_fixture :
  let info := Scraper.parseMatchInfoHtml
                (tossRow "India Women won the toss and opt to Bowl")
                nat String.length EmptyString in
  Scraper.Info.tossWinner info = "India Women"
  ∧ Scraper.Info.tossChoice info = "bowl".
Proof. by vm_compute. Qed.

(** C9, as stated, fails: the word after [opt to] is passed on whatever it
    is, and it is read even from a sentence that names no toss winner. *)
Lemma C9_toss_choice_any_word :
  ¬ (∀ (factsRows : string → list (string * string)) (html : string),
       let info := Scraper.parseMatchInfoHtml factsRows nat String.length html in
       Scraper.Info.tossChoice info = "bat"
       ∨ Scraper.Info.tossChoice info = "bowl"
       ∨ Scraper.Info.tossChoice info = EmptyString)
  ∧ (let info := Scraper.parseMatchInfoHtml (tossRow "Elected: opt to bat")
                   nat String.length EmptyString in
     Scraper.Info.tossWinner info = EmptyString
     ∧ Scraper.Info.tossChoice info = "bat").
Proof.
  split; [| by vm_compute].
  intros H.
  specialize (H (tossRow "Sharks won the toss and opt to field") EmptyString).
  vm_compute in H. by destruct H as [H | [H | H]].
Qed.

(* ===================================================================== *)
(** * Further properties of the code *)
(* ===================================================================== *)

(** ** The cache store: keys, overwriting, eviction, statistics *)

Section CacheMore.
Context {V : Type}.
Implicit Types (store : Cache.t V) (key : string) (v : V).

Lemma get_store_other now key key' store :
  key ≠ key' → (Cache.get now key store).1 !! key' = store !! key'.
Proof.
  intros Hne. unfold Cache.get.
  destruct (store !! key) as [e |]; [| done].
  destruct (now >? Cache.expiresAt e); [| done].
  simpl. by apply lookup_delete_ne.
Qed.

Lemma get_result_ext now key store store' :
  store !! key = store' !! key →
  (Cache.get now key store).2 = (Cache.get now key store').2.
Proof.
  intros H. unfold Cache.get. rewrite H.
  destruct (store' !! key) as [e |]; [| done].
  by destruct (now >? Cache.expiresAt e).
Qed.

Lemma age_ext now key store store' :
  store !! key = store' !! key →
  Cache.age now key store = Cache.age now key store'.
Proof. intros H. unfold Cache.age. by rewrite H. Qed.

(** X1. What [set], [get] (with its eviction) and [delete] do to one key
    changes neither the entry that [get] returns for another key nor the
    age that [age] reports for it. *)
Theorem X1_cache_keys_independent key key' store now :
  key ≠ key' →
  (∀ now_e now_c v ttl,
     (Cache.get now key' (Cache.set now_e now_c key v ttl store)).2
       = (Cache.get now key' store).2
     ∧ Cache.age now key' (Cache.set now_e now_c key v ttl store)
       = Cache.age now key' store)
  ∧ (∀ t, (Cache.get now key' (Cache.get t key store).1).2
            = (Cache.get now key' store).2
          ∧ Cache.age now key' (Cache.get t key store).1
            = Cache.age now key' store)
  ∧ (Cache.get now key' (Cache.delete key store)).2
      = (Cache.get now key' store).2.
Proof.
  intros Hne. split; [| split].
  - intros now_e now_c v ttl.
    pose proof (lookup_set_ne now_e now_c key key' v ttl store Hne) as Hl.
    split; [by apply get_result_ext | by apply age_ext].
  - intros t. pose proof (get_store_other t key key' store Hne) as Hl.
    split; [by apply get_result_ext | by apply age_ext].
  - apply get_result_ext. unfold Cache.delete. by apply lookup_delete_ne.
Qed.

(** X2. [set] overwrites without merging: after two [set] on a key the
    store is the one the second [set] alone gives, and the entry lives by
    the second TTL, whatever had become of the first. *)
Theorem X2_set_overwrites key store v1 ttl1 e1 c1 v2 ttl2 e2 c2 :
  let store2 := Cache.set e2 c2 key v2 ttl2 (Cache.set e1 c1 key v1 ttl1 store) in
  store2 = Cache.set e2 c2 key v2 ttl2 store
  ∧ (∀ now, now ≤ e2 + ttl2 * 1000 →
       (Cache.get now key store2).2 = Some (Cache.Entry v2 (e2 + ttl2 * 1000) c2))
  ∧ (∀ now, e2 + ttl2 * 1000 < now → (Cache.get now key store2).2 = None).
Proof.
  intros store2.
  assert (Heq : store2 = Cache.set e2 c2 key v2 ttl2 store)
    by (unfold store2, Cache.set; apply insert_insert_eq).
  split; [done |]. rewrite Heq. split; intros now Hnow.
  - by rewrite (get_fresh now key _ _ (lookup_set _ _ _ _ _ _)).
  - by rewrite (get_expired now key _ _ (lookup_set _ _ _ _ _ _)).
Qed.

(** X3. [get] never hands out an expired entry: what it returns is the
    resident entry, not past its expiry, and the store is left as it was.
    A miss is final: once [get] has returned [null] for a key, every
    [get] of the key on the resulting store returns [null] too, at any
    clock reading. *)
Theorem X3_get_sound_and_miss_final now key store :
  (∀ e, (Cache.get now key store).2 = Some e →
     store !! key = Some e ∧ now ≤ Cache.expiresAt e
     ∧ (Cache.get now key store).1 = store)
  ∧ ((Cache.get now key store).2 = None →
     ∀ now', Cache.get now' key (Cache.get now key store).1
             = ((Cache.get now key store).1, None)).
Proof.
  destruct (store !! key) as [e |] eqn:He;
    [destruct (Z_lt_le_dec (Cache.expiresAt e) now) as [Hgt | Hle] |].
  - rewrite (get_expired now key store e He Hgt). simpl.
    split; [done |]. intros _ now'. apply get_miss, lookup_delete_eq.
  - rewrite (get_fresh now key store e He Hle). simpl.
    split; [| done]. by intros e' [= <-].
  - rewrite (get_miss now key store He). simpl.
    split; [done |]. intros _ now'. by apply get_miss.
Qed.

(** X4. A TTL that is not positive: with a negative TTL the entry is
    never returned by a [get] made at or after the [set]; with a TTL of
    zero it is returned at the very millisecond of the [set] and not
    after. *)
Theorem X4_nonpositive_ttl key v ttl now_e now_c store now :
  now_e ≤ now →
  (ttl < 0 → (Cache.get now key (Cache.set now_e now_c key v ttl store)).2 = None)
  ∧ (ttl = 0 →
     (now = now_e →
      (Cache.get now key (Cache.set now_e now_c key v ttl store)).2
        = Some (Cache.Entry v now_e now_c))
     ∧ (now_e < now →
        (Cache.get now key (Cache.set now_e now_c key v ttl store)).2 = None)).
Proof.
  intros Hnow. split; [| split].
  - intros Httl.
    by rewrite (get_expired now key _ _ (lookup_set _ _ _ _ _ _))
      by (simpl; lia).
  - intros ->.
    rewrite (get_fresh now_e key _ _ (lookup_set _ _ _ _ _ _)) by (simpl; lia).
    simpl. do 2 f_equal. lia.
  - intros Hlt.
    by rewrite (get_expired now key _ _ (lookup_set _ _ _ _ _ _))
      by (simpl; lia).
Qed.

(** X5. After [flush] nothing is left: every [get], [has] and [age]
    misses and [stats] counts nothing.  After [delete(k)] the key misses
    and the other keys keep their entries. *)
Theorem X5_flush_and_delete now key store :
  Cache.get now key (Cache.flush store) = (∅, None)
  ∧ (Cache.has now key (Cache.flush store)).2 = false
  ∧ Cache.age now key (Cache.flush store) = None
  ∧ Cache.stats now (Cache.flush store) = (0%nat, 0%nat)
  ∧ Cache.get now key (Cache.delete key store) = (Cache.delete key store, None)
  ∧ (∀ key', key ≠ key' → Cache.delete key store !! key' = store !! key').
Proof.
  unfold Cache.flush, Cache.has, Cache.delete.
  rewrite (get_miss now key ∅) by apply lookup_empty.
  split; [done |]. split; [done |].
  split; [apply age_absent, lookup_empty |].
  split.
  { unfold Cache.stats. by rewrite map_size_empty, map_to_list_empty. }
  split; [apply get_miss, lookup_delete_eq |].
  intros key' Hne. by apply lookup_delete_ne.
Qed.

(** X6. [stats]: the active entries are among the resident ones; an entry
    that has expired stays in [total] until a [get] of its key evicts it,
    which takes one off [total] and leaves [active] alone. *)
Theorem X6_stats_total_and_active now key store :
  ((Cache.stats now store).2 ≤ (Cache.stats now store).1)%nat
  ∧ (∀ e, store !! key = Some e → Cache.expiresAt e < now →
       S (Cache.stats now (Cache.get now key store).1).1
         = (Cache.stats now store).1
       ∧ (Cache.stats now (Cache.get now key store).1).2
         = (Cache.stats now store).2).
Proof.
  split.
  - unfold Cache.stats. simpl.
    rewrite <- (length_map_to_list store). apply length_filter.
  - intros e He Hexp. rewrite (get_expired now key store e He Hexp).
    unfold Cache.stats. simpl.
    pose proof (map_to_list_delete store key e He) as Hperm.
    split.
    + rewrite <- !length_map_to_list, <- Hperm. done.
    + rewrite <- Hperm. rewrite filter_cons_False; [done |]. simpl. lia.
Qed.

(** X7. [age]: zero at the clock reading that [set] stored, never
    decreasing as the clock advances, not negative from that reading on,
    and less than a second short of the elapsed time. *)
Theorem X7_age_resets_and_grows key v ttl now_e now_c store now now' :
  let store1 := Cache.set now_e now_c key v ttl store in
  Cache.age now_c key store1 = Some 0
  ∧ (now ≤ now' →
     ∃ a a', Cache.age now key store1 = Some a
             ∧ Cache.age now' key store1 = Some a' ∧ a ≤ a')
  ∧ (now_c ≤ now →
     ∃ a, Cache.age now key store1 = Some a
          ∧ 0 ≤ a ∧ a * 1000 ≤ now - now_c < (a + 1) * 1000).
Proof.
  intros store1.
  assert (Hage : ∀ t, Cache.age t key store1 = Some ((t - now_c) / 1000)).
  { intros t. unfold store1.
    by rewrite (age_resident t key _ _ (lookup_set _ _ _ _ _ _)). }
  split; [| split].
  - rewrite Hage. by replace (now_c - now_c) with 0 by lia.
  - intros Hle. eexists _, _. split; [apply Hage |]. split; [apply Hage |].
    apply Z.div_le_mono; lia.
  - intros Hle. eexists. split; [apply Hage |].
    pose proof (Z.div_mod (now - now_c) 1000 ltac:(lia)) as Hdm.
    pose proof (Z.mod_pos_bound (now - now_c) 1000 ltac:(lia)) as Hm.
    split; [apply Z.div_pos; lia | lia].
Qed.

End CacheMore.

Lemma X1_cache_keys_independent_witness :
  let store := Cache.set 0 0 "upcomingMatches" 5%nat 300 Cache.empty in
  (Cache.get 1000 "upcomingMatches"
     (Cache.set 1000 1000 "currentMatches" 7%nat 30 store)).2
  = (Cache.get 1000 "upcomingMatches" store).2.
Proof.
  intros store.
  apply (X1_cache_keys_independent "currentMatches" "upcomingMatches" store
           1000 ltac:(done)).
Defined.

Lemma X2_set_overwrites_witness :
  let store2 := Cache.set 50000 50000 "currentMatches" 8%nat 30
                  (Cache.set 0 0 "currentMatches" 7%nat 30 Cache.empty) in
  (Cache.get 60000 "currentMatches" store2).2
    = Some (Cache.Entry 8%nat 80000 50000)
  ∧ (Cache.get 80001 "currentMatches" store2).2 = None.
Proof.
  intros store2.
  destruct (X2_set_overwrites "currentMatches" Cache.empty
              7%nat 30 0 0 8%nat 30 50000 50000) as (_ & Hfresh & Hexp).
  split; [apply (Hfresh 60000); lia | apply (Hexp 80001); lia].
Defined.

Lemma X3_get_sound_and_miss_final_witness :
  let store := Cache.set 0 0 "scorecard:1" 7%nat 30 Cache.empty in
  Cache.get 0 "scorecard:1" (Cache.get 30001 "scorecard:1" store).1
  = ((Cache.get 30001 "scorecard:1" store).1, None).
Proof.
  intros store.
  apply (X3_get_sound_and_miss_final 30001 "scorecard:1" store).
  unfold store.
  by rewrite (get_expired 30001 _ _ _ (lookup_set _ _ _ _ _ _)).
Defined.

Lemma X4_nonpositive_ttl_witness :
  (Cache.get 1000 "k" (Cache.set 1000 1000 "k" 7%nat (-1) Cache.empty)).2 = None
  ∧ (Cache.get 1000 "k" (Cache.set 1000 1000 "k" 7%nat 0 Cache.empty)).2
    = Some (Cache.Entry 7%nat 1000 1000)
  ∧ (Cache.get 1001 "k" (Cache.set 1000 1000 "k" 7%nat 0 Cache.empty)).2 = None.
Proof.
  destruct (X4_nonpositive_ttl "k" 7%nat (-1) 1000 1000 Cache.empty 1000
              ltac:(lia)) as [Hneg _].
  destruct (X4_nonpositive_ttl "k" 7%nat 0 1000 1000 Cache.empty 1000
              ltac:(lia)) as [_ Hzero].
  destruct (X4_nonpositive_ttl "k" 7%nat 0 1000 1000 Cache.empty 1001
              ltac:(lia)) as [_ Hlater].
  split; [apply Hneg; lia |].
  split; [apply (Hzero eq_refl); lia | apply (Hlater eq_refl); lia].
Defined.

Lemma X5_flush_and_delete_witness :
  let store := Cache.set 0 0 "upcomingMatches" 5%nat 300 Cache.empty in
  Cache.delete "currentMatches" store !! "upcomingMatches"
  = store !! "upcomingMatches".
Proof.
  intros store.
  by apply (X5_flush_and_delete 0 "currentMatches" store).
Defined.

Lemma X6_stats_total_and_active_witness :
  let store := Cache.set 0 0 "scorecard:1" 7%nat 30 Cache.empty in
  S (Cache.stats 30001 (Cache.get 30001 "scorecard:1" store).1).1
    = (Cache.stats 30001 store).1
  ∧ (Cache.stats 30001 (Cache.get 30001 "scorecard:1" store).1).2
    = (Cache.stats 30001 store).2.
Proof.
  intros store.
  apply (X6_stats_total_and_active 30001 "scorecard:1" store)
    with (e := Cache.Entry 7%nat 30000 0).
  - apply lookup_set.
  - simpl. lia.
Defined.

Lemma X7_age_resets_and_grows_witness :
  let store1 := Cache.set 1000 1000 "currentMatches" 7%nat 30 Cache.empty in
  (∃ a a', Cache.age 2500 "currentMatches" store1 = Some a
           ∧ Cache.age 9000 "currentMatches" store1 = Some a' ∧ a ≤ a')
  ∧ (∃ a, Cache.age 2500 "currentMatches" store1 = Some a
          ∧ 0 ≤ a ∧ a * 1000 ≤ 2500 - 1000 < (a + 1) * 1000).
Proof.
  intros store1.
  destruct (X7_age_resets_and_grows "currentMatches" 7%nat 30 1000 1000
              Cache.empty 2500 9000) as (_ & Hmono & Hfloor).
  split; [apply Hmono; lia | apply Hfloor; lia].
Defined.

(** ** The refresh strategies: success, status, order *)

Section RefreshMore.

Variable getCurrentMatches : Scraper.io MatchList.
Variable getMatches : Scraper.io MatchList.
Variable LIVE_TTL : Z.
Variable UPCOMING_TTL : Z.

Local Abbreviation pollCurrentMatches :=
  (Poller.pollCurrentMatches getCurrentMatches LIVE_TTL).
Local Abbreviation pollUpcomingMatches :=
  (Poller.pollUpcomingMatches getMatches UPCOMING_TTL).
Local Abbreviation run :=
  (Poller.run getCurrentMatches getMatches LIVE_TTL UPCOMING_TTL).

(** X8. A refresh of [currentMatches] that succeeds makes the fetched
    list the one [get] returns until [LIVE_TTL] seconds after the write,
    records the time of the success, and leaves the other cache keys and
    an earlier error message as they were: a success does not clear
    [lastError]. *)
Theorem X8_successful_refresh_serves_data up now_e now_c now_s w fetched :
  (getCurrentMatches up).2 = Ok fetched →
  let w' := (pollCurrentMatches up now_e now_c now_s w).1 in
  (∀ now, now ≤ now_e + LIVE_TTL * 1000 →
     (Cache.get now "currentMatches" (cache w')).2
       = Some (Cache.Entry fetched (now_e + LIVE_TTL * 1000) now_c))
  ∧ (∀ key, key ≠ "currentMatches" → cache w' !! key = cache w !! key)
  ∧ lastSuccess (poller w') = Some now_s
  ∧ lastError (poller w') = lastError (poller w)
  ∧ pollCount (poller w') = (pollCount (poller w) + 1)%N.
Proof.
  intros Hok w'. unfold w', Poller.pollCurrentMatches. rewrite Hok. simpl.
  split.
  - intros now Hnow.
    by rewrite (get_fresh now _ _ _ (lookup_set _ _ _ _ _ _)).
  - split; [| done]. intros key Hne. by apply lookup_set_ne.
Qed.

Lemma fire_lastError_sticky w t :
  is_Some (lastError (poller w)) →
  is_Some (lastError
             (poller (Poller.fire getCurrentMatches getMatches LIVE_TTL
                        UPCOMING_TTL w t))).
Proof.
  intros Hsome. destruct t as [up ne nc ns | up ne nc]; simpl.
  - unfold Poller.pollCurrentMatches.
    destruct (getCurrentMatches up).2; simpl; [done | by eexists].
  - unfold Poller.pollUpcomingMatches.
    by destruct (getMatches up).2.
Qed.

Lemma fire_pollCount w t :
  pollCount (poller (Poller.fire getCurrentMatches getMatches LIVE_TTL
                       UPCOMING_TTL w t))
  = (pollCount (poller w)
     + match t with Poller.Live _ _ _ _ => 1 | Poller.Upcoming _ _ _ => 0 end)%N.
Proof.
  destruct t as [up ne nc ns | up ne nc]; simpl.
  - unfold Poller.pollCurrentMatches. by destruct (getCurrentMatches up).2.
  - unfold Poller.pollUpcomingMatches.
    destruct (getMatches up).2; simpl; lia.
Qed.

(** X9. Over any run of scheduled refreshes, [pollCount] grows by the
    number of [currentMatches] refreshes, failed or not, and by nothing
    for [upcomingMatches] refreshes; and once an error message has been
    recorded the status snapshot never goes back to having none. *)
Theorem X9_poll_count_and_sticky_error (ticks : list Poller.tick) (w : world) :
  pollCount (poller (run ticks w))
  = (pollCount (poller w)
     + N.of_nat (length (List.filter
                           (λ t, match t with
                                 | Poller.Live _ _ _ _ => true
                                 | Poller.Upcoming _ _ _ => false
                                 end) ticks)))%N
  ∧ (is_Some (lastError (poller w)) →
     is_Some (lastError (poller (run ticks w)))).
Proof.
  revert w. induction ticks as [| t ticks IH]; intros w.
  - simpl. split; [lia | done].
  - unfold Poller.run in *. simpl.
    destruct (IH (Poller.fire getCurrentMatches getMatches LIVE_TTL
                    UPCOMING_TTL w t)) as [Hcount Hsticky].
    split.
    + rewrite Hcount, fire_pollCount. destruct t; simpl; lia.
    + intros Hsome. by apply Hsticky, fire_lastError_sticky.
Qed.

(** X10. The two refreshes that [start] launches together write
    different keys and different status fields: whichever completes
    first, the resulting state is the same. *)
Theorem X10_refresh_order_irrelevant up up' e c s e' c' (w : world) :
  run [Poller.Live up e c s; Poller.Upcoming up' e' c'] w
  = run [Poller.Upcoming up' e' c'; Poller.Live up e c s] w.
Proof.
  unfold Poller.run. simpl.
  unfold Poller.pollCurrentMatches, Poller.pollUpcomingMatches.
  destruct (getCurrentMatches up).2 as [cur | m];
    destruct (getMatches up').2 as [upc | m']; simpl; try done.
  f_equal. unfold Cache.set. by apply insert_insert_ne.
Qed.

(** X11. The scheduled and the on-demand strategy leave the same state
    behind a refresh: they differ only in how the promise of a failed
    refresh settles, and the warm-up of the on-demand [start] leaves no
    rejected promise. *)
Theorem X11_strategies_share_state up now_e now_c now_s now_e' now_c' w :
  (OnDemand.fetchCurrentMatches getCurrentMatches LIVE_TTL
     up now_e now_c now_s w).1
  = (pollCurrentMatches up now_e now_c now_s w).1
  ∧ (OnDemand.fetchUpcomingMatches getMatches UPCOMING_TTL up now_e now_c w).1
    = (pollUpcomingMatches up now_e now_c w).1
  ∧ OnDemand.start getCurrentMatches getMatches LIVE_TTL UPCOMING_TTL
      up now_e now_c now_s now_e' now_c' w
    = (Poller.start getCurrentMatches getMatches LIVE_TTL UPCOMING_TTL
         up now_e now_c now_s now_e' now_c' w, [Ok tt; Ok tt]).
Proof.
  assert (H1 : ∀ w0, (OnDemand.fetchCurrentMatches getCurrentMatches LIVE_TTL
                        up now_e now_c now_s w0).1
                     = (pollCurrentMatches up now_e now_c now_s w0).1).
  { intros w0.
    unfold OnDemand.fetchCurrentMatches, Poller.pollCurrentMatches.
    by destruct (getCurrentMatches up).2. }
  assert (H2 : ∀ e c w0, (OnDemand.fetchUpcomingMatches getMatches UPCOMING_TTL
                            up e c w0).1
                         = (pollUpcomingMatches up e c w0).1).
  { intros e c w0.
    unfold OnDemand.fetchUpcomingMatches, Poller.pollUpcomingMatches.
    by destruct (getMatches up).2. }
  split; [apply H1 |]. split; [apply H2 |].
  unfold OnDemand.start, OnDemand.catch, Poller.start, Poller.run. simpl.
  by rewrite H1, H2.
Qed.

End RefreshMore.

Lemma X8_successful_refresh_serves_data_witness :
  let api := Scraper.ret {| data := [only_id "1"] |} in
  let up := λ _ : string, Scraper.HttpResponse 200 EmptyString in
  let w' := (Poller.pollCurrentMatches api 30 up 1000 1000 1001 initial).1 in
  (Cache.get 31000 "currentMatches" (cache w')).2
    = Some (Cache.Entry {| data := [only_id "1"] |} 31000 1000)
  ∧ lastSuccess (poller w') = Some 1001.
Proof.
  intros api up w'.
  destruct (X8_successful_refresh_serves_data api 30 up 1000 1000 1001 initial
              {| data := [only_id "1"] |} eq_refl) as (Hget & _ & Hs & _).
  split; [apply Hget; lia | exact Hs].
Defined.

Lemma X9_poll_count_and_sticky_error_witness :
  let working := Scraper.ret {| data := [] |} in
  let up := λ _ : string, Scraper.HttpResponse 200 EmptyString in
  let w := World (Snapshot 0 None (Some "network timeout")) Cache.empty in
  is_Some (lastError
             (poller (Poller.run working working 30 300
                        [Poller.Live up 0 0 0; Poller.Upcoming up 0 0] w))).
Proof.
  intros working up w.
  apply (X9_poll_count_and_sticky_error working working 30 300). by eexists.
Defined.

(** ** The route handlers *)

Lemma get_Some_inv {V} now key (store store' : Cache.t V) e :
  Cache.get now key store = (store', Some e) →
  store' = store ∧ store !! key = Some e ∧ now ≤ Cache.expiresAt e.
Proof.
  unfold Cache.get. destruct (store !! key) as [e0 |]; [| done].
  destruct (Z.gtb_spec now (Cache.expiresAt e0)); [done |].
  intros [= <- <-]. split; [done |]. split; [done | lia].
Qed.

Lemma get_None_lookup {V} now key (store store' : Cache.t V) :
  Cache.get now key store = (store', None) → store' !! key = None.
Proof.
  unfold Cache.get. destruct (store !! key) as [e0 |] eqn:He.
  - destruct (now >? Cache.expiresAt e0); [| done].
    intros [= <-]. apply lookup_delete_eq.
  - by intros [= <-].
Qed.

(** The two reads that open the handlers of the match lists, told apart:
    each returns what a [get] on the store found on entry returns, and the
    age of [currentMatches] read afterwards is that of the entry
    returned. *)
Lemma two_gets now1 now2 now3 (store : Cache.t MatchList) :
  let c := (Cache.get now1 "currentMatches" store).2 in
  let u := (Cache.get now2 "upcomingMatches" store).2 in
  ∃ store2,
    Cache.get now2 "upcomingMatches" (Cache.get now1 "currentMatches" store).1
    = (store2, u)
    ∧ Cache.age now3 "currentMatches" store2
      = (λ e, (now3 - Cache.cachedAt e) / 1000) <$> c.
Proof.
  intros c u.
  destruct (Cache.get now1 "currentMatches" store) as [store1 current] eqn:H1.
  destruct (Cache.get now2 "upcomingMatches" store1) as [store2 upcoming] eqn:H2.
  assert (H1s : store1 = (Cache.get now1 "currentMatches" store).1)
    by (by rewrite H1).
  assert (H2s : store2 = (Cache.get now2 "upcomingMatches" store1).1)
    by (by rewrite H2).
  exists store2. simpl. split.
  - rewrite H2. f_equal. unfold u.
    transitivity (Cache.get now2 "upcomingMatches" store1).2;
      [by rewrite H2 |].
    apply get_result_ext. rewrite H1s. by apply get_store_other.
  - assert (Hl : store2 !! "currentMatches" = store1 !! "currentMatches")
      by (rewrite H2s; by apply get_store_other).
    unfold c. simpl. unfold Cache.age. rewrite Hl.
    destruct current as [e |].
    + apply get_Some_inv in H1 as (-> & He & _). by rewrite He.
    + by rewrite (get_None_lookup _ _ _ _ H1).
Qed.

(** X12. The combined list is refused, with status 503, exactly when
    neither [currentMatches] nor [upcomingMatches] has an entry that is
    still valid; otherwise the reply is the merge of the valid entries.
    The age sent is that of the [currentMatches] entry, and none (header
    [X-Cache-Hit: false]) exactly when the reply rests on upcoming data
    alone. *)
Theorem X12_matches_route now1 now2 now3 (store : Cache.t MatchList) :
  let c := (Cache.get now1 "currentMatches" store).2 in
  let u := (Cache.get now2 "upcomingMatches" store).2 in
  let reply := (Routes.getMatches now1 now2 now3 store).2 in
  ((∃ message, reply = Routes.Unavailable message) ↔ c = None ∧ u = None)
  ∧ (∀ served age, reply = Routes.SendCached served age →
       served = Routes.merge (Routes.dataOf c) (Routes.dataOf u)
       ∧ age = (λ e, (now3 - Cache.cachedAt e) / 1000) <$> c
       ∧ (age = None ↔ c = None)).
Proof.
  intros c u reply.
  destruct (two_gets now1 now2 now3 store) as (store2 & Hu & Hage).
  fold c in Hage. fold u in Hu.
  unfold reply, Routes.getMatches.
  destruct (Cache.get now1 "currentMatches" store) as [store1 current] eqn:H1.
  simpl in Hu. rewrite Hu. subst c. simpl in *.
  destruct current as [e |], u as [e' |]; simpl; rewrite ?Hage; simpl.
  - split; [split; [by intros [? ?] | by intros [? ?]] |].
    intros served age [= <- <-]. done.
  - split; [split; [by intros [? ?] | by intros [? ?]] |].
    intros served age [= <- <-]. done.
  - split; [split; [by intros [? ?] | by intros [? ?]] |].
    intros served age [= <- <-]. done.
  - split; [split; [done | by eexists] |]. done.
Qed.

(** X13. The live list is refused, with status 503, exactly when
    [currentMatches] has no valid entry.  Otherwise it holds, in the order
    of the cached list, the records that have started and not ended, and
    no other; the reply always counts as a cache hit, with the age of the
    entry. *)
Theorem X13_live_route now1 now2 (store : Cache.t MatchList) :
  let c := (Cache.get now1 "currentMatches" store).2 in
  let reply := (Handlers.matchesLive now1 now2 store).2 in
  (c = None ↔ reply = Handlers.Failure 503 "Not ready yet")
  ∧ (∀ e, c = Some e →
       ∃ live,
         reply = Handlers.Success
                   (Handlers.Sent live ((now2 - Cache.cachedAt e) / 1000) true)
         ∧ sublist live (data (Cache.value e))
         ∧ (∀ m, m ∈ live ↔
                 m ∈ data (Cache.value e)
                 ∧ Match.matchStarted m = true ∧ Match.matchEnded m = false)).
Proof.
  intros c reply. unfold reply, c, Handlers.matchesLive.
  destruct (Cache.get now1 "currentMatches" store) as [store1 [e |]] eqn:H1;
    simpl.
  - split; [done |]. intros e' [= <-].
    apply get_Some_inv in H1 as (-> & He & _).
    rewrite (age_resident now2 _ _ _ He). simpl.
    eexists. split; [reflexivity |]. split.
    + induction (data (Cache.value e)) as [| m l IH]; simpl; [done |].
      destruct (Handlers.isLive m); [by apply sublist_skip | by apply sublist_cons].
    + intros m. rewrite list_elem_of_In, filter_In, <- list_elem_of_In.
      unfold Handlers.isLive. rewrite andb_true_iff, negb_true_iff. tauto.
  - split; [done |]. done.
Qed.

Lemma X13_live_route_witness :
  let started := Match.Make "1" EmptyString "t20" "Live" EmptyString true false
                   [] [] [] in
  let store := Cache.set 0 0 "currentMatches"
                 {| data := [started; only_id "2"] |} 30 Cache.empty in
  ∃ live,
    (Handlers.matchesLive 5000 5000 store).2
    = Handlers.Success (Handlers.Sent live 5 true)
    ∧ sublist live [started; only_id "2"].
Proof.
  intros started store.
  destruct (X13_live_route 5000 5000 store) as [_ H].
  destruct (H (Cache.Entry {| data := [started; only_id "2"] |} 30000 0))
    as (live & Hreply & Hsub & _).
  - unfold store. by rewrite (get_fresh 5000 _ _ _ (lookup_set _ _ _ _ _ _)).
  - exists live. split; [exact Hreply | exact Hsub].
Defined.

Lemma X12_matches_route_witness :
  let store := Cache.set 0 0 "upcomingMatches" {| data := [only_id "3"] |} 300
                 Cache.empty in
  [only_id "3"]
  = Routes.merge
      (Routes.dataOf (Cache.get 1000 "currentMatches" store).2)
      (Routes.dataOf (Cache.get 1000 "upcomingMatches" store).2)
  ∧ (Cache.get 1000 "currentMatches" store).2 = None.
Proof.
  intros store.
  destruct (X12_matches_route 1000 1000 1000 store) as [_ H].
  destruct (H [only_id "3"] None) as (Hserved & _ & Hage); [by vm_compute |].
  split; [exact Hserved | by apply Hage].
Defined.

Lemma live_not_ended s :
  s ∈ Scraper.LIVE_STATES → s ∉ Scraper.ENDED_STATES.
Proof.
  rewrite live_states_spec, ended_states_spec, !elem_of_cons, !elem_of_nil.
  intros Hl He.
  repeat (destruct Hl as [-> | Hl];
          [repeat (destruct He as [He | He]; [discriminate He |]); done |]).
  done.
Qed.

(** X14. Every record that [normalizeMatch] builds keeps the flags in
    step with the state text: ended implies started, and the record
    passes the filter of the live list exactly when its lower-cased
    state is one of the ten live words (a record without a state never
    does). *)
Theorem X14_normalized_flags toISOString matchInfo matchScore slug m :
  Scraper.normalizeMatch toISOString matchInfo matchScore slug = Ok m →
  let s := JS.toLowerCase
             (default EmptyString
                (Scraper.stateText (Scraper.state matchInfo))) in
  (Match.matchEnded m = true → Match.matchStarted m = true)
  ∧ (Handlers.isLive m = true ↔
     s ∈ ["in progress"; "innings break"; "strategic timeout"; "rain";
          "bad light"; "stumps"; "drinks"; "tea"; "lunch"; "in break"])
  ∧ (Scraper.state matchInfo = Scraper.Absent →
     Match.matchStarted m = false ∧ Match.matchEnded m = false).
Proof.
  unfold Scraper.normalizeMatch.
  destruct (Scraper.state matchInfo) as [| | st]; [| done |];
    (destruct (match Scraper.startDate matchInfo with
               | Some d => _ | None => _ end) as [date | e]; [| done]);
    intros [= <-]; unfold Handlers.isLive, Scraper.parseState; simpl;
    rewrite <- live_states_spec;
    (split; [| split]);
    [ by intros -> | | by vm_compute | by intros -> | | done ];
    rewrite andb_true_iff, orb_true_iff, negb_true_iff, !bool_decide_eq_true,
      bool_decide_eq_false;
    (split; [tauto |]); intros Hl; pose proof (live_not_ended _ Hl); tauto.
Qed.

Lemma X14_normalized_flags_witness :
  Handlers.isLive <$> match Scraper.normalizeMatch (λ _, Err "Invalid time value")
                              sampleInfo None EmptyString with
                      | Ok m => Some m
                      | Err _ => None
                      end = Some true.
Proof.
  destruct (Scraper.normalizeMatch _ sampleInfo None EmptyString)
    as [m | e] eqn:Hm; [| by vm_compute in Hm].
  destruct (X14_normalized_flags _ _ _ _ _ Hm) as (_ & Hlive & _).
  simpl. f_equal. apply Hlive.
  refine (bool_decide_unpack _ _). by vm_compute.
Defined.

Lemma find_first_with id (l : list Match.t) :
  List.find (λ m, String.eqb (Match.id m) id) l = first_with id l.
Proof.
  unfold first_with. induction l as [| m l IH]; simpl; [done |].
  rewrite IH. destruct (String.eqb_spec (Match.id m) id) as [Heq | Hne].
  - by rewrite bool_decide_eq_true_2.
  - by rewrite bool_decide_eq_false_2.
Qed.

(** X15. The score of a match is refused, with status 404, exactly when
    no valid cache entry lists its id; otherwise the reply is taken from
    the first record with that id in the current list followed by the
    upcoming one, the very record that the combined list serves under
    that id, with the age of the [currentMatches] entry, or no age when
    there is none. *)
Theorem X15_score_route id now1 now2 now3 (store : Cache.t MatchList) :
  let c := (Cache.get now1 "currentMatches" store).2 in
  let u := (Cache.get now2 "upcomingMatches" store).2 in
  let served := Routes.merge (Routes.dataOf c) (Routes.dataOf u) in
  let reply := (Handlers.matchScore id now1 now2 now3 store).2 in
  reply = match first_with id served with
          | None => Handlers.Failure 404 "Match not found in cache"
          | Some m =>
              Handlers.Success
                (Handlers.sendCached
                   (Handlers.ScoreView (Match.score m) (Match.status m)
                      (Match.matchStarted m) (Match.matchEnded m))
                   ((λ e, (now3 - Cache.cachedAt e) / 1000) <$> c))
          end
  ∧ (reply = Handlers.Failure 404 "Match not found in cache" ↔
     id ∉ Match.id <$> Routes.dataOf c ++ Routes.dataOf u).
Proof.
  intros c u served reply.
  destruct (two_gets now1 now2 now3 store) as (store2 & Hu & Hage).
  fold c in Hage. fold u in Hu.
  assert (Hfirst : first_with id served
                   = first_with id (Routes.dataOf c ++ Routes.dataOf u)).
  { unfold served, Routes.merge.
    destruct (merge_loop_spec (Routes.dataOf c ++ Routes.dataOf u) ∅ [])
      as (_ & _ & H).
    - intros x. simpl. rewrite elem_of_empty, elem_of_nil. tauto.
    - simpl. apply NoDup_nil_2.
    - apply H. }
  assert (Hreply : reply = match first_with id served with
          | None => Handlers.Failure 404 "Match not found in cache"
          | Some m =>
              Handlers.Success
                (Handlers.sendCached
                   (Handlers.ScoreView (Match.score m) (Match.status m)
                      (Match.matchStarted m) (Match.matchEnded m))
                   ((λ e, (now3 - Cache.cachedAt e) / 1000) <$> c))
          end).
  { unfold reply, Handlers.matchScore.
    destruct (Cache.get now1 "currentMatches" store) as [store1 current] eqn:H1.
    simpl in Hu. rewrite Hu. subst c. simpl in *.
    rewrite find_first_with, Hfirst, Hage.
    by destruct (first_with id (Routes.dataOf current ++ Routes.dataOf u)). }
  split; [exact Hreply |].
  rewrite Hreply, Hfirst, <- first_with_Some_iff.
  destruct (first_with id (Routes.dataOf c ++ Routes.dataOf u)) as [m |].
  - split; [done |]. intros H. destruct H. by eexists.
  - split; [| done]. intros _ [? ?]. done.
Qed.

Section DetailHandlers.
Context {V S I : Type}.
Variable ofScorecard : S → V.
Variable ofInfo : I → V.
Variable getScorecard : string → Scraper.io S.
Variable getMatchInfo : string → Scraper.io I.
Variable SCORECARD_TTL : Z.
Variable MATCH_INFO_TTL : Z.

Local Abbreviation matchScorecard :=
  (Handlers.matchScorecard ofScorecard getScorecard SCORECARD_TTL).
Local Abbreviation matchInfo :=
  (Handlers.matchInfo ofInfo getMatchInfo MATCH_INFO_TTL).

(** X16. A scorecard request that finds no valid entry downloads the
    page, stores the result under [scorecard:<id>] whatever happened to
    the cache meanwhile, and answers with age 0 and [X-Cache-Hit: true].
    Every request for the same id that reaches the resulting store within
    [SCORECARD_TTL] seconds is answered from it: the same data, its age,
    no request to the site and the store left as it is. *)
Theorem X16_scorecard_miss_then_hit id up now1 now2 now_e now_c meanwhile
    (store : Cache.t V) log fetched :
  (Cache.get now1 ("scorecard:" +:+ id) store).2 = None →
  getScorecard id up = (log, Ok fetched) →
  let first := matchScorecard id up now1 now2 now_e now_c meanwhile store in
  first.1.2 = log
  ∧ first.2 = Handlers.Success (Handlers.Sent (ofScorecard fetched) 0 true)
  ∧ (∀ up' t1 t2 t_e t_c meanwhile',
       t1 ≤ now_e + SCORECARD_TTL * 1000 →
       matchScorecard id up' t1 t2 t_e t_c meanwhile' first.1.1
       = (first.1.1, [],
          Handlers.Success
            (Handlers.Sent (ofScorecard fetched) ((t2 - now_c) / 1000) true))).
Proof.
  intros Hmiss Hfetch first. unfold first, Handlers.matchScorecard.
  destruct (Cache.get now1 _ store) as [store1 cached] eqn:H1.
  simpl in Hmiss. subst cached. rewrite Hfetch. simpl.
  split; [done |]. split; [done |].
  intros up' t1 t2 t_e t_c meanwhile' Ht1.
  rewrite (get_fresh t1 _ _ _ (lookup_set _ _ _ _ _ _)) by (simpl; lia).
  by rewrite (age_resident t2 _ _ _ (lookup_set _ _ _ _ _ _)).
Qed.

(** X17. A failure is not cached.  A detail request whose download
    fails answers with status 500 and the message of the failure and
    leaves no entry for the id, so that the next request for it goes to
    the site again, and succeeds if the site does. *)
Theorem X17_detail_failure_not_cached id up now1 now2 now_e now_c meanwhile
    (store : Cache.t V) :
  (∀ s key, meanwhile s !! key = s !! key) →
  (∀ log message,
     (Cache.get now1 ("scorecard:" +:+ id) store).2 = None →
     getScorecard id up = (log, Err message) →
     let first := matchScorecard id up now1 now2 now_e now_c meanwhile store in
     first.2 = Handlers.Failure 500 message
     ∧ first.1.1 !! ("scorecard:" +:+ id) = None
     ∧ ∀ up' t1 t2 t_e t_c meanwhile',
         let second := matchScorecard id up' t1 t2 t_e t_c meanwhile' first.1.1 in
         second.1.2 = (getScorecard id up').1
         ∧ ∀ fetched, (getScorecard id up').2 = Ok fetched →
             second.2
             = Handlers.Success (Handlers.Sent (ofScorecard fetched) 0 true))
  ∧ (∀ log message,
     (Cache.get now1 ("matchinfo:" +:+ id) store).2 = None →
     getMatchInfo id up = (log, Err message) →
     let first := matchInfo id up now1 now2 now_e now_c meanwhile store in
     first.2 = Handlers.Failure 500 message
     ∧ first.1.1 !! ("matchinfo:" +:+ id) = None
     ∧ ∀ up' t1 t2 t_e t_c meanwhile',
         let second := matchInfo id up' t1 t2 t_e t_c meanwhile' first.1.1 in
         second.1.2 = (getMatchInfo id up').1
         ∧ ∀ fetched, (getMatchInfo id up').2 = Ok fetched →
             second.2
             = Handlers.Success (Handlers.Sent (ofInfo fetched) 0 true)).
Proof.
  intros Hmean. split.
  - intros log message Hmiss Hfetch first.
    unfold first, Handlers.matchScorecard.
    destruct (Cache.get now1 _ store) as [store1 cached] eqn:H1.
    simpl in Hmiss. subst cached. rewrite Hfetch. simpl.
    assert (Hnone : meanwhile store1 !! ("scorecard:" +:+ id) = None)
      by (rewrite Hmean; exact (get_None_lookup _ _ _ _ H1)).
    split; [done |]. split; [done |].
    intros up' t1 t2 t_e t_c meanwhile'.
    rewrite (get_miss t1 _ _ Hnone).
    destruct (getScorecard id up') as [log' [fetched | message']]; simpl.
    + split; [done |]. by intros ? [= <-].
    + split; [done |]. done.
  - intros log message Hmiss Hfetch first.
    unfold first, Handlers.matchInfo.
    destruct (Cache.get now1 _ store) as [store1 cached] eqn:H1.
    simpl in Hmiss. subst cached. rewrite Hfetch. simpl.
    assert (Hnone : meanwhile store1 !! ("matchinfo:" +:+ id) = None)
      by (rewrite Hmean; exact (get_None_lookup _ _ _ _ H1)).
    split; [done |]. split; [done |].
    intros up' t1 t2 t_e t_c meanwhile'.
    rewrite (get_miss t1 _ _ Hnone).
    destruct (getMatchInfo id up') as [log' [fetched | message']]; simpl.
    + split; [done |]. by intros ? [= <-].
    + split; [done |]. done.
Qed.

(** X18. The match-info handler caches like the scorecard handler, under
    [matchinfo:<id>] and for [MATCH_INFO_TTL] seconds: a request that
    finds no valid entry downloads and stores, and every request that
    reaches the resulting store within the TTL is answered from it
    without a request to the site. *)
Theorem X18_info_miss_then_hit id up now1 now2 now_e now_c meanwhile
    (store : Cache.t V) log fetched :
  (Cache.get now1 ("matchinfo:" +:+ id) store).2 = None →
  getMatchInfo id up = (log, Ok fetched) →
  let first := matchInfo id up now1 now2 now_e now_c meanwhile store in
  first.1.2 = log
  ∧ first.2 = Handlers.Success (Handlers.Sent (ofInfo fetched) 0 true)
  ∧ (∀ up' t1 t2 t_e t_c meanwhile',
       t1 ≤ now_e + MATCH_INFO_TTL * 1000 →
       matchInfo id up' t1 t2 t_e t_c meanwhile' first.1.1
       = (first.1.1, [],
          Handlers.Success
            (Handlers.Sent (ofInfo fetched) ((t2 - now_c) / 1000) true)))
  ∧ (∀ up' t1 t2 t_e t_c meanwhile',
       now_e + MATCH_INFO_TTL * 1000 < t1 →
       (matchInfo id up' t1 t2 t_e t_c meanwhile' first.1.1).1.2
       = (getMatchInfo id up').1).
Proof.
  intros Hmiss Hfetch first. unfold first, Handlers.matchInfo.
  destruct (Cache.get now1 _ store) as [store1 cached] eqn:H1.
  simpl in Hmiss. subst cached. rewrite Hfetch. simpl.
  split; [done |]. split; [done |]. split.
  - intros up' t1 t2 t_e t_c meanwhile' Ht1.
    rewrite (get_fresh t1 _ _ _ (lookup_set _ _ _ _ _ _)) by (simpl; lia).
    by rewrite (age_resident t2 _ _ _ (lookup_set _ _ _ _ _ _)).
  - intros up' t1 t2 t_e t_c meanwhile' Ht1.
    rewrite (get_expired t1 _ _ _ (lookup_set _ _ _ _ _ _)) by (simpl; lia).
    by destruct (getMatchInfo id up') as [log' [? | ?]].
Qed.

End DetailHandlers.

Lemma X16_scorecard_miss_then_hit_witness :
  let getScorecard := Scraper.getScorecard nat String.length in
  let up := λ _ : string, Scraper.HttpResponse 200 "<html>" in
  let first := Handlers.matchScorecard (λ n, n) getScorecard 30 "12345~a-vs-b"
                 up 1000 1000 1200 1200 (λ s, s) Cache.empty in
  first.1.2 = ["/live-cricket-scorecard/12345/a-vs-b"]
  ∧ first.2 = Handlers.Success (Handlers.Sent 6%nat 0 true)
  ∧ Handlers.matchScorecard (λ n, n) getScorecard 30 "12345~a-vs-b"
      (λ _, Scraper.NetworkFailure "down") 9000 9200 9300 9300 (λ s, s) first.1.1
    = (first.1.1, [], Handlers.Success (Handlers.Sent 6%nat 8 true)).
Proof.
  intros getScorecard up first.
  destruct (X16_scorecard_miss_then_hit (λ n : nat, n) getScorecard 30
              "12345~a-vs-b" up 1000 1000 1200 1200 (λ s, s) Cache.empty
              ["/live-cricket-scorecard/12345/a-vs-b"] 6%nat eq_refl eq_refl)
    as (Hlog & Hreply & Hagain).
  split; [exact Hlog |]. split; [exact Hreply |].
  apply (Hagain (λ _, Scraper.NetworkFailure "down") 9000 9200 9300 9300
           (λ s, s)). lia.
Defined.

Lemma X17_detail_failure_not_cached_witness :
  let getScorecard := Scraper.getScorecard nat String.length in
  let getMatchInfo := Scraper.getMatchInfo (λ _, []) nat String.length in
  let down := λ _ : string, Scraper.NetworkFailure "network timeout" in
  let back := λ _ : string, Scraper.HttpResponse 200 "<html>" in
  let first := Handlers.matchScorecard (λ n : nat, n) getScorecard 30 "12345"
                 down 1000 1000 1200 1200 (λ s, s) Cache.empty in
  first.2 = Handlers.Failure 500 "network timeout"
  ∧ (Handlers.matchScorecard (λ n : nat, n) getScorecard 30 "12345"
       back 2000 2000 2200 2200 (λ s, s) first.1.1).2
    = Handlers.Success (Handlers.Sent 6%nat 0 true).
Proof.
  intros getScorecard getMatchInfo down back first.
  destruct (X17_detail_failure_not_cached (λ n : nat, n)
              (λ i : string * Scraper.Info.t nat, 0%nat)
              getScorecard getMatchInfo 30 60 "12345"
              down 1000 1000 1200 1200 (λ s, s) Cache.empty
              ltac:(done)) as (Hfail & _).
  destruct (Hfail ["/live-cricket-scorecard/12345"] "network timeout"
              eq_refl eq_refl) as (Hreply & _ & Hretry).
  split; [exact Hreply |].
  apply (Hretry back 2000 2000 2200 2200 (λ s, s)). reflexivity.
Defined.

Lemma X18_info_miss_then_hit_witness :
  let getMatchInfo := Scraper.getMatchInfo (tossRow "A won the toss and opt to bat")
                        nat String.length in
  let up := λ _ : string, Scraper.HttpResponse 200 "<html>" in
  let first := Handlers.matchInfo (λ i : string * Scraper.Info.t nat, i.1)
                 getMatchInfo 60 "12345" up 1000 1000 1200 1200 (λ s, s)
                 Cache.empty in
  first.2 = Handlers.Success (Handlers.Sent "12345" 0 true)
  ∧ Handlers.matchInfo (λ i : string * Scraper.Info.t nat, i.1)
      getMatchInfo 60 "12345" up 61200 61300 0 0 (λ s, s) first.1.1
    = (first.1.1, [], Handlers.Success (Handlers.Sent "12345" 60 true)).
Proof.
  intros getMatchInfo up first.
  edestruct (X18_info_miss_then_hit (λ i : string * Scraper.Info.t nat, i.1)
               getMatchInfo 60 "12345" up 1000 1000 1200 1200 (λ s, s)
               Cache.empty _ _ eq_refl eq_refl)
    as (_ & Hreply & Hagain & _).
  split; [exact Hreply |].
  apply (Hagain up 61200 61300 0 0 (λ s, s)). lia.
Defined.

(** ** JSON extraction: whatever is returned is one balanced object *)

Lemma loop_sound html n0 rest : ∀ seen depth start r,
  list_ascii_of_string html = seen ++ rest →
  (n0 ≤ length seen)%nat →
  (depth ≤ 0 ∧ start = -1
   ∨ 0 < depth
     ∧ ∃ before inner,
         seen = before ++ inner ∧ start = Z.of_nat (length before)
         ∧ (n0 ≤ length before)%nat ∧ inner ≠ []
         ∧ (∀ k, (0 < k ≤ length inner)%nat → 0 < balance (take k inner))
         ∧ balance inner = depth) →
  Scraper.extractJsonAt_loop html rest (Z.of_nat (length seen)) depth start
    = Some r →
  balanced_object r
  ∧ ∃ pre post, html = pre +:+ r +:+ post ∧ (n0 ≤ String.length pre)%nat.
Proof.
  induction rest as [| c rest IH]; intros seen depth start r Hhtml Hn0 Hinv;
    [done |].
  assert (Hhtml' : list_ascii_of_string html = (seen ++ [c]) ++ rest)
    by (by rewrite <- app_assoc).
  assert (Hlen : Z.of_nat (length seen) + 1 = Z.of_nat (length (seen ++ [c])))
    by (rewrite length_app; simpl; lia).
  assert (Hn0' : (n0 ≤ length (seen ++ [c]))%nat)
    by (rewrite length_app; lia).
  assert (Hgrow : ∀ before inner d,
            seen = before ++ inner → inner ≠ [] →
            (∀ k, (0 < k ≤ length inner)%nat → 0 < balance (take k inner)) →
            balance inner = d → 0 < d + brace_weight c →
            seen ++ [c] = before ++ (inner ++ [c]) ∧ inner ++ [c] ≠ []
            ∧ (∀ k, (0 < k ≤ length (inner ++ [c]))%nat →
                 0 < balance (take k (inner ++ [c])))
            ∧ balance (inner ++ [c]) = d + brace_weight c).
  { intros before inner d -> Hne Hpos Hbal Hd.
    split; [by rewrite app_assoc |]. split; [by destruct inner |].
    split; [| rewrite balance_app; simpl; lia].
    intros k Hk. rewrite length_app in Hk. simpl in Hk.
    destruct (decide (k ≤ length inner)%nat) as [Hle | Hgt].
    - rewrite take_app_le by lia. apply Hpos. lia.
    - rewrite take_ge by (rewrite length_app; simpl; lia).
      rewrite balance_app. simpl. lia. }
  assert (Hw : brace_weight c
               = if Ascii.eqb c Scraper.lbrace then 1
                 else if Ascii.eqb c Scraper.rbrace then -1 else 0)
    by reflexivity.
  simpl.
  destruct (Ascii.eqb c Scraper.lbrace) eqn:Hl.
  - (* an opening brace *)
    rewrite Hlen. apply (IH (seen ++ [c])); [done | done |].
    destruct Hinv as [[Hd ->] | (Hd & before & inner & Hs & -> & Hb & Hne & Hpos & Hbal)].
    + destruct (Z.eqb_spec depth 0) as [-> | Hnz].
      * right. split; [lia |]. exists seen, [c].
        split; [done |]. split; [done |]. split; [done |]. split; [done |].
        split; [| simpl; lia].
        intros [| [| k]] Hk; simpl in *; lia.
      * left. split; [lia | done].
    + destruct (Z.eqb_spec depth 0) as [? | _]; [lia |].
      right. split; [lia |]. exists before, (inner ++ [c]).
      destruct (Hgrow before inner depth Hs Hne Hpos Hbal ltac:(lia))
        as (H1 & H2 & H3 & H4).
      repeat (split; [done |]). lia.
  - destruct (Ascii.eqb_spec c Scraper.rbrace) as [Hr | Hr].
    + (* a closing brace *)
      destruct Hinv as [[Hd ->] | (Hd & before & inner & Hs & -> & Hb & Hne & Hpos & Hbal)].
      * destruct (Z.eqb_spec (depth - 1) 0) as [? | _]; [lia |]. simpl.
        rewrite Hlen. apply (IH (seen ++ [c])); [done | done |].
        left. split; [lia | done].
      * destruct (Z.eqb_spec (depth - 1) 0) as [Hone | Hmore].
        -- destruct (Z.eqb_spec (Z.of_nat (length before)) (-1)); [lia |].
           simpl. intros [= <-].
           assert (Htext : html = string_of_list_ascii before
                      +:+ (string_of_list_ascii inner +:+ "}")
                      +:+ string_of_list_ascii rest).
           { rewrite <- (string_of_list_ascii_of_string html), Hhtml, Hs, Hr.
             rewrite <- !app_assoc, !string_of_list_ascii_app. simpl.
             by rewrite !append_assoc. }
           assert (Hslice :
             JS.slice (Z.to_nat (Z.of_nat (length before)))
               (Z.to_nat (Z.of_nat (length seen) + 1)) html
             = string_of_list_ascii inner +:+ "}").
           { unfold JS.slice. rewrite Htext at 1.
             replace (Z.to_nat (Z.of_nat (length before)))
               with (String.length (string_of_list_ascii before))
               by (rewrite length_string_of_list_ascii; lia).
             replace (Z.to_nat _ - String.length _)%nat
               with (String.length (string_of_list_ascii inner +:+ "}")).
             - apply substring_middle.
             - rewrite length_append, !length_string_of_list_ascii, Hs,
                 length_app. simpl. lia. }
           rewrite Hslice. split.
           ++ exists (string_of_list_ascii inner).
              split; [done |].
              split; [by apply string_of_list_ascii_nonempty |].
              split.
              ** intros k Hk. rewrite list_ascii_of_string_of_list_ascii.
                 apply Hpos. by rewrite length_string_of_list_ascii in Hk.
              ** rewrite list_ascii_of_string_of_list_ascii. lia.
           ++ exists (string_of_list_ascii before),
                (string_of_list_ascii rest).
              split; [done |]. by rewrite length_string_of_list_ascii.
        -- simpl. rewrite Hlen. apply (IH (seen ++ [c])); [done | done |].
           right. split; [lia |]. exists before, (inner ++ [c]).
           destruct (Hgrow before inner depth Hs Hne Hpos Hbal ltac:(lia))
             as (H1 & H2 & H3 & H4).
           repeat (split; [done |]). lia.
    + (* any other character *)
      rewrite Hlen. apply (IH (seen ++ [c])); [done | done |].
      destruct Hinv as [Hout | (Hd & before & inner & Hs & -> & Hb & Hne & Hpos & Hbal)];
        [by left |].
      right. split; [lia |]. exists before, (inner ++ [c]).
      destruct (Hgrow before inner depth Hs Hne Hpos Hbal ltac:(lia))
        as (H1 & H2 & H3 & H4).
      repeat (split; [done |]). lia.
Qed.

Lemma extractJsonAt_piece html startIdx r :
  Scraper.extractJsonAt html startIdx = Some r →
  balanced_object r
  ∧ ∃ pre post,
      html = pre +:+ r +:+ post ∧ Z.max 0 startIdx ≤ Z.of_nat (String.length pre).
Proof.
  unfold Scraper.extractJsonAt. intros H.
  set (n := Z.to_nat startIdx) in *.
  set (chars := list_ascii_of_string html) in *.
  destruct (decide (n ≤ length chars)%nat) as [Hle | Hgt].
  - replace (Z.max 0 startIdx) with (Z.of_nat (length (take n chars))) in H
      by (rewrite length_take; lia).
    apply (loop_sound html n) in H as (Hbal & pre & post & Hhtml & Hpre).
    + split; [done |]. exists pre, post. split; [done | lia].
    + unfold chars. by rewrite take_drop.
    + rewrite length_take. lia.
    + by left.
  - rewrite drop_ge in H by lia. done.
Qed.

(** X19. Whatever [extractJsonAt] returns, for any text and any start
    index, is a piece of the text that lies at or after the start index,
    runs from an opening brace to a closing brace, and is balanced: the
    count of braces is zero at its end and nowhere before. *)
Theorem X19_extractJsonAt_returns_balanced_piece html startIdx r :
  Scraper.extractJsonAt html startIdx = Some r →
  balanced_object r
  ∧ ∃ pre post,
      html = pre +:+ r +:+ post ∧ Z.max 0 startIdx ≤ Z.of_nat (String.length pre).
Proof. apply extractJsonAt_piece. Qed.

Lemma X19_extractJsonAt_returns_balanced_piece_witness :
  balanced_object "{}"
  ∧ ∃ pre post,
      "}{{}" = pre +:+ "{}" +:+ post ∧ Z.max 0 0 ≤ Z.of_nat (String.length pre).
Proof.
  apply (X19_extractJsonAt_returns_balanced_piece "}{{}" 0 "{}").
  reflexivity.
Defined.

(** ** The match list: all or nothing, ids, fallback *)





Lemma append_empty_r (a : string) : a +:+ EmptyString = a.
Proof.
  induction a as [| x a IH]; [done |].
  change (String x a +:+ EmptyString) with (String x (a +:+ EmptyString)).
  by rewrite IH.
Qed.

Section IdsAccepted.

Variable factsRows : string → list (string * string).
Variable Header : Type.
Variable parseHeader : string → Header.
Variable Scorecard : Type.
Variable parseScorecardHtml : string → Scorecard.

Local Abbreviation getScorecard :=
  (Scraper.getScorecard Scorecard parseScorecardHtml).
Local Abbreviation getMatchInfo :=
  (Scraper.getMatchInfo factsRows Header parseHeader).

(** X21. The ids that the match list hands out are accepted by the
    detail operations: for the id of any normalized record neither
    [getScorecard] nor [getMatchInfo] fails as an invalid id; each makes
    exactly one request, for a scorecard path that starts with the
    numeric id of the record.  That is the whole path when the record has
    no slug; it is followed by the slug when the slug holds no tilde; and
    when the slug holds a tilde, only the part of the slug before its
    first tilde follows, or nothing when the slug starts with a tilde. *)
Theorem X21_listed_ids_are_accepted toISOString matchInfo matchScore slug m up :
  Scraper.normalizeMatch toISOString matchInfo matchScore slug = Ok m →
  let numericId := JS.String_of_N (Scraper.matchId matchInfo) in
  ∃ tail,
    (getScorecard (Match.id m) up).1
      = ["/live-cricket-scorecard/" +:+ numericId +:+ tail]
    ∧ (getMatchInfo (Match.id m) up).1
      = ["/live-cricket-scorecard/" +:+ numericId +:+ tail]
    ∧ (slug = EmptyString → tail = EmptyString)
    ∧ (slug ≠ EmptyString → "~"%char ∉ list_ascii_of_string slug →
       tail = "/" +:+ slug)
    ∧ (∀ first rest,
         slug = first +:+ String "~" rest →
         "~"%char ∉ list_ascii_of_string first →
         (first = EmptyString → tail = EmptyString)
         ∧ (first ≠ EmptyString → tail = "/" +:+ first)).
Proof.
  intros Hm numericId. apply normalizeMatch_id in Hm. fold numericId in Hm.
  pose proof (String_of_N_no_tilde (Scraper.matchId matchInfo)) as Htilde.
  pose proof (String_of_N_nonempty (Scraper.matchId matchInfo)) as Hne.
  fold numericId in Htilde, Hne. apply truthy_true in Hne.
  assert (Hrun : ∀ parts,
    JS.split "~" (Match.id m) = numericId :: parts →
    let tail := if JS.truthy_opt (parts !! 0%nat)
                then "/" +:+ JS.or_empty (parts !! 0%nat) else EmptyString in
    (getScorecard (Match.id m) up).1
      = ["/live-cricket-scorecard/" +:+ numericId +:+ tail]
    ∧ (getMatchInfo (Match.id m) up).1
      = ["/live-cricket-scorecard/" +:+ numericId +:+ tail]).
  { intros parts Hsplit tail.
    unfold Scraper.getScorecard, Scraper.getMatchInfo. rewrite Hsplit.
    simpl. rewrite Hne. simpl. unfold tail.
    destruct (JS.truthy_opt (parts !! 0%nat)); simpl;
      rewrite ?append_empty_r;
      unfold Scraper.bind, Scraper.fetchPage; simpl;
      (split; [by destruct (up _) as [? | st body]; [| destruct (Scraper.ok st)]
              | by destruct (up _) as [? | st body]; [| destruct (Scraper.ok st)]]). }
  destruct slug as [| c slug]; simpl in Hm.
  - destruct (Hrun []) as [H1 H2].
    { rewrite Hm. by apply split_no_sep. }
    exists EmptyString. simpl in *.
    split; [done |]. split; [done |]. split; [done |]. split; [done |].
    intros first rest Heq. by destruct first.
  - destruct (Hrun (JS.split "~" (String c slug))) as [H1 H2].
    { rewrite Hm. change ("~" +:+ String c slug) with (String "~" (String c slug)).
      by apply split_app_sep. }
    eexists. split; [exact H1 |]. split; [exact H2 |].
    split; [done |]. split.
    + intros _ Hno. by rewrite (split_no_sep _ _ Hno).
    + intros first rest -> Hno. rewrite (split_app_sep _ _ _ Hno). simpl.
      split; [by intros -> |].
      intros Hfirst. apply truthy_true in Hfirst. by rewrite Hfirst.
Qed.

End IdsAccepted.

Lemma X21_listed_ids_are_accepted_witness :
  match Scraper.normalizeMatch (λ _, Err "Invalid time value")
          sampleInfo None "ind-vs-aus" with
  | Ok m =>
      ∃ tail,
        (Scraper.getScorecard nat String.length (Match.id m)
           (λ _, Scraper.NetworkFailure "down")).1
        = ["/live-cricket-scorecard/" +:+ "12345" +:+ tail]
        ∧ tail = "/ind-vs-aus"
  | Err _ => False
  end
  ∧ match Scraper.normalizeMatch (λ _, Err "Invalid time value")
            sampleInfo None "ind~aus" with
    | Ok m =>
        ∃ tail,
          (Scraper.getScorecard nat String.length (Match.id m)
             (λ _, Scraper.NetworkFailure "down")).1
          = ["/live-cricket-scorecard/" +:+ "12345" +:+ tail]
          ∧ tail = "/ind"
    | Err _ => False
    end.
Proof.
  split.
  - destruct (Scraper.normalizeMatch _ sampleInfo None "ind-vs-aus")
      as [m | e] eqn:Hm; [| by vm_compute in Hm].
    destruct (X21_listed_ids_are_accepted (λ _, []) nat String.length
                nat String.length _ _ _ _ _
                (λ _, Scraper.NetworkFailure "down") Hm)
      as (tail & H1 & _ & _ & Htail & _).
    exists tail. split; [exact H1 |]. apply Htail; [done |].
    refine (bool_decide_unpack _ _). by vm_compute.
  - destruct (Scraper.normalizeMatch _ sampleInfo None "ind~aus")
      as [m | e] eqn:Hm; [| by vm_compute in Hm].
    destruct (X21_listed_ids_are_accepted (λ _, []) nat String.length
                nat String.length _ _ _ _ _
                (λ _, Scraper.NetworkFailure "down") Hm)
      as (tail & H1 & _ & _ & _ & Htail).
    exists tail. split; [exact H1 |].
    apply (Htail "ind" "aus"); [reflexivity | | done].
    refine (bool_decide_unpack _ _). by vm_compute.
Defined.

Lemma substring_from_start : ∀ m s t,
  String.substring 0 m s = t → String.length t = m →
  ∃ post, s = t +:+ post.
Proof.
  induction m as [| m IH]; intros s t Hsub Hlen.
  - destruct t; [| done]. by exists s.
  - destruct s as [| c s]; simpl in Hsub; [by subst |].
    destruct t as [| c' t]; [done |]. injection Hsub as -> Hsub.
    injection Hlen as Hlen.
    destruct (IH s t Hsub Hlen) as [post ->]. by exists post.
Qed.

Lemma substring_occurs : ∀ n m s t,
  String.substring n m s = t → String.length t = m → occurs t s.
Proof.
  induction n as [| n IH]; intros m s t Hsub Hlen.
  - destruct (substring_from_start m s t Hsub Hlen) as [post ->].
    by exists EmptyString, post.
  - destruct s as [| c s]; simpl in Hsub.
    + subst t. by exists EmptyString, EmptyString.
    + destruct (IH m s t Hsub Hlen) as (pre & post & ->).
      by exists (String c pre), post.
Qed.

Lemma indexOf_occurs pat from s i :
  JS.indexOf pat from s = Some i → occurs pat s.
Proof.
  unfold JS.indexOf. intros H. apply index_correct1 in H.
  by eapply substring_occurs.
Qed.

Lemma index_None_not_occurs pat s :
  pat ≠ EmptyString → String.index 0 pat s = None → ¬ occurs pat s.
Proof.
  intros Hpat Hidx (pre & post & ->).
  apply (index_correct3 0 (String.length pre)) in Hidx; [| done | lia].
  apply Hidx. apply substring_middle.
Qed.

Lemma includes_occurs pat s :
  pat ≠ EmptyString → JS.includes pat s = true ↔ occurs pat s.
Proof.
  intros Hpat. unfold JS.includes.
  destruct (JS.indexOf pat 0 s) as [i |] eqn:Hidx.
  - split; [| done]. intros _. by eapply indexOf_occurs.
  - split; [done |]. intros Hocc. exfalso.
    by apply (index_None_not_occurs pat s).
Qed.

(** The filter of [getCurrentMatches], in the words of its source. *)
Lemma isCurrent_spec (m : Match.t) :
  Scraper.isCurrent m = true
  ↔ Match.matchStarted m = true
    ∨ occurs "preview" (JS.toLowerCase (Match.status m))
    ∨ occurs "starts" (JS.toLowerCase (Match.status m)).
Proof.
  unfold Scraper.isCurrent.
  rewrite !orb_true_iff, !includes_occurs by done. tauto.
Qed.

Section ListOperations.

Variable toISOString : string → result string.
Variable JSON_parse : string → result Scraper.MatchesList.

Local Abbreviation fetchMatchList :=
  (Scraper.fetchMatchList toISOString JSON_parse).
Local Abbreviation getCurrentMatches :=
  (Scraper.getCurrentMatches toISOString JSON_parse).
Local Abbreviation getMatches := (Scraper.getMatches toISOString JSON_parse).

(** X22. Each list operation makes one request, for the live-scores page,
    and never a second one, whatever the outcome.  [getMatches] returns
    the parsed list as it is.  [getCurrentMatches] keeps the records that
    are started or whose status, in lower case, holds [preview] or
    [starts]: it returns the kept records, all of them and in the order of
    the list, when there is one, and the whole list when there is none,
    so that it is empty only when the parsed list is.  A failure of the
    download or of the parsing is the failure of both operations. *)
Theorem X22_list_operations (up : Scraper.upstream) :
  (getCurrentMatches up).1 = ["/cricket-match/live-scores"]
  ∧ (getMatches up).1 = ["/cricket-match/live-scores"]
  ∧ (∀ e, (fetchMatchList up).2 = Err e →
       (getCurrentMatches up).2 = Err e ∧ (getMatches up).2 = Err e)
  ∧ (∀ matches, (fetchMatchList up).2 = Ok matches →
       (getMatches up).2 = Ok {| data := matches |}
       ∧ ∃ current,
           (getCurrentMatches up).2 = Ok {| data := current |}
           ∧ sublist current matches
           ∧ (current = [] ↔ matches = [])
           ∧ ∀ keep : Match.t → bool,
               (∀ m, keep m = true
                     ↔ Match.matchStarted m = true
                       ∨ occurs "preview" (JS.toLowerCase (Match.status m))
                       ∨ occurs "starts" (JS.toLowerCase (Match.status m))) →
               current = match List.filter keep matches with
                         | [] => matches
                         | kept => kept
                         end).
Proof.
  unfold Scraper.getCurrentMatches, Scraper.getMatches, Scraper.fetchMatchList,
    Scraper.bind, Scraper.lift, Scraper.ret.
  destruct (Scraper.fetchPage "/cricket-match/live-scores" up)
    as [log [html | e0]] eqn:Hpage.
  - assert (log = ["/cricket-match/live-scores"]) as ->
      by (unfold Scraper.fetchPage in Hpage; by injection Hpage as <- _).
    destruct (Scraper.parseMatchList toISOString JSON_parse html)
      as [matches | e1]; simpl.
    + split; [done |]. split; [done |]. split; [done |].
      intros ? [= <-]. split; [done |].
      assert (Hsub : sublist (List.filter Scraper.isCurrent matches) matches).
      { induction matches as [| m l IH]; simpl; [done |].
        destruct (Scraper.isCurrent m);
          [by apply sublist_skip | by apply sublist_cons]. }
      assert (Hkeep : ∀ keep : Match.t → bool,
                (∀ m, keep m = true
                      ↔ Match.matchStarted m = true
                        ∨ occurs "preview" (JS.toLowerCase (Match.status m))
                        ∨ occurs "starts" (JS.toLowerCase (Match.status m))) →
                List.filter keep matches
                = List.filter Scraper.isCurrent matches).
      { intros keep Hspec. apply filter_ext. intros m.
        specialize (Hspec m). rewrite <- isCurrent_spec in Hspec.
        destruct (keep m), (Scraper.isCurrent m); try done.
        - by destruct (proj1 Hspec eq_refl).
        - by destruct (proj2 Hspec eq_refl). }
      destruct (List.filter Scraper.isCurrent matches) as [| m0 current] eqn:Hf.
      * exists matches. split; [done |]. split; [done |]. split; [done |].
        intros keep Hspec. by rewrite (Hkeep keep Hspec).
      * exists (m0 :: current). split; [done |]. split; [done |].
        split.
        -- split; [done |]. intros ->. by inversion Hsub.
        -- intros keep Hspec. by rewrite (Hkeep keep Hspec).
    + simpl. split; [done |]. split; [done |]. split; [| done].
      by intros ? [= <-].
  - assert (log = ["/cricket-match/live-scores"]) as ->
      by (unfold Scraper.fetchPage in Hpage; by injection Hpage as <- _).
    simpl. split; [done |]. split; [done |]. split; [| done].
    by intros ? [= <-].
Qed.

End ListOperations.

Lemma X22_list_operations_witness :
  let entry n st status :=
    {| Scraper.matchInfo :=
         Some {| Scraper.matchId := n;
                 Scraper.state := st;
                 Scraper.seriesName := None;
                 Scraper.matchDesc := None;
                 Scraper.matchFormat := None;
                 Scraper.status := Some status;
                 Scraper.startDate := None;
                 Scraper.team1 := None;
                 Scraper.team2 := None;
                 Scraper.info_team1Score := None;
                 Scraper.info_team2Score := None |};
       Scraper.matchScore := None |} in
  let payload :=
    {| Scraper.typeMatches :=
         Some [{| Scraper.seriesMatches :=
                    Some [{| Scraper.seriesAdWrapper :=
                               Some {| Scraper.matches :=
                                         Some [entry 1%N (Scraper.Text "Upcoming")
                                                 "Match starts at 09:30";
                                               entry 2%N Scraper.Absent
                                                 "Scheduled";
                                               entry 3%N (Scraper.Text "Preview")
                                                 "PREVIEW";
                                               entry 4%N (Scraper.Text "Complete")
                                                 "Won by 3 wkts"] |} |}] |}] |} in
  let up := λ _ : string, Scraper.HttpResponse 200 "currentMatchesList:{}" in
  (∃ current,
     (Scraper.getCurrentMatches (λ _, Ok EmptyString) (λ _, Ok payload) up).2
     = Ok {| data := current |}
     ∧ Match.id <$> current = ["1"; "3"; "4"])
  ∧ (Scraper.getCurrentMatches (λ _, Ok EmptyString) (λ _, Err "unused")
       (λ _, Scraper.HttpResponse 503 EmptyString)).2
    = Err "Cricbuzz HTTP 503 for /cricket-match/live-scores".
Proof.
  intros entry payload up. split.
  - destruct (X22_list_operations (λ _, Ok EmptyString) (λ _, Ok payload) up)
      as (_ & _ & _ & H).
    destruct (H _ eq_refl) as (_ & current & Hcur & _ & _ & Hkeep).
    exists current. split; [exact Hcur |].
    rewrite (Hkeep Scraper.isCurrent isCurrent_spec). reflexivity.
  - destruct (X22_list_operations (λ _, Ok EmptyString) (λ _, Err "unused")
                (λ _, Scraper.HttpResponse 503 EmptyString)) as (_ & _ & H & _).
    by apply H.
Defined.

(** ** The Extras and Total lines: no number is made up *)

Lemma sem_chr_inv ic c i w c0 c1 :
  Regex.sem ic (Regex.Chr c) i w c0 c1 →
  ∃ x, w = [x] ∧ Regex.char_matches ic c x = true ∧ c1 = c0.
Proof. inversion 1; subst. eauto. Qed.

(** X23. [parseExtras] makes up no number.  Each of the five counts is
    read at the first place where the line holds the text of its label
    ([b ], [lb ], [w ], [nb ], [p ]) followed by a digit: it is the whole
    run of digits that follows the label there, as a number, whenever
    that number is one that a double holds exactly; and it is zero when
    the line has no such place. *)
Theorem X23_parseExtras_reads_the_line (text : string) :
  let reads (label : string) (n : N) :=
    (∀ pre, ¬ label_after false label JS.isDigit text pre) ∧ n = 0%N
    ∨ ∃ ds,
        first_run_after false label JS.isDigit text ds
        ∧ (exact_number (JS.Number_of_digits ds) →
           n = JS.Number_of_digits ds) in
  let e := Scraper.parseExtras text in
  reads "b " (Scraper.Extras.b e) ∧ reads "lb " (Scraper.Extras.lb e)
  ∧ reads "w " (Scraper.Extras.w e) ∧ reads "nb " (Scraper.Extras.nb e)
  ∧ reads "p " (Scraper.Extras.p e).
Proof.
  intros reads e.
  assert (H : ∀ label,
            reads label
              (Scraper.numOrZero
                 (Regex.group 1
                    (Regex.match_ false
                       (Regex.Seq (Regex.lit label) (Scraper.digits 1)) text)))).
  { intros label.
    pose proof (label_match_spec false label 1 JS.isDigit text) as Hspec.
    fold (Scraper.digits 1) in Hspec.
    destruct (Regex.match_ false _ text) as [a |].
    - right. destruct Hspec as (ds & Hfirst & Hg). exists ds.
      split; [done |]. intros _. by rewrite Hg.
    - by left. }
  unfold e, Scraper.parseExtras. simpl.
  split; [apply (H "b ") |]. split; [apply (H "lb ") |].
  split; [apply (H "w ") |]. split; [apply (H "nb ") | apply (H "p ")].
Qed.

Lemma X23_parseExtras_reads_the_line_witness :
  let line := "Extras 9 (b 0, lb 1, w 8, nb 0, p 0)" in
  (∃ ds, first_run_after false "w " JS.isDigit line ds
         ∧ (exact_number (JS.Number_of_digits ds) →
            Scraper.Extras.w (Scraper.parseExtras line)
            = JS.Number_of_digits ds))
  ∧ Scraper.Extras.p (Scraper.parseExtras "Extras 9 (lb 1, w 8)") = 0%N.
Proof.
  intros line. split.
  - destruct (X23_parseExtras_reads_the_line line)
      as (_ & _ & [[Hno _] | H] & _); [| exact H].
    exfalso. apply (Hno "Extras 9 (b 0, lb 1, ").
    exists "w ", "8, nb 0, p 0)". split; [reflexivity |]. by split.
  - destruct (X23_parseExtras_reads_the_line "Extras 9 (lb 1, w 8)")
      as (_ & _ & _ & _ & [[_ H] | (ds & _ & _)]); [exact H | reflexivity].
Defined.


Lemma score_run_spec i s :
  match Regex.run false Scraper.re_score i s ∅ (λ j _ c, Some (j, c)) with
  | Some (j, caps) =>
      ∃ d1 x d2 rest,
        s = d1 ++ x :: d2 ++ rest
        ∧ d1 ≠ [] ∧ Forall (λ y, JS.isDigit y = true) d1
        ∧ (x = "-"%char ∨ x = "/"%char)
        ∧ d2 ≠ [] ∧ Forall (λ y, JS.isDigit y = true) d2
        ∧ (∀ y rest', rest = y :: rest' → JS.isDigit y = false)
        ∧ caps = <[2%nat := d2]> (<[1%nat := d1]> ∅)
  | None =>
      ∀ d1 x d2 rest,
        s = d1 ++ x :: d2 ++ rest
        → d1 ≠ [] → Forall (λ y, JS.isDigit y = true) d1
        → (x = "-"%char ∨ x = "/"%char)
        → d2 ≠ [] → Forall (λ y, JS.isDigit y = true) d2
        → False
  end.
Proof.
  set (sep := λ c : ascii, Ascii.eqb c "-" || Ascii.eqb c "/").
  set (tail := λ (i' : nat) (s' : list ascii) (caps' : Regex.captures),
         match s' with
         | x :: s'' =>
             if sep x
             then Regex.run false
                    (Regex.Group 2 (Regex.Plus (Regex.Class JS.isDigit)))
                    (S i') s'' caps' (λ j _ c, Some (j, c))
             else None
         | [] => None
         end).
  assert (Hsep : ∀ x, sep x = true ↔ x = "-"%char ∨ x = "/"%char).
  { intros x. unfold sep. rewrite orb_true_iff, !Ascii.eqb_eq. done. }
  assert (Heq :
    Regex.run false Scraper.re_score i s ∅ (λ j _ c, Some (j, c))
    = Regex.run false (Regex.Group 1 (Regex.Plus (Regex.Class JS.isDigit)))
        i s ∅ tail).
  { unfold Scraper.re_score, Scraper.digits. cbn [Regex.run]. f_equal. }
  rewrite Heq. clear Heq.
  pose proof (group_greedy_spec false 1 JS.isDigit tail i s ∅) as H.
  destruct (Regex.run false _ i s ∅ tail) as [[j caps] |].
  - destruct H as (d1 & rest0 & -> & Hne & Hall & Hk & _).
    unfold tail in Hk. destruct rest0 as [| x rest0]; [done |].
    destruct (sep x) eqn:Hx; [| done]. apply Hsep in Hx.
    pose proof (group_whole_run false 2 JS.isDigit (S (i + length d1)) rest0
                  (<[1%nat := d1]> ∅)) as Hg.
    rewrite Hk in Hg.
    destruct Hg as (d2 & rest & -> & Hne2 & Hall2 & Hend & _ & ->).
    by exists d1, x, d2, rest.
  - intros d1 x d2 rest -> Hne Hall Hx Hne2 Hall2.
    specialize (H d1 (x :: d2 ++ rest) eq_refl Hne Hall).
    unfold tail in H. apply Hsep in Hx. rewrite Hx in H.
    pose proof (group_whole_run false 2 JS.isDigit (S (i + length d1))
                  (d2 ++ rest) (<[1%nat := d1]> ∅)) as Hg.
    rewrite H in Hg. destruct d2 as [| y d2]; [done |].
    inversion Hall2; subst. specialize (Hg y (d2 ++ rest) eq_refl).
    congruence.
Qed.

Lemma score_after_chars text pre runs wickets :
  score_after text pre runs wickets →
  ∃ rest x post,
    text = pre +:+ rest
    ∧ list_ascii_of_string rest
      = list_ascii_of_string runs ++ x :: list_ascii_of_string wickets ++ post
    ∧ list_ascii_of_string runs ≠ []
    ∧ Forall (λ y, JS.isDigit y = true) (list_ascii_of_string runs)
    ∧ (x = "-"%char ∨ x = "/"%char)
    ∧ list_ascii_of_string wickets ≠ []
    ∧ Forall (λ y, JS.isDigit y = true) (list_ascii_of_string wickets).
Proof.
  intros (sep & post & -> & Hsep & Hne & Hall & Hne2 & Hall2).
  exists (runs +:+ String sep wickets +:+ post), sep,
    (list_ascii_of_string post).
  split; [done |]. split.
  { rewrite list_ascii_app.
    change (String sep wickets +:+ post) with (String sep (wickets +:+ post)).
    simpl. by rewrite list_ascii_app. }
  split; [by apply chars_nonempty |]. split; [done |]. split; [done |].
  split; [by apply chars_nonempty | done].
Qed.

(** What the score pattern finds: the first place where digits, a dash
    or slash, and digits follow each other, with both runs of digits
    whole. *)
Lemma score_match_spec text :
  match Regex.match_ false Scraper.re_score text with
  | Some a =>
      ∃ runs wickets,
        first_score text runs wickets
        ∧ Regex.group 1 (Some a) = Some runs
        ∧ Regex.group 2 (Some a) = Some wickets
  | None => ∀ pre runs wickets, ¬ score_after text pre runs wickets
  end.
Proof.
  pose proof (match_leftmost false Scraper.re_score text) as H.
  assert (Hnone : ∀ pre rest,
            text = pre +:+ rest →
            Regex.run false Scraper.re_score (String.length pre)
              (list_ascii_of_string rest) ∅ (λ j _ c, Some (j, c)) = None →
            ∀ runs wickets, ¬ score_after text pre runs wickets).
  { intros pre rest Htext Hrun runs wickets Hafter.
    apply score_after_chars in Hafter
      as (rest' & x & post & Htext' & Hrest & Hne & Hall & Hx & Hne2 & Hall2).
    rewrite Htext in Htext'. apply append_inv_head in Htext'. subst rest'.
    pose proof (score_run_spec (String.length pre)
                  (list_ascii_of_string rest)) as Hspec.
    rewrite Hrun in Hspec.
    by apply (Hspec _ x _ post Hrest). }
  destruct (Regex.match_ false Scraper.re_score text) as [a |].
  - destruct H as (pre & rest & Htext & Hrun & Hmin).
    pose proof (score_run_spec (String.length pre)
                  (list_ascii_of_string rest)) as Hspec.
    rewrite Hrun in Hspec.
    destruct Hspec as (d1 & x & d2 & post & Hrest & Hne & Hall & Hx & Hne2
                       & Hall2 & Hend & Hcaps).
    exists (string_of_list_ascii d1), (string_of_list_ascii d2).
    split; [| split].
    + exists pre, x, (string_of_list_ascii post).
      split.
      { rewrite Htext. f_equal.
        rewrite <- (string_of_list_ascii_of_string rest), Hrest.
        rewrite string_of_list_ascii_app. f_equal. simpl.
        by rewrite string_of_list_ascii_app. }
      unfold all_chars. rewrite !list_ascii_of_string_of_list_ascii.
      split; [done |].
      split; [by apply string_of_list_ascii_nonempty |]. split; [done |].
      split; [by apply string_of_list_ascii_nonempty |]. split; [done |].
      split; [by apply begins_with_false |].
      intros pre' runs' wickets' Hafter.
      destruct (decide (String.length pre ≤ String.length pre')%nat)
        as [Hle | Hgt]; [done |].
      exfalso.
      assert (∃ rest', text = pre' +:+ rest') as [rest' Htext'].
      { destruct Hafter as (sep' & post' & -> & _). by eexists. }
      apply (Hnone pre' rest' Htext') in Hafter; [done |].
      apply Hmin; [done | lia].
    + simpl. rewrite Hcaps. rewrite lookup_insert_ne by done.
      by rewrite lookup_insert_eq.
    + simpl. by rewrite Hcaps, lookup_insert_eq.
  - intros pre runs wickets Hafter.
    assert (∃ rest, text = pre +:+ rest) as [rest Htext].
    { destruct Hafter as (sep' & post' & -> & _). by eexists. }
    by apply (Hnone pre rest Htext (H pre rest Htext) runs wickets).
Qed.

Lemma paren_exact x : Regex.char_matches true "(" x = true → x = "("%char.
Proof. destruct x as [[] [] [] [] [] [] [] []]; vm_compute; congruence. Qed.

Lemma overs_run_spec i s :
  match Regex.run true Scraper.re_overs i s ∅ (λ j _ c, Some (j, c)) with
  | Some (j, caps) =>
      ∃ o blank ov rest,
        s = "("%char :: o ++ blank ++ ov ++ rest
        ∧ o ≠ [] ∧ Forall (λ y, JS.isDigit y || Ascii.eqb y "." = true) o
        ∧ blank ≠ [] ∧ Forall (λ y, JS.isSpace y = true) blank
        ∧ Forall2 (λ c y, Regex.char_matches true c y = true)
                  (list_ascii_of_string "Ov") ov
        ∧ caps = <[1%nat := o]> ∅
  | None =>
      ∀ o blank ov rest,
        s = "("%char :: o ++ blank ++ ov ++ rest
        → o ≠ [] → Forall (λ y, JS.isDigit y || Ascii.eqb y "." = true) o
        → blank ≠ [] → Forall (λ y, JS.isSpace y = true) blank
        → Forall2 (λ c y, Regex.char_matches true c y = true)
                  (list_ascii_of_string "Ov") ov
        → False
  end.
Proof.
  set (tail := λ (i' : nat) (s' : list ascii) (caps' : Regex.captures),
         Regex.run true
           (Regex.Seq (Regex.Plus (Regex.Class JS.isSpace)) (Regex.lit "Ov"))
           i' s' caps' (λ j _ c, Some (j, c))).
  assert (Heq :
    Regex.run true Scraper.re_overs i s ∅ (λ j _ c, Some (j, c))
    = match s with
      | x :: s' =>
          if Regex.char_matches true "(" x
          then Regex.run true
                 (Regex.Group 1
                    (Regex.Plus
                       (Regex.Class (λ c, JS.isDigit c || Ascii.eqb c "."))))
                 (S i) s' ∅ tail
          else None
      | [] => None
      end).
  { unfold Scraper.re_overs. cbn [Regex.run]. destruct s as [| x s']; [done |].
    by destruct (Regex.char_matches true "(" x). }
  rewrite Heq. clear Heq.
  destruct s as [| x s']; [by intros o blank ov rest [=] |].
  destruct (Regex.char_matches true "(" x) eqn:Hx.
  - apply paren_exact in Hx as ->.
    pose proof (group_greedy_spec true 1
                  (λ c, JS.isDigit c || Ascii.eqb c ".") tail (S i) s' ∅) as H.
    destruct (Regex.run true _ (S i) s' ∅ tail) as [[j caps] |].
    + destruct H as (o & rest0 & -> & Hne & Hall & Hk & _).
      pose proof (class_lit_spec true JS.isSpace "Ov"
                    (S i + length o) rest0 (<[1%nat := o]> ∅)) as Ht.
      unfold tail in Hk. rewrite Hk in Ht.
      destruct Ht as (blank & ov & rest & -> & Hb & Hball & Hov & ->).
      by exists o, blank, ov, rest.
    + intros o blank ov rest [= ->] Hne Hall Hb Hball Hov.
      specialize (H o (blank ++ ov ++ rest) eq_refl Hne Hall).
      pose proof (class_lit_spec true JS.isSpace "Ov"
                    (S i + length o) (blank ++ ov ++ rest)
                    (<[1%nat := o]> ∅)) as Ht.
      unfold tail in H. rewrite H in Ht.
      by apply (Ht blank ov rest).
  - intros o blank ov rest [= -> _]. by vm_compute in Hx.
Qed.

Lemma overs_after_chars text pre overs :
  overs_after text pre overs →
  ∃ rest blank ov post,
    text = pre +:+ rest
    ∧ list_ascii_of_string rest
      = "("%char :: list_ascii_of_string overs ++ blank ++ ov ++ post
    ∧ list_ascii_of_string overs ≠ []
    ∧ Forall (λ y, JS.isDigit y || Ascii.eqb y "." = true)
             (list_ascii_of_string overs)
    ∧ blank ≠ [] ∧ Forall (λ y, JS.isSpace y = true) blank
    ∧ Forall2 (λ c y, Regex.char_matches true c y = true)
              (list_ascii_of_string "Ov") ov.
Proof.
  intros (blank & ov & post & -> & Hne & Hall & Hb & Hball & Hov).
  exists ("(" +:+ overs +:+ blank +:+ ov +:+ post),
    (list_ascii_of_string blank), (list_ascii_of_string ov),
    (list_ascii_of_string post).
  split; [done |]. split.
  { change ("(" +:+ ?a) with (String "(" a). simpl.
    by rewrite !list_ascii_app. }
  split; [by apply chars_nonempty |]. split; [done |].
  split; [by apply chars_nonempty |]. split; [done |].
  by apply (reads_as_chars true).
Qed.

(** What the overs pattern finds: the digits and dots of the first place
    where an opening parenthesis, digits and dots, white space and [Ov]
    follow each other. *)
Lemma overs_match_spec text :
  match Regex.match_ true Scraper.re_overs text with
  | Some a => ∃ overs, first_overs text overs
                       ∧ Regex.group 1 (Some a) = Some overs
  | None => ∀ pre overs, ¬ overs_after text pre overs
  end.
Proof.
  pose proof (match_leftmost true Scraper.re_overs text) as H.
  assert (Hnone : ∀ pre rest,
            text = pre +:+ rest →
            Regex.run true Scraper.re_overs (String.length pre)
              (list_ascii_of_string rest) ∅ (λ j _ c, Some (j, c)) = None →
            ∀ overs, ¬ overs_after text pre overs).
  { intros pre rest Htext Hrun overs Hafter.
    apply overs_after_chars in Hafter
      as (rest' & blank & ov & post & Htext' & Hrest & Hne & Hall & Hb
          & Hball & Hov).
    rewrite Htext in Htext'. apply append_inv_head in Htext'. subst rest'.
    pose proof (overs_run_spec (String.length pre)
                  (list_ascii_of_string rest)) as Hspec.
    rewrite Hrun in Hspec.
    by apply (Hspec _ blank ov post Hrest). }
  destruct (Regex.match_ true Scraper.re_overs text) as [a |].
  - destruct H as (pre & rest & Htext & Hrun & Hmin).
    pose proof (overs_run_spec (String.length pre)
                  (list_ascii_of_string rest)) as Hspec.
    rewrite Hrun in Hspec.
    destruct Hspec as (o & blank & ov & post & Hrest & Hne & Hall & Hb
                       & Hball & Hov & Hcaps).
    exists (string_of_list_ascii o). split.
    + exists pre. split.
      * exists (string_of_list_ascii blank), (string_of_list_ascii ov),
          (string_of_list_ascii post).
        split.
        { rewrite Htext. f_equal.
          rewrite <- (string_of_list_ascii_of_string rest), Hrest.
          change ("(" +:+ ?a) with (String "(" a). simpl. f_equal.
          by rewrite !string_of_list_ascii_app. }
        unfold all_chars. rewrite !list_ascii_of_string_of_list_ascii.
        split; [by apply string_of_list_ascii_nonempty |]. split; [done |].
        split; [by apply string_of_list_ascii_nonempty |]. split; [done |].
        apply (reads_as_chars true).
        by rewrite list_ascii_of_string_of_list_ascii.
      * intros pre' overs' Hafter.
        destruct (decide (String.length pre ≤ String.length pre')%nat)
          as [Hle | Hgt]; [done |].
        exfalso.
        assert (∃ rest', text = pre' +:+ rest') as [rest' Htext'].
        { destruct Hafter as (b' & o' & p' & -> & _). by eexists. }
        apply (Hnone pre' rest' Htext') in Hafter; [done |].
        apply Hmin; [done | lia].
    + simpl. by rewrite Hcaps, lookup_insert_eq.
  - intros pre overs Hafter.
    assert (∃ rest, text = pre +:+ rest) as [rest Htext].
    { destruct Hafter as (b' & o' & p' & -> & _). by eexists. }
    by apply (Hnone pre rest Htext (H pre rest Htext) overs).
Qed.

(** X24. [parseTotal] makes up no number either.  It returns nothing
    exactly when the line has no place where digits, a dash or a slash,
    and digits follow each other.  Otherwise runs and wickets are read at
    the first such place: they are the whole runs of digits on either
    side of the separator, as numbers, whenever these are numbers that a
    double holds exactly.  The overs are the digits and dots of the first
    place where an opening parenthesis, digits and dots, white space and
    [Ov] (in any letter case) follow each other, and there are none
    exactly when the line has no such place. *)
Theorem X24_parseTotal_reads_the_line (text : string) :
  match Scraper.parseTotal text with
  | None => ∀ pre runs wickets, ¬ score_after text pre runs wickets
  | Some t =>
      (∃ runs wickets,
         first_score text runs wickets
         ∧ (exact_number (JS.Number_of_digits runs) →
            Scraper.Total.r t = JS.Number_of_digits runs)
         ∧ (exact_number (JS.Number_of_digits wickets) →
            Scraper.Total.w t = JS.Number_of_digits wickets))
      ∧ match Scraper.Total.o t with
        | None => ∀ pre overs, ¬ overs_after text pre overs
        | Some overs => first_overs text overs
        end
  end.
Proof.
  unfold Scraper.parseTotal.
  pose proof (score_match_spec text) as Hs.
  pose proof (overs_match_spec text) as Ho.
  destruct (Regex.match_ false Scraper.re_score text) as [a |]; [| done].
  destruct Hs as (runs & wickets & Hfirst & H1 & H2). split.
  - exists runs, wickets. split; [done |].
    cbn [Scraper.Total.r Scraper.Total.w]. rewrite H1, H2. by split.
  - cbn [Scraper.Total.o].
    destruct (Regex.match_ true Scraper.re_overs text) as [b |]; [| done].
    destruct Ho as (overs & Hfirst' & ->). done.
Qed.

Lemma X24_parseTotal_reads_the_line_witness :
  let line := "Total 79-3 (12.4 Ov)" in
  Scraper.parseTotal line = Some (Scraper.Total.Make 79 3 (Some "12.4"))
  ∧ (∃ runs wickets, first_score line runs wickets)
  ∧ first_overs line "12.4"
  ∧ Scraper.parseTotal "Total: yet to bat" = None
  ∧ ∀ pre runs wickets, ¬ score_after "Total: yet to bat" pre runs wickets.
Proof.
  intros line.
  assert (Hline : Scraper.parseTotal line
                  = Some (Scraper.Total.Make 79 3 (Some "12.4")))
    by (vm_compute; reflexivity).
  assert (Hnone : Scraper.parseTotal "Total: yet to bat" = None)
    by (vm_compute; reflexivity).
  pose proof (X24_parseTotal_reads_the_line line) as H.
  pose proof (X24_parseTotal_reads_the_line "Total: yet to bat") as H'.
  rewrite Hline in H. rewrite Hnone in H'. cbn [Scraper.Total.o] in H.
  destruct H as [(runs & wickets & Hfirst & _) Hovers].
  split; [done |]. split; [by exists runs, wickets |].
  split; [done |]. split; done.
Defined.

(** ** The facts table of the match-info page *)

Lemma addFact_valid facts row :
  Scraper.addFact facts row
  = if valid_row row then <[row.1 := row.2]> facts else facts.
Proof. by destruct row. Qed.

Lemma facts_last_row_wins rows label :
  foldl Scraper.addFact ∅ rows !! label = last_fact label rows.
Proof.
  unfold last_fact.
  induction rows as [| row rows IH] using rev_ind; [done |].
  rewrite foldl_app, rev_app_distr. simpl.
  rewrite addFact_valid.
  destruct (String.eqb row.1 label) eqn:Hl; simpl.
  - apply String.eqb_eq in Hl.
    destruct (valid_row row); simpl; [| done].
    by rewrite Hl, lookup_insert_eq.
  - apply String.eqb_neq in Hl.
    destruct (valid_row row); [| done].
    by rewrite lookup_insert_ne.
Qed.

Lemma last_fact_valid label rows v :
  last_fact label rows = Some v →
  v ≠ EmptyString ∧ v ≠ label ∧ (label, v) ∈ rows.
Proof.
  unfold last_fact.
  destruct (List.find _ (rev rows)) as [[l v'] |] eqn:Hf; [| done].
  intros [= <-]. apply find_some in Hf as [Hin Hv]. simpl in Hv.
  apply andb_true_iff in Hv as [Hl Hv]. apply String.eqb_eq in Hl as ->.
  unfold valid_row in Hv. simpl in Hv.
  apply andb_true_iff in Hv as [Hv Hne]. apply andb_true_iff in Hv as [_ Hv].
  apply negb_true_iff, String.eqb_neq in Hne.
  split; [by destruct v' |]. split; [congruence |].
  apply list_elem_of_In. by apply in_rev.
Qed.

(** X25. In the facts table of the match-info page a later row replaces
    an earlier row of the same label, and a row with a blank label, a
    blank value or a value equal to its label is passed over without
    erasing anything.  So venue, toss text and referee are the value of
    the last recorded row of their label, or empty when there is none,
    and the umpires are the last recorded Umpires and 3rd Umpire values
    joined by a comma, or the one of them that exists. *)
Theorem X25_facts_last_valid_row_wins
    (factsRows : string → list (string * string)) (Header : Type)
    (parseHeader : string → Header) (html : string) :
  let info := Scraper.parseMatchInfoHtml factsRows Header parseHeader html in
  let fact label := last_fact label (factsRows html) in
  Scraper.Info.venue info = JS.or_empty (fact "Venue")
  ∧ Scraper.Info.status info = JS.or_empty (fact "Toss")
  ∧ Scraper.Info.matchReferee info = JS.or_empty (fact "Referee")
  ∧ Scraper.Info.umpires info
    = match fact "Umpires", fact "3rd Umpire" with
      | Some a, Some b => a +:+ ", " +:+ b
      | Some a, None => a
      | None, Some b => b
      | None, None => EmptyString
      end
  ∧ (∀ label v, fact label = Some v →
       v ≠ EmptyString ∧ v ≠ label ∧ (label, v) ∈ factsRows html).
Proof.
  intros info fact. unfold info, Scraper.parseMatchInfoHtml. simpl.
  rewrite !facts_last_row_wins. fold (fact "Venue") (fact "Toss")
    (fact "Referee") (fact "Umpires") (fact "3rd Umpire").
  split; [done |]. split; [done |]. split; [done |]. split.
  - unfold Scraper.filterBoolean.
    destruct (fact "Umpires") as [a |] eqn:Ha;
      destruct (fact "3rd Umpire") as [b |] eqn:Hb; simpl.
    + apply last_fact_valid in Ha as (Ha & _), Hb as (Hb & _).
      destruct a; [done |]. destruct b; [done |]. done.
    + apply last_fact_valid in Ha as (Ha & _). by destruct a.
    + apply last_fact_valid in Hb as (Hb & _). by destruct b.
    + done.
  - intros label v. apply last_fact_valid.
Qed.

Lemma X25_facts_last_valid_row_wins_witness :
  let rows := [("Venue", "Eden Gardens"); ("Venue", "Venue");
               ("Umpires", "A, B"); ("Venue", EmptyString)] in
  last_fact "Venue" rows = Some "Eden Gardens"
  ∧ ("Venue", "Eden Gardens") ∈ rows.
Proof.
  intros rows. split; [reflexivity |].
  destruct (X25_facts_last_valid_row_wins (λ _, rows) unit (λ _, tt)
              EmptyString) as (_ & _ & _ & _ & H).
  by apply (H "Venue" "Eden Gardens").
Defined.

(** ** The slug map of the match list page *)

Lemma exec_sound ic r from text a :
  Regex.exec ic r from text = Some a →
  ∃ before w after,
    text = string_of_list_ascii before +:+ string_of_list_ascii w
           +:+ string_of_list_ascii after
    ∧ Regex.sem ic r (Regex.index a) w ∅ (Regex.groups a).
Proof.
  unfold Regex.exec.
  destruct (Regex.search ic r from _) as [[[i j] caps] |] eqn:Hs; [| done].
  intros [= <-]. simpl.
  apply search_sound in Hs as (before & w & after & Htext & -> & -> & Hw).
  exists (take from (list_ascii_of_string text) ++ before), w, after.
  split; [| done].
  rewrite <- !string_of_list_ascii_app, <- app_assoc, <- Htext, take_drop.
  by rewrite string_of_list_ascii_of_string.
Qed.

Lemma sem_chr_exact c i w c0 c1 :
  Regex.sem false (Regex.Chr c) i w c0 c1 → w = [c] ∧ c1 = c0.
Proof.
  intros H. apply sem_chr_inv in H as (x & -> & Hx & ->).
  simpl in Hx. apply Ascii.eqb_eq in Hx. by subst.
Qed.

Lemma sem_lit_exact str i w c0 c1 :
  Regex.sem false (Regex.lit str) i w c0 c1 →
  w = list_ascii_of_string str ∧ c1 = c0.
Proof.
  intros H. apply sem_lit in H as [-> H]. by apply char_matches_exact in H.
Qed.

(** What one match of the link pattern has found. *)
Lemma linkRe_sound html from lm :
  Regex.exec false Scraper.linkRe from html = Some lm →
  ∃ id slug,
    Regex.group 1 (Some lm) = Some id ∧ Regex.group 2 (Some lm) = Some slug
    ∧ occurs (link_text id slug) html
    ∧ id ≠ EmptyString ∧ all_chars JS.isDigit id
    ∧ slug ≠ EmptyString
    ∧ all_chars (λ c, negb (Ascii.eqb c Scraper.dquote)) slug.
Proof.
  intros H. apply exec_sound in H as (before & w & after & -> & H).
  unfold Scraper.linkRe in H.
  apply sem_seq_inv in H as (w1 & w' & c1 & -> & H1 & H).
  apply sem_seq_inv in H as (w2 & w'' & c2 & -> & H2 & H).
  apply sem_seq_inv in H as (w3 & w''' & c3 & -> & H3 & H).
  apply sem_seq_inv in H as (wi & w4 & c4 & -> & Hi & H).
  apply sem_seq_inv in H as (w5 & w6 & c5 & -> & H5 & H).
  apply sem_seq_inv in H as (ws & w7 & c6 & -> & Hslug & H7).
  apply sem_lit_exact in H1 as [-> ->]. apply sem_chr_exact in H2 as [-> ->].
  apply sem_lit_exact in H3 as [-> ->].
  apply sem_group_inv in Hi as (ci & -> & Hi).
  apply sem_plus_class in Hi as (-> & Hine & Hid).
  apply sem_chr_exact in H5 as [-> ->].
  apply sem_group_inv in Hslug as (cs & -> & Hslug).
  apply sem_plus_class in Hslug as (-> & Hsne & Hs).
  apply sem_chr_exact in H7 as [-> Hcaps].
  exists (string_of_list_ascii wi), (string_of_list_ascii ws).
  assert (Hocc : occurs
            (link_text (string_of_list_ascii wi) (string_of_list_ascii ws))
            (string_of_list_ascii before
             +:+ string_of_list_ascii
                   (list_ascii_of_string "href=" ++ [Scraper.dquote]
                    ++ list_ascii_of_string "/live-cricket-scores/" ++ wi
                    ++ ["/"%char] ++ ws ++ [Scraper.dquote])
             +:+ string_of_list_ascii after)).
  { exists (string_of_list_ascii before), (string_of_list_ascii after).
    rewrite !string_of_list_ascii_app, !string_of_list_ascii_of_string.
    reflexivity. }
  unfold all_chars. rewrite !list_ascii_of_string_of_list_ascii.
  cbn [Regex.group Regex.groups]. rewrite Hcaps.
  rewrite lookup_insert_ne by done. rewrite !lookup_insert_eq.
  split; [done |]. split; [done |]. split; [exact Hocc |].
  split; [by apply string_of_list_ascii_nonempty |]. split; [done |].
  split; [by apply string_of_list_ascii_nonempty | done].
Qed.

Lemma slugMapLoop_sound html (P : string → string → Prop) :
  (∀ from lm id slug,
     Regex.exec false Scraper.linkRe from html = Some lm →
     Regex.group 1 (Some lm) = Some id → Regex.group 2 (Some lm) = Some slug →
     P id slug) →
  ∀ fuel lastIndex slugMap,
    (∀ id slug, slugMap !! id = Some slug → P id slug) →
    ∀ id slug,
      Scraper.slugMapLoop fuel lastIndex html slugMap !! id = Some slug →
      P id slug.
Proof.
  intros Hstep. induction fuel as [| fuel IH]; intros lastIndex slugMap Hmap;
    [exact Hmap |].
  cbn [Scraper.slugMapLoop].
  destruct (Regex.exec false Scraper.linkRe lastIndex html) as [lm |] eqn:Hlm;
    [| exact Hmap].
  destruct (Regex.group 1 (Some lm)) as [id' |] eqn:H1; [| exact Hmap].
  destruct (Regex.group 2 (Some lm)) as [slug' |] eqn:H2; [| exact Hmap].
  apply IH. intros id slug.
  destruct (decide (id = id')) as [-> | Hne].
  - rewrite lookup_insert_eq. intros [= <-]. eauto.
  - rewrite lookup_insert_ne by done. apply Hmap.
Qed.

Lemma occurs_link_href id slug html :
  occurs (link_text id slug) html → occurs "href=" html.
Proof.
  intros (pre & post & ->). unfold link_text.
  eexists pre, _. by rewrite append_assoc.
Qed.

(** X26. The slug map read off the match list page holds nothing that is
    not in the page: an entry for an id is the slug of a link
    [href=Q/live-cricket-scores/<id>/<slug>Q] ([Q] the double quote)
    that occurs in the page, the id is a non-empty run of digits, and the
    slug is not empty and holds no double quote.  A page without [href=]
    gives the empty map, so every match id is then the bare number. *)
Theorem X26_slug_map_from_links (html : string) :
  (∀ id slug, Scraper.slugMapOf html !! id = Some slug →
     occurs (link_text id slug) html
     ∧ id ≠ EmptyString ∧ all_chars JS.isDigit id
     ∧ slug ≠ EmptyString
     ∧ all_chars (λ c, negb (Ascii.eqb c Scraper.dquote)) slug)
  ∧ (¬ occurs "href=" html → Scraper.slugMapOf html = ∅).
Proof.
  assert (H : ∀ id slug, Scraper.slugMapOf html !! id = Some slug →
     occurs (link_text id slug) html
     ∧ id ≠ EmptyString ∧ all_chars JS.isDigit id
     ∧ slug ≠ EmptyString
     ∧ all_chars (λ c, negb (Ascii.eqb c Scraper.dquote)) slug).
  { unfold Scraper.slugMapOf. apply slugMapLoop_sound; [| done].
    intros from lm id slug Hlm H1 H2.
    apply linkRe_sound in Hlm as (id' & slug' & H1' & H2' & Hrest).
    rewrite H1 in H1'. rewrite H2 in H2'.
    injection H1' as <-. injection H2' as <-. exact Hrest. }
  split; [exact H |].
  intros Hno. apply map_empty. intros id.
  destruct (Scraper.slugMapOf html !! id) as [slug |] eqn:Hs; [| done].
  exfalso. apply Hno. apply H in Hs as [Hocc _].
  by apply occurs_link_href in Hocc.
Qed.

Lemma X26_slug_map_from_links_witness :
  occurs (link_text "123" "ind-vs-aus") (link_text "123" "ind-vs-aus")
  ∧ "123" ≠ EmptyString ∧ all_chars JS.isDigit "123"
  ∧ "ind-vs-aus" ≠ EmptyString
  ∧ all_chars (λ c, negb (Ascii.eqb c Scraper.dquote)) "ind-vs-aus".
Proof.
  apply (X26_slug_map_from_links (link_text "123" "ind-vs-aus")).
  vm_compute. reflexivity.
Defined.

(** ** The match list page: marker and payload *)

Section MarkerAndPayload.

Variable toISOString : string → result string.
Variable JSON_parse : string → result Scraper.MatchesList.

Let parseMatchList := Scraper.parseMatchList toISOString JSON_parse.

(** X27. The match list comes from the marked payload only.  A page in
    which the marker [currentMatchesList] does not occur is refused with
    the message of the missing marker, and so is, with the message of the
    payload, a page that holds the marker and no closing brace.  When a
    list is returned, the marker occurs in the page, and the list is the
    normalisation of what [JSON.parse] made of a balanced piece of the
    page with its escaped quotes unescaped. *)
Theorem X27_match_list_from_marked_payload (html : string) :
  (¬ occurs Scraper.key html →
     parseMatchList html
     = Err "Could not find currentMatchesList in Cricbuzz page")
  ∧ (occurs Scraper.key html → ¬ occurs "}" html →
     parseMatchList html = Err "Could not extract match list JSON")
  ∧ (∀ ms, parseMatchList html = Ok ms →
       occurs Scraper.key html
       ∧ ∃ raw data,
           occurs raw html ∧ balanced_object raw
           ∧ Scraper.parseRscJson JSON_parse raw = Ok data
           ∧ Scraper.normalizeAll toISOString (Scraper.slugMapOf html)
               (Scraper.flatten data) = Ok ms).
Proof.
  unfold parseMatchList, Scraper.parseMatchList.
  destruct (JS.indexOf Scraper.key 0 html) as [keyIdx |] eqn:Hkey.
  - apply indexOf_occurs in Hkey.
    split; [done |].
    set (braceIdx := match JS.indexOf "{" _ html with
                     | Some i => Z.of_nat i | None => -1 end).
    destruct (Scraper.extractJsonAt html braceIdx) as [raw |] eqn:Hraw.
    + apply extractJsonAt_piece in Hraw
        as [Hbal (pre & post & Hhtml & _)].
      split.
      * intros _ Hno. exfalso. apply Hno.
        destruct Hbal as (inner & -> & _).
        exists (pre +:+ inner), post. by rewrite Hhtml, !append_assoc.
      * intros ms Hms. split; [done |].
        destruct (Scraper.parseRscJson JSON_parse raw) as [data | e] eqn:Hp;
          [| done].
        exists raw, data. split; [by exists pre, post |]. done.
    + split; [done | done].
  - split; [done |]. split; [| done].
    intros Hocc. exfalso. destruct Hocc as (pre & post & ->).
    unfold JS.indexOf in Hkey.
    apply (index_correct3 0 (String.length pre)) in Hkey; [| done | lia].
    apply Hkey. apply substring_middle.
Qed.

End MarkerAndPayload.

Lemma X27_match_list_from_marked_payload_witness :
  let parse := λ raw : string,
    if String.eqb raw "{}" then Ok {| Scraper.typeMatches := None |}
    else Err "Unexpected token" in
  let toISOString := λ _ : string, Err "unused" in
  Scraper.parseMatchList toISOString parse "<html></html>"
  = Err "Could not find currentMatchesList in Cricbuzz page"
  ∧ Scraper.parseMatchList toISOString parse "currentMatchesList:{"
    = Err "Could not extract match list JSON"
  ∧ (occurs Scraper.key "self.push(currentMatchesList:{} )"
     ∧ ∃ raw data,
         occurs raw "self.push(currentMatchesList:{} )"
         ∧ balanced_object raw
         ∧ Scraper.parseRscJson parse raw = Ok data
         ∧ Scraper.normalizeAll toISOString
             (Scraper.slugMapOf "self.push(currentMatchesList:{} )")
             (Scraper.flatten data) = Ok []).
Proof.
  intros parse toISOString. split; [| split].
  - destruct (X27_match_list_from_marked_payload toISOString parse
                "<html></html>") as (H & _).
    apply H. by apply index_None_not_occurs.
  - destruct (X27_match_list_from_marked_payload toISOString parse
                "currentMatchesList:{") as (_ & H & _).
    apply H.
    + by exists EmptyString, ":{".
    + by apply index_None_not_occurs.
  - destruct (X27_match_list_from_marked_payload toISOString parse
                "self.push(currentMatchesList:{} )") as (_ & _ & H).
    apply (H []). reflexivity.
Defined.

(** ** The on-demand route of the combined list *)

Section OnDemandMatches.

Variable getCurrentMatches : Scraper.io MatchList.
Variable getMatches : Scraper.io MatchList.
Variable LIVE_TTL : Z.
Variable UPCOMING_TTL : Z.

Let route :=
  OnDemandRoutes.matches getCurrentMatches getMatches LIVE_TTL UPCOMING_TTL.

Import OnDemandRoutes.

(** X28. The on-demand route of the combined list.  With both lists
    readable in the cache it answers from the cache, like the scheduled
    route, and leaves cache and status as they were: the site is not
    asked.  With neither list readable it asks the site for both: when
    both answers arrive and are read back within their TTLs, the reply is
    their merge with the age counted from that store; when both fail, the
    reply is the 503 one and the failure of the current list is the
    recorded error.  In every case the fetch counter moves by one exactly
    when the current list was not readable at the start. *)
Theorem X28_on_demand_matches (up : Scraper.upstream) (t : readings)
    (w : world) :
  (∀ ec eu,
     cache w !! "currentMatches" = Some ec → get1 t ≤ Cache.expiresAt ec →
     cache w !! "upcomingMatches" = Some eu → get2 t ≤ Cache.expiresAt eu →
     route up t w
     = (w, Routes.SendCached
             (Routes.merge (data (Cache.value ec)) (data (Cache.value eu)))
             (Some ((age5 t - Cache.cachedAt ec) / 1000))))
  ∧ ((Cache.get (get1 t) "currentMatches" (cache w)).2 = None →
     (Cache.get (get2 t) "upcomingMatches" (cache w)).2 = None →
     (∀ dc du,
        (getCurrentMatches up).2 = Ok dc → (getMatches up).2 = Ok du →
        get3 t ≤ set_e t + LIVE_TTL * 1000 →
        get4 t ≤ set_e' t + UPCOMING_TTL * 1000 →
        (route up t w).2
        = Routes.SendCached (Routes.merge (data dc) (data du))
            (Some ((age5 t - set_c t) / 1000))
        ∧ lastSuccess (poller (route up t w).1) = Some (date_s t))
     ∧ (∀ e1 e2,
          (getCurrentMatches up).2 = Err e1 → (getMatches up).2 = Err e2 →
          (route up t w).2
          = Routes.Unavailable "Match data unavailable — the data source may be temporarily down."
          ∧ lastError (poller (route up t w).1) = Some e1))
  ∧ pollCount (poller (route up t w).1)
    = (pollCount (poller w)
       + match (Cache.get (get1 t) "currentMatches" (cache w)).2 with
         | Some _ => 0
         | None => 1
         end)%N.
Proof.
  destruct w as [st store]. cbn [cache poller].
  split; [| split].
  - intros ec eu Hc Hce Hu Hue. unfold route, matches. cbn [cache poller].
    rewrite (get_fresh _ _ _ ec Hc Hce), (get_fresh _ _ _ eu Hu Hue).
    cbn. by rewrite (age_resident _ _ _ ec Hc).
  - intros Hc Hu. unfold route, matches. cbn [cache poller].
    destruct (Cache.get (get1 t) "currentMatches" store)
      as [store1 current] eqn:H1.
    simpl in Hc. subst current.
    assert (Hu1 : (Cache.get (get2 t) "upcomingMatches" store1).2 = None).
    { rewrite <- Hu. apply get_result_ext.
      replace store1 with (Cache.get (get1 t) "currentMatches" store).1
        by (by rewrite H1).
      by apply get_store_other. }
    destruct (Cache.get (get2 t) "upcomingMatches" store1)
      as [store2 upcoming] eqn:H2.
    simpl in Hu1. subst upcoming.
    apply get_None_lookup in H2 as Hu2.
    assert (Hc2 : store2 !! "currentMatches" = None).
    { replace store2 with (Cache.get (get2 t) "upcomingMatches" store1).1
        by (by rewrite H2).
      rewrite get_store_other by done. by apply get_None_lookup in H1. }
    split.
    + intros dc du Hdc Hdu H3 H4.
      unfold OnDemand.catch, OnDemand.fetchCurrentMatches,
        OnDemand.fetchUpcomingMatches.
      rewrite Hdc. cbn [fst snd cache poller]. rewrite Hdu.
      cbn [fst snd cache poller].
      set (s1 := Cache.set (set_e t) (set_c t) "currentMatches" dc LIVE_TTL
                   store2).
      set (s2 := Cache.set (set_e' t) (set_c' t) "upcomingMatches" du
                   UPCOMING_TTL s1).
      assert (Hl1 : s2 !! "currentMatches"
                    = Some (Cache.Entry dc (set_e t + LIVE_TTL * 1000) (set_c t))).
      { unfold s2. rewrite lookup_set_ne by done. apply lookup_set. }
      assert (Hl2 : s2 !! "upcomingMatches"
                    = Some (Cache.Entry du (set_e' t + UPCOMING_TTL * 1000)
                              (set_c' t))) by apply lookup_set.
      rewrite (get_fresh _ _ _ _ Hl1) by done.
      rewrite (get_fresh _ _ _ _ Hl2) by done.
      cbn. by rewrite (age_resident _ _ _ _ Hl1).
    + intros e1 e2 He1 He2.
      unfold OnDemand.catch, OnDemand.fetchCurrentMatches,
        OnDemand.fetchUpcomingMatches.
      rewrite He1. cbn [fst snd cache poller]. rewrite He2.
      cbn [fst snd cache poller].
      rewrite (get_miss _ _ _ Hc2), (get_miss _ _ _ Hu2). done.
  - unfold route, matches. cbn [cache poller].
    destruct (Cache.get (get1 t) "currentMatches" store)
      as [store1 current] eqn:H1.
    destruct (Cache.get (get2 t) "upcomingMatches" store1)
      as [store2 upcoming] eqn:H2.
    unfold OnDemand.catch, OnDemand.fetchCurrentMatches,
      OnDemand.fetchUpcomingMatches.
    cbn [snd].
    destruct current as [ec |], upcoming as [eu |];
      destruct (getCurrentMatches up).2 as [dc | e1];
      destruct (getMatches up).2 as [du | e2]; cbn [fst snd cache poller];
      repeat match goal with
             | |- context [Cache.get ?n ?k ?s] =>
                 destruct (Cache.get n k s) as [? [?|]]
             end; cbn; lia.
Qed.

End OnDemandMatches.

Lemma X28_on_demand_matches_witness :
  let current := Scraper.ret {| data := [only_id "1"; only_id "2"] |} in
  let upcoming := Scraper.ret {| data := [only_id "2"; only_id "3"] |} in
  let up := λ _ : string, Scraper.HttpResponse 200 EmptyString in
  let t := OnDemandRoutes.Readings 0 0 1000 1000 1001 1002 1002 1003 1003 3500 in
  (OnDemandRoutes.matches current upcoming 30 300 up t initial).2
  = Routes.SendCached [only_id "1"; only_id "2"; only_id "3"] (Some 2).
Proof.
  intros current upcoming up t.
  destruct (X28_on_demand_matches current upcoming 30 300 up t initial)
    as (_ & H & _).
  destruct (H eq_refl eq_refl) as [Hok _].
  destruct (Hok {| data := [only_id "1"; only_id "2"] |}
              {| data := [only_id "2"; only_id "3"] |} eq_refl eq_refl)
    as [Hreply _]; [simpl; lia | simpl; lia |].
  exact Hreply.
Defined.
